(** * Token editor and recursive context environment: a shallow embedding

    The development follows the C sources of the token editor
    (token_editor.h / token_editor.c) and of the recursive LLM
    environment (recursive_llm.h / recursive_llm.c).

    Conventions of the embedding:
    - [int32_t] values (tokens, positions, sequence ids) are integers in
      [Z]; the conversions the C code performs are written out
      ([to_int32], [to_uint32], [size_t_lt] and the like).
    - [size_t] counts are natural numbers.
    - An array of [n_tokens] defined cells is the list of these cells.
      The cells of the backing store beyond [n_tokens] are not part of
      the state: an operation that grows the buffer sees them as cells of
      unspecified content ([store]) and has to overwrite each of them
      before it exposes it.
    - A function whose C execution has no defined result (it reads or
      writes cells outside the buffer it owns, it makes a cell of
      unspecified content part of the buffer, or a loop does not
      terminate) returns [None].
    - [malloc], [calloc] and [realloc] succeed.
    - The sequence registry of an editor and the mailbox of a context
      are values of their own ([te_sequences_t], [rllm_mailbox_t]): the
      functions that use them take them beside the editor or the ids of
      the contexts. *)

From Stdlib Require Import ZArith Lia Bool Sorted.
From stdpp Require Import base option list gmap.

Local Open Scope Z_scope.

(** ** Machine integers *)

Definition te_pos_t := Z.
Definition te_token_t := Z.
Definition te_seq_id_t := Z.

Definition INT32_MAX : Z := 2147483647.
Definition UINT32_MOD : Z := 4294967296.

(** Conversion to [int32_t] (two's complement wrap-around). *)
Definition to_int32 (z : Z) : Z := (z + 2147483648) mod UINT32_MOD - 2147483648.

(** Conversion to [uint32_t]. *)
Definition to_uint32 (z : Z) : Z := z mod UINT32_MOD.

(** Comparisons of a position converted to [size_t] with a count. The
    buffer of [n] cells fits the address space, so a negative position
    converts to a value (at least 2^64 - 2^31) above [n]. *)

(** [(size_t)z < n] *)
Definition size_t_lt (z : Z) (n : nat) : bool := (0 <=? z) && (z <? Z.of_nat n).

(** [(size_t)z > n] *)
Definition size_t_gt (z : Z) (n : nat) : bool := (z <? 0) || (Z.of_nat n <? z).

(** [(size_t)z >= n] *)
Definition size_t_ge (z : Z) (n : nat) : bool := (z <? 0) || (Z.of_nat n <=? z).

(** ** Data model of token_editor.h *)

Inductive te_error_t :=
| TE_OK
| TE_ERROR_INVALID_CONTEXT
| TE_ERROR_INVALID_POSITION
| TE_ERROR_INVALID_TOKEN
| TE_ERROR_BUFFER_TOO_SMALL
| TE_ERROR_KV_CACHE_FULL
| TE_ERROR_SEQUENCE_NOT_FOUND
| TE_ERROR_ALLOCATION_FAILED
| TE_ERROR_READONLY.

(** The float fields [logit] and [prob] of the C struct are left out: no
    function of the editor writes them into the buffer or reads them. *)
Record te_token_info_t := mk_info {
  ti_id : te_token_t;
  ti_pos : te_pos_t;
  ti_seq_id : te_seq_id_t;
  ti_has_logit : bool;
  ti_flags : Z
}.

Definition TE_FLAG_BOS : Z := Z.shiftl 1 0.
Definition TE_FLAG_EOS : Z := Z.shiftl 1 1.
Definition TE_FLAG_SPECIAL : Z := Z.shiftl 1 2.
Definition TE_FLAG_CONTROL : Z := Z.shiftl 1 3.
Definition TE_FLAG_USER_DATA : Z := Z.shiftl 1 4.
Definition TE_FLAG_GENERATED : Z := Z.shiftl 1 5.

Record te_range_t := mk_range {
  r_start : te_pos_t;
  r_end : te_pos_t;
  r_seq_id : te_seq_id_t
}.

Inductive te_op_type_t :=
| TE_OP_INSERT
| TE_OP_DELETE
| TE_OP_REPLACE
| TE_OP_MOVE
| TE_OP_COPY
| TE_OP_SWAP.

(** One node of the history list. [op_tokens] is the copied payload
    ([tokens] with [n_tokens] cells); the [next] pointer is the list
    structure itself. *)
Record te_edit_op_t := mk_op {
  op_type : te_op_type_t;
  op_source : te_range_t;
  op_dest : te_range_t;
  op_tokens : list te_token_t
}.

(** One slot of a [llama_batch]. *)
Record llama_batch_slot := mk_slot {
  b_token : te_token_t;
  b_pos : te_pos_t;
  b_seq_id : list te_seq_id_t;
  b_logits : bool
}.

Definition llama_batch := list llama_batch_slot.

Record llama_context_params := mk_cparams {
  cp_n_ctx : Z;
  cp_n_batch : Z;
  cp_n_threads : Z;
  cp_n_threads_batch : Z
}.

(** The model adapter: the part of llama.h the two modules call. The
    model (weights and vocabulary) is fixed, so the vocabulary queries
    take the token only. [LLAMA_TOKEN_ATTR_CONTROL] and
    [LLAMA_TOKEN_ATTR_SPECIAL] are constants of llama.h. A context is a
    value: an operation that mutates it returns the new one. *)
Class llama_api := {
  llama_context : Type;
  llama_token_is_eog : te_token_t -> bool;
  llama_token_bos : te_token_t;
  llama_token_get_attr : te_token_t -> Z;
  LLAMA_TOKEN_ATTR_CONTROL : Z;
  LLAMA_TOKEN_ATTR_SPECIAL : Z;
  llama_kv_cache_clear : llama_context -> llama_context;
  llama_decode : llama_context -> llama_batch -> Z * llama_context;
  llama_copy_state_data : llama_context -> list Z;
  llama_set_state_data : llama_context -> list Z -> llama_context;
  llama_new_context_with_model : llama_context_params -> option llama_context
}.

(** ** Arrays *)

(** The backing store of an array: [n_tokens] defined cells followed by
    the cells up to [capacity], whose content is not specified ([None]). *)
Definition store {A} (cells : list A) (capacity : nat) : list (option A) :=
  (Some <$> cells) ++ replicate (capacity - length cells)%nat None.

(** [memmove (a + dst, a + src, len * sizeof a[0])] inside one array; no
    defined result when it leaves the allocation. *)
Definition memmove {A} (a : list A) (dst src len : nat) : option (list A) :=
  if ((dst + len <=? length a) && (src + len <=? length a))%nat then
    Some (take dst a ++ take len (drop src a) ++ drop (dst + len)%nat a)
  else None.

(** [memcpy (a + dst, src, |src| * sizeof a[0])]. *)
Definition memcpy {A} (a : list A) (dst : nat) (src : list A) : option (list A) :=
  if (dst + length src <=? length a)%nat then
    Some (take dst a ++ src ++ drop (dst + length src)%nat a)
  else None.

(** The buffer [a[0..n)] of a backing store: every cell has to be
    specified. *)
Definition buffer_of {A} (n : nat) (a : list (option A)) : option (list A) :=
  if (n <=? length a)%nat then mapM id (take n a) else None.

Section TokenEditor.
Context `{llama_api}.

(** [struct te_context]. [n_tokens] is the length of [tokens];
    [history_tail] is the last node of [history] (it is null exactly when
    [history] is, see [te_record_edit], [te_undo] and
    [te_clear_history]). The sequence registry and the two callbacks
    (null after [te_init]) are left out. *)
Record te_context_t := mk_te {
  llama_ctx : llama_context;
  tokens : list te_token_t;
  token_info : list te_token_info_t;
  capacity : nat;
  history : list te_edit_op_t;
  redo_stack : list te_edit_op_t;
  history_limit : nat;
  readonly : bool;
  kv_cache_dirty : bool;
  logits_valid : bool;
  suppress_history : bool
}.

Definition n_tokens (ctx : te_context_t) : nat := length (tokens ctx).

Definition set_llama_ctx (v : llama_context) (c : te_context_t) : te_context_t :=
  mk_te v (tokens c) (token_info c) (capacity c) (history c) (redo_stack c)
        (history_limit c) (readonly c) (kv_cache_dirty c) (logits_valid c)
        (suppress_history c).

Definition set_buffer (t : list te_token_t) (i : list te_token_info_t)
  (c : te_context_t) : te_context_t :=
  mk_te (llama_ctx c) t i (capacity c) (history c) (redo_stack c)
        (history_limit c) (readonly c) (kv_cache_dirty c) (logits_valid c)
        (suppress_history c).

Definition set_capacity (v : nat) (c : te_context_t) : te_context_t :=
  mk_te (llama_ctx c) (tokens c) (token_info c) v (history c) (redo_stack c)
        (history_limit c) (readonly c) (kv_cache_dirty c) (logits_valid c)
        (suppress_history c).

Definition set_history (v : list te_edit_op_t) (c : te_context_t) : te_context_t :=
  mk_te (llama_ctx c) (tokens c) (token_info c) (capacity c) v (redo_stack c)
        (history_limit c) (readonly c) (kv_cache_dirty c) (logits_valid c)
        (suppress_history c).

Definition set_redo_stack (v : list te_edit_op_t) (c : te_context_t) : te_context_t :=
  mk_te (llama_ctx c) (tokens c) (token_info c) (capacity c) (history c) v
        (history_limit c) (readonly c) (kv_cache_dirty c) (logits_valid c)
        (suppress_history c).

Definition set_history_limit (v : nat) (c : te_context_t) : te_context_t :=
  mk_te (llama_ctx c) (tokens c) (token_info c) (capacity c) (history c)
        (redo_stack c) v (readonly c) (kv_cache_dirty c) (logits_valid c)
        (suppress_history c).

Definition set_readonly (v : bool) (c : te_context_t) : te_context_t :=
  mk_te (llama_ctx c) (tokens c) (token_info c) (capacity c) (history c)
        (redo_stack c) (history_limit c) v (kv_cache_dirty c) (logits_valid c)
        (suppress_history c).

Definition set_kv_cache_dirty (v : bool) (c : te_context_t) : te_context_t :=
  mk_te (llama_ctx c) (tokens c) (token_info c) (capacity c) (history c)
        (redo_stack c) (history_limit c) (readonly c) v (logits_valid c)
        (suppress_history c).

Definition set_logits_valid (v : bool) (c : te_context_t) : te_context_t :=
  mk_te (llama_ctx c) (tokens c) (token_info c) (capacity c) (history c)
        (redo_stack c) (history_limit c) (readonly c) (kv_cache_dirty c) v
        (suppress_history c).

Definition set_suppress_history (v : bool) (c : te_context_t) : te_context_t :=
  mk_te (llama_ctx c) (tokens c) (token_info c) (capacity c) (history c)
        (redo_stack c) (history_limit c) (readonly c) (kv_cache_dirty c)
        (logits_valid c) v.

(** [ctx->kv_cache_dirty = true; ctx->logits_valid = false;] *)
Definition mark_dirty (c : te_context_t) : te_context_t :=
  set_logits_valid false (set_kv_cache_dirty true c).

(** What a function of the editor returns: the error code and the editor
    after the call, or [None] when the C execution has no defined result. *)
Definition te_result : Type := option (te_error_t * te_context_t).

(** ** Internal helpers *)

Definition TE_DEFAULT_CAPACITY : nat := 4096.
Definition TE_HISTORY_DEFAULT_LIMIT : nat := 100.

(** [while (new_capacity < required) new_capacity *= 2;] *)
Fixpoint grow_capacity (fuel new_capacity required : nat) : option nat :=
  if (new_capacity <? required)%nat then
    match fuel with
    | O => None
    | S fuel' => grow_capacity fuel' (new_capacity * 2)%nat required
    end
  else Some new_capacity.

Definition te_ensure_capacity (ctx : te_context_t) (required : nat) : te_result :=
  if (required <=? capacity ctx)%nat then Some (TE_OK, ctx)
  else
    new_capacity ← grow_capacity required (capacity ctx * 2)%nat required;
    Some (TE_OK, set_capacity new_capacity ctx).

(** [while (count > ctx->history_limit && ctx->history)]: drop the oldest
    node. *)
Fixpoint trim_history (count limit : nat) (h : list te_edit_op_t) : list te_edit_op_t :=
  match h with
  | [] => []
  | old :: rest =>
      if (limit <? count)%nat then trim_history (count - 1)%nat limit rest else h
  end.

Definition te_record_edit (ctx : te_context_t) (type : te_op_type_t)
  (source dest : te_range_t) (toks : list te_token_t) : te_context_t :=
  if suppress_history ctx then ctx
  else
    let op := mk_op type source dest toks in
    (* add to history, clear the redo stack *)
    let ctx := set_redo_stack [] (set_history (history ctx ++ [op]) ctx) in
    (* enforce the history limit *)
    if (0 <? history_limit ctx)%nat then
      let count := length (history ctx) in
      set_history (trim_history count (history_limit ctx) (history ctx)) ctx
    else ctx.

Definition te_get_token_flags (token : te_token_t) : Z :=
  let flags := 0 in
  let flags := if llama_token_is_eog token then Z.lor flags TE_FLAG_EOS else flags in
  let flags := if token =? llama_token_bos then Z.lor flags TE_FLAG_BOS else flags in
  let attr := llama_token_get_attr token in
  let flags := if Z.land attr LLAMA_TOKEN_ATTR_CONTROL =? 0 then flags
               else Z.lor flags TE_FLAG_CONTROL in
  let flags := if Z.land attr LLAMA_TOKEN_ATTR_SPECIAL =? 0 then flags
               else Z.lor flags TE_FLAG_SPECIAL in
  flags.

(** ** Initialization *)

Definition te_init (lctx : llama_context) : te_context_t :=
  mk_te lctx [] [] TE_DEFAULT_CAPACITY [] [] TE_HISTORY_DEFAULT_LIMIT
        false false false false.

Definition te_set_history_limit (ctx : te_context_t) (limit : nat) : te_context_t :=
  set_history_limit limit ctx.

End TokenEditor.

Section TokenEditorOps.
Context `{llama_api}.

(** ** Token inspection *)

Definition te_get_token (ctx : te_context_t) (pos : te_pos_t) (seq_id : te_seq_id_t)
  : te_token_t :=
  if (pos <? 0) || size_t_ge pos (n_tokens ctx) then -1
  else default (-1) (tokens ctx !! Z.to_nat pos).


Definition clamp_start (start : te_pos_t) : te_pos_t :=
  if start <? 0 then 0 else start.

(** [if ((size_t)end > ctx->n_tokens) end = ctx->n_tokens;] *)
Definition clamp_end (n : nat) (end_ : te_pos_t) : te_pos_t :=
  if size_t_gt end_ n then to_int32 (Z.of_nat n) else end_.

(** Returns the error code, the cells written to [out] and [*n_out]. *)
Definition te_get_tokens (ctx : te_context_t) (range : te_range_t) (n_out : nat)
  : te_error_t * list te_token_t * nat :=
  let start := clamp_start (r_start range) in
  let end_ := clamp_end (n_tokens ctx) (r_end range) in
  if end_ <=? start then (TE_OK, [], 0%nat)
  else
    let count := Z.to_nat (end_ - start) in
    if (n_out <? count)%nat then (TE_ERROR_BUFFER_TOO_SMALL, [], n_out)
    else (TE_OK, take count (drop (Z.to_nat start) (tokens ctx)), count).

Definition te_get_token_count (ctx : te_context_t) (seq_id : te_seq_id_t) : nat :=
  n_tokens ctx.

(** ** Token modification *)

Definition te_set_token (ctx : te_context_t) (pos : te_pos_t) (seq_id : te_seq_id_t)
  (token : te_token_t) : te_result :=
  if readonly ctx then Some (TE_ERROR_READONLY, ctx)
  else if (pos <? 0) || size_t_ge pos (n_tokens ctx) then
    Some (TE_ERROR_INVALID_POSITION, ctx)
  else
    let i := Z.to_nat pos in
    old_token ← tokens ctx !! i;
    cell ← token_info ctx !! i;
    (* record for undo *)
    let range := mk_range pos (pos + 1) seq_id in
    let ctx := te_record_edit ctx TE_OP_REPLACE range range [old_token] in
    let cell := mk_info token (ti_pos cell) (ti_seq_id cell) false
                        (te_get_token_flags token) in
    let ctx := set_buffer (<[i := token]> (tokens ctx))
                          (<[i := cell]> (token_info ctx)) ctx in
    Some (TE_OK, mark_dirty ctx).

(** The metadata cells [te_insert_tokens] and [te_replace_tokens] write
    for the new tokens: all five fields are assigned. *)
Definition new_info (start : te_pos_t) (seq_id : te_seq_id_t) (toks : list te_token_t)
  : list te_token_info_t :=
  imap (fun i t => mk_info t (to_int32 (start + Z.of_nat i))
                           (if 0 <=? seq_id then seq_id else 0) false
                           (Z.lor (te_get_token_flags t) TE_FLAG_USER_DATA)) toks.

Definition te_insert_tokens (ctx : te_context_t) (pos : te_pos_t) (seq_id : te_seq_id_t)
  (toks : list te_token_t) : te_result :=
  if readonly ctx then Some (TE_ERROR_READONLY, ctx)
  else if (pos <? 0) || size_t_gt pos (n_tokens ctx) then
    Some (TE_ERROR_INVALID_POSITION, ctx)
  else if (length toks =? 0)%nat then Some (TE_OK, ctx)
  else
    '(err, ctx) ← te_ensure_capacity ctx (n_tokens ctx + length toks);
    match err with
    | TE_OK =>
        let n := n_tokens ctx in
        let k := length toks in
        let p := Z.to_nat pos in
        let a := store (tokens ctx) (capacity ctx) in
        let b := store (token_info ctx) (capacity ctx) in
        (* shift existing tokens *)
        a ← (if (p <? n)%nat then memmove a (p + k) p (n - p) else Some a);
        b ← (if (p <? n)%nat then memmove b (p + k) p (n - p) else Some b);
        (* insert new tokens *)
        a ← memcpy a p (Some <$> toks);
        b ← memcpy b p (Some <$> new_info pos seq_id toks);
        (* ctx->n_tokens += n_tokens *)
        t ← buffer_of (n + k) a;
        i ← buffer_of (n + k) b;
        let ctx := mark_dirty (set_buffer t i ctx) in
        (* record for undo *)
        let range := mk_range pos (to_int32 (pos + Z.of_nat k)) seq_id in
        let ctx := te_record_edit ctx TE_OP_INSERT range range toks in
        Some (TE_OK, ctx)
    | _ => Some (err, ctx)
    end.

Definition te_delete_tokens (ctx : te_context_t) (range : te_range_t) : te_result :=
  if readonly ctx then Some (TE_ERROR_READONLY, ctx)
  else
    let n := n_tokens ctx in
    let start := clamp_start (r_start range) in
    let end_ := clamp_end n (r_end range) in
    if end_ <=? start then Some (TE_OK, ctx)
    else
      let count := Z.to_nat (end_ - start) in
      let s := Z.to_nat start in
      let e := Z.to_nat end_ in
      (* save for undo *)
      let saved := take count (drop s (tokens ctx)) in
      let save_range := mk_range start end_ (r_seq_id range) in
      let ctx := te_record_edit ctx TE_OP_DELETE save_range save_range saved in
      (* shift remaining tokens *)
      a ← (if size_t_lt end_ n
            then memmove (tokens ctx) s e (n - e) else Some (tokens ctx));
      b ← (if size_t_lt end_ n
            then memmove (token_info ctx) s e (n - e) else Some (token_info ctx));
      (* ctx->n_tokens -= count *)
      let ctx := set_buffer (take (n - count) a) (take (n - count) b) ctx in
      Some (TE_OK, mark_dirty ctx).

(** [tokens] is an array of [n_tokens] cells (a null pointer only with
    [n_tokens == 0]). With a range that starts beyond the buffer the new
    tokens land past [n_tokens] and the cells in between become part of
    the buffer unwritten: [buffer_of] has no result then. *)
Definition te_replace_tokens (ctx : te_context_t) (range : te_range_t)
  (toks : list te_token_t) : te_result :=
  if readonly ctx then Some (TE_ERROR_READONLY, ctx)
  else
    let n := n_tokens ctx in
    let start := clamp_start (r_start range) in
    let end_ := clamp_end n (r_end range) in
    let old_count := if start <? end_ then Z.to_nat (end_ - start) else 0%nat in
    let new_count := length toks in
    let s := Z.to_nat start in
    let e := Z.to_nat end_ in
    (* save old tokens for undo *)
    let saved := if (0 <? old_count)%nat
                 then Some (take old_count (drop s (tokens ctx))) else None in
    (* calculate new size *)
    let new_total := (n - old_count + new_count)%nat in
    '(err, ctx) ← te_ensure_capacity ctx new_total;
    match err with
    | TE_OK =>
        let a := store (tokens ctx) (capacity ctx) in
        let b := store (token_info ctx) (capacity ctx) in
        (* shift tokens if sizes differ *)
        let shift := negb (new_count =? old_count)%nat
                     && size_t_lt end_ n in
        a ← (if shift then memmove a (s + new_count) e (n - e) else Some a);
        b ← (if shift then memmove b (s + new_count) e (n - e) else Some b);
        (* copy new tokens *)
        a ← (if (0 <? new_count)%nat then memcpy a s (Some <$> toks) else Some a);
        b ← (if (0 <? new_count)%nat
              then memcpy b s (Some <$> new_info start (r_seq_id range) toks)
              else Some b);
        (* ctx->n_tokens = new_total *)
        t ← buffer_of new_total a;
        i ← buffer_of new_total b;
        let ctx := mark_dirty (set_buffer t i ctx) in
        (* record for undo *)
        let ctx := match saved with
                   | Some saved =>
                       let save_range := mk_range start end_ (r_seq_id range) in
                       te_record_edit ctx TE_OP_REPLACE save_range save_range saved
                   | None => ctx
                   end in
        Some (TE_OK, ctx)
    | _ => Some (err, ctx)
    end.

Definition te_clear (ctx : te_context_t) (seq_id : te_seq_id_t) : te_result :=
  if readonly ctx then Some (TE_ERROR_READONLY, ctx)
  else
    (* save for undo *)
    let ctx := if (0 <? n_tokens ctx)%nat then
                 let range := mk_range 0 (to_int32 (Z.of_nat (n_tokens ctx))) seq_id in
                 te_record_edit ctx TE_OP_DELETE range range (tokens ctx)
               else ctx in
    (* ctx->n_tokens = 0 *)
    Some (TE_OK, mark_dirty (set_buffer [] [] ctx)).

(** ** Undo and redo *)

(** The walk [while (op && op->next)] of [te_undo]: the last node and the
    list before it. *)
Fixpoint history_pop (h : list te_edit_op_t) : option (list te_edit_op_t * te_edit_op_t) :=
  match h with
  | [] => None
  | op :: rest =>
      match history_pop rest with
      | None => Some ([], op)
      | Some (prev, last) => Some (op :: prev, last)
      end
  end.

Definition te_undo (ctx : te_context_t) : te_result :=
  match history_pop (history ctx) with
  | None => Some (TE_OK, ctx)
  | Some (prev, op) =>
      (* remove from history *)
      let ctx := set_history prev ctx in
      (* temporarily disable history recording *)
      let was_suppress := suppress_history ctx in
      let ctx := set_suppress_history true ctx in
      (* reverse the operation; the error code is dropped *)
      '(_, ctx) ← match op_type op with
                   | TE_OP_INSERT => te_delete_tokens ctx (op_source op)
                   | TE_OP_DELETE =>
                       te_insert_tokens ctx (r_start (op_source op))
                                        (r_seq_id (op_source op)) (op_tokens op)
                   | TE_OP_REPLACE => te_replace_tokens ctx (op_dest op) (op_tokens op)
                   | _ => Some (TE_OK, ctx)
                   end;
      let ctx := set_suppress_history was_suppress ctx in
      (* move to redo stack *)
      let ctx := set_redo_stack (op :: redo_stack ctx) ctx in
      Some (TE_OK, mark_dirty ctx)
  end.

Definition te_redo (ctx : te_context_t) : te_result :=
  match redo_stack ctx with
  | [] => Some (TE_OK, ctx)
  | op :: rest =>
      let ctx := set_redo_stack rest ctx in
      let was_suppress := suppress_history ctx in
      let ctx := set_suppress_history true ctx in
      (* redo the operation; the error code is dropped *)
      '(_, ctx) ← match op_type op with
                   | TE_OP_INSERT =>
                       te_insert_tokens ctx (r_start (op_source op))
                                        (r_seq_id (op_source op)) (op_tokens op)
                   | TE_OP_DELETE => te_delete_tokens ctx (op_source op)
                   | TE_OP_REPLACE => te_replace_tokens ctx (op_source op) (op_tokens op)
                   | _ => Some (TE_OK, ctx)
                   end;
      let ctx := set_suppress_history was_suppress ctx in
      (* move back to history *)
      let ctx := set_history (history ctx ++ [op]) ctx in
      Some (TE_OK, mark_dirty ctx)
  end.

Definition te_get_history_count (ctx : te_context_t) : nat := length (history ctx).


(** ** KV cache management *)

(** The batch of [te_sync_kv_cache]: every token at its index, sequence
    0, logits requested for the last slot only. *)
Definition sync_batch (toks : list te_token_t) : llama_batch :=
  imap (fun i t => mk_slot t (to_int32 (Z.of_nat i)) [0]
                           (i =? length toks - 1)%nat) toks.

Definition te_sync_kv_cache (ctx : te_context_t) : te_result :=
  if negb (kv_cache_dirty ctx) then Some (TE_OK, ctx)
  else
    (* clear and rebuild the KV cache *)
    let ctx := set_llama_ctx (llama_kv_cache_clear (llama_ctx ctx)) ctx in
    if (0 <? n_tokens ctx)%nat then
      let '(result, lctx) := llama_decode (llama_ctx ctx) (sync_batch (tokens ctx)) in
      let ctx := set_llama_ctx lctx ctx in
      if result =? 0 then
        Some (TE_OK, set_kv_cache_dirty false (set_logits_valid true ctx))
      else Some (TE_ERROR_KV_CACHE_FULL, ctx)
    else Some (TE_OK, set_kv_cache_dirty false ctx).

(** ** Export and import *)

(** The object representation of a [uint32_t] in memory (the host is
    little-endian); bytes are integers in [0, 256). *)
Definition bytes_of_uint32 (v : Z) : list Z :=
  [v mod 256; (v / 256) mod 256; (v / 65536) mod 256; (v / 16777216) mod 256].

Definition bytes_of_int32 (v : Z) : list Z := bytes_of_uint32 (to_uint32 v).

Definition uint32_of_bytes (bs : list Z) : Z :=
  match bs with
  | [b0; b1; b2; b3] => b0 + 256 * b1 + 65536 * b2 + 16777216 * b3
  | _ => 0
  end.

Fixpoint int32s_of_bytes (count : nat) (bs : list Z) : list Z :=
  match count with
  | O => []
  | S count' => to_int32 (uint32_of_bytes (take 4 bs)) :: int32s_of_bytes count' (drop 4 bs)
  end.

(** Reading [len] cells at [a + off]; no defined result past the end. *)
Definition read {A} (a : list A) (off len : nat) : option (list A) :=
  if (off + len <=? length a)%nat then Some (take len (drop off a)) else None.

(** [buf] is the caller's buffer and [buf_size] the value of [*buf_size]
    on entry. Returns the error code, the buffer and [*buf_size] after
    the call. *)
Definition te_export_binary (ctx : te_context_t) (seq_id : te_seq_id_t)
  (buf : list Z) (buf_size : nat) : option (te_error_t * list Z * nat) :=
  let needed := (4 + n_tokens ctx * 4)%nat in
  if (buf_size <? needed)%nat then Some (TE_ERROR_BUFFER_TOO_SMALL, buf, needed)
  else
    (* write count *)
    let count := to_uint32 (Z.of_nat (n_tokens ctx)) in
    buf ← memcpy buf 0 (bytes_of_uint32 count);
    (* write tokens *)
    buf ← memcpy buf 4 (flat_map bytes_of_int32 (tokens ctx));
    Some (TE_OK, buf, needed).

Definition import_info (seq_id : te_seq_id_t) (toks : list te_token_t)
  : list te_token_info_t :=
  imap (fun i t => mk_info t (to_int32 (Z.of_nat i))
                           (if 0 <=? seq_id then seq_id else 0) false
                           (te_get_token_flags t)) toks.

Definition te_import_binary (ctx : te_context_t) (seq_id : te_seq_id_t)
  (buf : list Z) (buf_size : nat) : te_result :=
  if (buf_size <? 4)%nat then Some (TE_ERROR_BUFFER_TOO_SMALL, ctx)
  else
    (* read count *)
    hdr ← read buf 0 4;
    let count := Z.to_nat (uint32_of_bytes hdr) in
    let expected := (4 + count * 4)%nat in
    if (buf_size <? expected)%nat then Some (TE_ERROR_BUFFER_TOO_SMALL, ctx)
    else
      (* clear and load tokens; the error code of te_clear is dropped *)
      '(_, ctx) ← te_clear ctx seq_id;
      '(err, ctx) ← te_ensure_capacity ctx count;
      match err with
      | TE_OK =>
          payload ← read buf 4 (count * 4);
          let toks := int32s_of_bytes count payload in
          a ← memcpy (store (tokens ctx) (capacity ctx)) 0 (Some <$> toks);
          (* initialize token info *)
          b ← memcpy (store (token_info ctx) (capacity ctx)) 0
                     (Some <$> import_info seq_id toks);
          (* ctx->n_tokens = count *)
          t ← buffer_of count a;
          i ← buffer_of count b;
          Some (TE_OK, mark_dirty (set_buffer t i ctx))
      | _ => Some (err, ctx)
      end.

(** ** Calls of the editor API and the states they reach *)

Inductive te_call :=
| Call_set_token (pos : te_pos_t) (seq_id : te_seq_id_t) (token : te_token_t)
| Call_insert_tokens (pos : te_pos_t) (seq_id : te_seq_id_t) (toks : list te_token_t)
| Call_delete_tokens (range : te_range_t)
| Call_replace_tokens (range : te_range_t) (toks : list te_token_t)
| Call_clear (seq_id : te_seq_id_t)
| Call_undo
| Call_redo
| Call_import_binary (seq_id : te_seq_id_t) (buf : list Z) (buf_size : nat).

Definition te_apply (c : te_call) (ctx : te_context_t) : te_result :=
  match c with
  | Call_set_token pos seq_id token => te_set_token ctx pos seq_id token
  | Call_insert_tokens pos seq_id toks => te_insert_tokens ctx pos seq_id toks
  | Call_delete_tokens range => te_delete_tokens ctx range
  | Call_replace_tokens range toks => te_replace_tokens ctx range toks
  | Call_clear seq_id => te_clear ctx seq_id
  | Call_undo => te_undo ctx
  | Call_redo => te_redo ctx
  | Call_import_binary seq_id buf buf_size => te_import_binary ctx seq_id buf buf_size
  end.


(** The five mutators. *)
Definition is_mutator (c : te_call) : bool :=
  match c with
  | Call_set_token _ _ _ | Call_insert_tokens _ _ _ | Call_delete_tokens _
  | Call_replace_tokens _ _ | Call_clear _ => true
  | _ => false
  end.

End TokenEditorOps.

Section TokenEditorSnapshots.
Context `{llama_api}.

(** ** Snapshot and restore *)

(** [te_snapshot_t]. [n_tokens] is the length of [snap_tokens];
    [snap_kv_cache_state] is the blob [llama_copy_state_data] wrote, or
    null. [rng_state] is never written or read. *)
Record te_snapshot_t := mk_snapshot {
  snap_tokens : list te_token_t;
  snap_token_info : list te_token_info_t;
  snap_kv_cache_state : option (list Z)
}.

Definition te_create_snapshot (ctx : te_context_t) : option te_snapshot_t :=
  let n := n_tokens ctx in
  (* memcpy of n_tokens cells of each array *)
  t ← (if (0 <? n)%nat then read (tokens ctx) 0 n else Some []);
  i ← (if (0 <? n)%nat then read (token_info ctx) 0 n else Some []);
  (* save KV cache state *)
  Some (mk_snapshot t i (Some (llama_copy_state_data (llama_ctx ctx)))).

Definition te_restore_snapshot (ctx : te_context_t) (snapshot : te_snapshot_t)
  : te_result :=
  let n := length (snap_tokens snapshot) in
  '(err, ctx) ← te_ensure_capacity ctx n;
  match err with
  | TE_OK =>
      (* ctx->n_tokens = snapshot->n_tokens *)
      let a := store (tokens ctx) (capacity ctx) in
      let b := store (token_info ctx) (capacity ctx) in
      src ← read (snap_token_info snapshot) 0 n;
      a ← (if (0 <? n)%nat then memcpy a 0 (Some <$> snap_tokens snapshot) else Some a);
      b ← (if (0 <? n)%nat then memcpy b 0 (Some <$> src) else Some b);
      t ← buffer_of n a;
      i ← buffer_of n b;
      let ctx := set_buffer t i ctx in
      (* restore KV cache state *)
      match snap_kv_cache_state snapshot with
      | Some state =>
          let ctx := set_llama_ctx (llama_set_state_data (llama_ctx ctx) state) ctx in
          Some (TE_OK, set_logits_valid true (set_kv_cache_dirty false ctx))
      | None => Some (TE_OK, mark_dirty ctx)
      end
  | _ => Some (err, ctx)
  end.

(** ** Logits *)


(** ** Search *)

(** The loop of [te_find_token] from index [i] on, with room for [room]
    more positions. *)
Fixpoint te_find_token_loop (toks : list te_token_t) (i : nat) (token : te_token_t)
  (room : nat) : list te_pos_t :=
  match toks with
  | [] => []
  | t :: rest =>
      match room with
      | O => []
      | S room' =>
          if t =? token then
            to_int32 (Z.of_nat i) :: te_find_token_loop rest (S i) token room'
          else te_find_token_loop rest (S i) token room
      end
  end.

(** [max] is [*n_positions] on entry. Returns the error code, the cells
    written to [positions] and [*n_positions] after the call. *)
Definition te_find_token (ctx : te_context_t) (token : te_token_t) (seq_id : te_seq_id_t)
  (max : nat) : te_error_t * list te_pos_t * nat :=
  let positions := te_find_token_loop (tokens ctx) 0 token max in
  (TE_OK, positions, length positions).

End TokenEditorSnapshots.

(** ** Sequence management *)

(** The part of llama.h the sequence functions call. *)
Class llama_seq_api `{llama_api} := {
  llama_kv_cache_seq_rm :
    llama_context -> te_seq_id_t -> te_pos_t -> te_pos_t -> llama_context;
  llama_kv_cache_seq_cp :
    llama_context -> te_seq_id_t -> te_seq_id_t -> te_pos_t -> te_pos_t -> llama_context
}.

Section TokenEditorSequences.
Context `{llama_seq_api}.

(** The sequence registry of [struct te_context]: the array
    [active_sequences] ([te_init] allocates 16 cells and never grows
    them) with its [n_sequences] cells in use. The functions below take
    it beside the editor, whose other fields they do not touch. *)
Definition te_sequences_t := list te_seq_id_t.

Definition TE_MAX_SEQUENCES : nat := 16.

(** [te_init]: the default sequence. *)
Definition te_init_sequences : te_sequences_t := [0].

(** The scan of [te_create_sequence] for an id above the registered
    ones; no defined result when [active_sequences[i] + 1] overflows. *)
Definition te_next_sequence_id (seqs : te_sequences_t) : option te_seq_id_t :=
  foldl (fun acc a =>
           new_id ← acc;
           if new_id <=? a then
             if a <? INT32_MAX then Some (a + 1) else None
           else Some new_id)
        (Some 0) seqs.

(** Returns the new id (-1 when the registry is full) and the registry. *)
Definition te_create_sequence (seqs : te_sequences_t)
  : option (te_seq_id_t * te_sequences_t) :=
  new_id ← te_next_sequence_id seqs;
  (* grow array if needed: not implemented *)
  if (TE_MAX_SEQUENCES <=? length seqs)%nat then Some (-1, seqs)
  else Some (new_id, seqs ++ [new_id]).

(** The registry without the first cell that holds [seq_id]. *)
Fixpoint te_remove_sequence (seq_id : te_seq_id_t) (seqs : te_sequences_t)
  : option te_sequences_t :=
  match seqs with
  | [] => None
  | a :: rest =>
      if a =? seq_id then Some rest
      else rest' ← te_remove_sequence seq_id rest; Some (a :: rest')
  end.

Definition te_delete_sequence (ctx : te_context_t) (seqs : te_sequences_t)
  (seq_id : te_seq_id_t) : te_error_t * te_context_t * te_sequences_t :=
  match te_remove_sequence seq_id seqs with
  | Some seqs' =>
      (* clear KV cache for this sequence *)
      (TE_OK,
       set_llama_ctx (llama_kv_cache_seq_rm (llama_ctx ctx) seq_id (-1) (-1)) ctx,
       seqs')
  | None => (TE_ERROR_SEQUENCE_NOT_FOUND, ctx, seqs)
  end.

Definition te_copy_sequence (ctx : te_context_t) (src dst : te_seq_id_t)
  : te_error_t * te_context_t :=
  (TE_OK, set_llama_ctx (llama_kv_cache_seq_cp (llama_ctx ctx) src dst (-1) (-1)) ctx).

Definition te_fork_sequence (ctx : te_context_t) (seqs : te_sequences_t)
  (src : te_seq_id_t) : option (te_seq_id_t * te_context_t * te_sequences_t) :=
  '(dst, seqs) ← te_create_sequence seqs;
  if dst <? 0 then Some (-1, ctx, seqs)
  else
    let '(err, ctx) := te_copy_sequence ctx src dst in
    match err with
    | TE_OK => Some (dst, ctx, seqs)
    | _ =>
        let '(_, ctx, seqs) := te_delete_sequence ctx seqs dst in
        Some (-1, ctx, seqs)
    end.

(** The registries a client can reach. *)
Inductive te_sequences_reachable : te_sequences_t -> Prop :=
| te_sequences_reachable_init : te_sequences_reachable te_init_sequences
| te_sequences_reachable_create seqs id seqs' :
    te_sequences_reachable seqs -> te_create_sequence seqs = Some (id, seqs') ->
    te_sequences_reachable seqs'
| te_sequences_reachable_delete ctx seqs seq_id err ctx' seqs' :
    te_sequences_reachable seqs ->
    te_delete_sequence ctx seqs seq_id = (err, ctx', seqs') ->
    te_sequences_reachable seqs'
| te_sequences_reachable_fork ctx seqs src id ctx' seqs' :
    te_sequences_reachable seqs ->
    te_fork_sequence ctx seqs src = Some (id, ctx', seqs') ->
    te_sequences_reachable seqs'.

End TokenEditorSequences.

(** * The recursive context environment (recursive_llm.h, recursive_llm.c) *)

Local Open Scope Z_scope.

Definition RLLM_MAX_DEPTH : Z := 32.
Definition RLLM_MAX_CONTEXTS : Z := 64.

Inductive rllm_relation_t :=
| RLLM_REL_ROOT
| RLLM_REL_CHILD
| RLLM_REL_FORK
| RLLM_REL_PEER.

Inductive rllm_state_t :=
| RLLM_STATE_IDLE
| RLLM_STATE_RUNNING
| RLLM_STATE_WAITING
| RLLM_STATE_COMPLETE
| RLLM_STATE_ERROR
| RLLM_STATE_SUSPENDED.

Inductive rllm_share_mode_t :=
| RLLM_SHARE_NONE
| RLLM_SHARE_KV_READ
| RLLM_SHARE_KV_COPY
| RLLM_SHARE_TOKENS_READ
| RLLM_SHARE_TOKENS_COPY
| RLLM_SHARE_FULL.

Inductive rllm_error_t :=
| RLLM_OK
| RLLM_ERROR_MAX_DEPTH
| RLLM_ERROR_MAX_CONTEXTS
| RLLM_ERROR_INVALID_CONTEXT
| RLLM_ERROR_INVALID_PARENT
| RLLM_ERROR_CONTEXT_BUSY
| RLLM_ERROR_RECURSION_LIMIT
| RLLM_ERROR_MEMORY
| RLLM_ERROR_MODEL
| RLLM_ERROR_DEADLOCK
| RLLM_ERROR_TIMEOUT.

(** [rllm_ctx_config_t]; the completion parameters (floats) play no part
    in the functions below and are left out. *)
Record rllm_ctx_config_t := mk_ctx_config {
  n_ctx : Z;
  n_batch : Z;
  n_threads : Z;
  share_mode : rllm_share_mode_t;
  inherit_prompt : bool;
  inherit_sampling : bool
}.

Record rllm_env_config_t := mk_env_config {
  max_depth : Z;
  max_contexts : Z;
  default_n_ctx : Z;
  default_n_batch : Z;
  default_n_threads : Z;
  memory_limit : nat;
  enable_logging : bool;
  enable_metrics : bool
}.

(** A pointer to a [rllm_context_t] object. *)
Definition ptr := nat.

(** The calls of the three environment callbacks, in order. A callback is
    user code; it is taken to observe only. *)
Inductive rllm_event :=
| Ev_context_create (ctx : ptr)
| Ev_context_destroy (ctx : ptr)
| Ev_recursion (parent child : ptr).

Section RecursiveLlm.
Context `{llama_api}.

(** [struct rllm_context]. [llama_ctx] and [token_editor->llama_ctx]
    point to the same object: it is kept in the editor. The mailbox, the
    timing fields and the per-context callbacks are left out. *)
Record rllm_context_t := mk_rc {
  rc_id : Z;
  rc_relation : rllm_relation_t;
  rc_state : rllm_state_t;
  rc_parent : option ptr;
  rc_children : list ptr;
  rc_depth : Z;
  rc_token_editor : option te_context_t;
  rc_config : rllm_ctx_config_t
}.

(** [struct rllm_env] together with the context objects its pointers
    refer to ([env_heap]). [n_contexts] and [n_roots] are the lengths of
    the two arrays. *)
Record rllm_env_t := mk_env {
  env_heap : gmap ptr rllm_context_t;
  env_contexts : list ptr;
  env_next_ctx_id : Z;
  env_roots : list ptr;
  env_config : rllm_env_config_t;
  env_total_contexts_created : Z;
  env_total_recursions : Z;
  env_peak_depth : Z;
  env_on_context_create : bool;
  env_on_context_destroy : bool;
  env_on_recursion : bool;
  env_events : list rllm_event
}.

Definition set_env_heap (v : gmap ptr rllm_context_t) (e : rllm_env_t) : rllm_env_t :=
  mk_env v (env_contexts e) (env_next_ctx_id e) (env_roots e)
         (env_config e) (env_total_contexts_created e) (env_total_recursions e)
         (env_peak_depth e) (env_on_context_create e) (env_on_context_destroy e)
         (env_on_recursion e) (env_events e).

Definition set_env_contexts (v : list ptr) (e : rllm_env_t) : rllm_env_t :=
  mk_env (env_heap e) v (env_next_ctx_id e) (env_roots e)
         (env_config e) (env_total_contexts_created e) (env_total_recursions e)
         (env_peak_depth e) (env_on_context_create e) (env_on_context_destroy e)
         (env_on_recursion e) (env_events e).

Definition set_env_roots (v : list ptr) (e : rllm_env_t) : rllm_env_t :=
  mk_env (env_heap e) (env_contexts e) (env_next_ctx_id e) v
         (env_config e) (env_total_contexts_created e) (env_total_recursions e)
         (env_peak_depth e) (env_on_context_create e) (env_on_context_destroy e)
         (env_on_recursion e) (env_events e).

Definition set_env_total_recursions (v : Z) (e : rllm_env_t) : rllm_env_t :=
  mk_env (env_heap e) (env_contexts e) (env_next_ctx_id e)
         (env_roots e) (env_config e) (env_total_contexts_created e) v
         (env_peak_depth e) (env_on_context_create e) (env_on_context_destroy e)
         (env_on_recursion e) (env_events e).

Definition set_env_peak_depth (v : Z) (e : rllm_env_t) : rllm_env_t :=
  mk_env (env_heap e) (env_contexts e) (env_next_ctx_id e)
         (env_roots e) (env_config e) (env_total_contexts_created e)
         (env_total_recursions e) v (env_on_context_create e)
         (env_on_context_destroy e) (env_on_recursion e) (env_events e).

Definition set_env_events (v : list rllm_event) (e : rllm_env_t) : rllm_env_t :=
  mk_env (env_heap e) (env_contexts e) (env_next_ctx_id e)
         (env_roots e) (env_config e) (env_total_contexts_created e)
         (env_total_recursions e) (env_peak_depth e) (env_on_context_create e)
         (env_on_context_destroy e) (env_on_recursion e) v.

Definition set_rc_token_editor (v : option te_context_t) (c : rllm_context_t)
  : rllm_context_t :=
  mk_rc (rc_id c) (rc_relation c) (rc_state c) (rc_parent c) (rc_children c)
        (rc_depth c) v (rc_config c).

Definition set_rc_children (v : list ptr) (c : rllm_context_t) : rllm_context_t :=
  mk_rc (rc_id c) (rc_relation c) (rc_state c) (rc_parent c) v
        (rc_depth c) (rc_token_editor c) (rc_config c).

Definition set_rc_parent (v : option ptr) (c : rllm_context_t) : rllm_context_t :=
  mk_rc (rc_id c) (rc_relation c) (rc_state c) v (rc_children c)
        (rc_depth c) (rc_token_editor c) (rc_config c).

Definition set_rc_depth (v : Z) (c : rllm_context_t) : rllm_context_t :=
  mk_rc (rc_id c) (rc_relation c) (rc_state c) (rc_parent c) (rc_children c)
        v (rc_token_editor c) (rc_config c).

Definition n_contexts (env : rllm_env_t) : nat := length (env_contexts env).

(** A callback call: logged when the callback is installed. *)
Definition fire (installed : bool) (ev : rllm_event) (env : rllm_env_t) : rllm_env_t :=
  if installed then set_env_events (env_events env ++ [ev]) env else env.

Definition zero_config : rllm_ctx_config_t :=
  mk_ctx_config 0 0 0 RLLM_SHARE_NONE false false.

(** ** Internal helpers *)

(** Returns the new object (null when the pool is full). *)
Definition rllm_alloc_context (env : rllm_env_t) : option ptr * rllm_env_t :=
  if max_contexts (env_config env) <=? Z.of_nat (n_contexts env) then (None, env)
  else
    (* calloc returns the address of no live object *)
    let p := fresh (dom (env_heap env)) in
    (* ctx->id = env->next_ctx_id++ *)
    let ctx := mk_rc (env_next_ctx_id env) RLLM_REL_ROOT RLLM_STATE_IDLE None [] 0
                     None zero_config in
    (Some p,
     mk_env (<[p := ctx]> (env_heap env))
            (* env->contexts[env->n_contexts++] = ctx *)
            (env_contexts env ++ [p])
            (to_uint32 (env_next_ctx_id env + 1)) (env_roots env) (env_config env)
            (env_total_contexts_created env + 1) (env_total_recursions env)
            (env_peak_depth env) (env_on_context_create env)
            (env_on_context_destroy env) (env_on_recursion env) (env_events env)).

(** The first occurrence of [p] taken out of an array of pointers (the
    loops of [rllm_remove_from_pool], [rllm_remove_child] and
    [rllm_destroy]). *)
Fixpoint remove_first (p : ptr) (l : list ptr) : list ptr :=
  match l with
  | [] => []
  | q :: l' => if (q =? p)%nat then l' else q :: remove_first p l'
  end.

Definition rllm_remove_from_pool (env : rllm_env_t) (ctx : ptr) : rllm_env_t :=
  set_env_contexts (remove_first ctx (env_contexts env)) env.

(** [free] of a context that failed to get its llama context. *)
Definition free_context (env : rllm_env_t) (ctx : ptr) : rllm_env_t :=
  set_env_heap (delete ctx (env_heap env)) env.

(** The helpers below work on the context objects; [None]: a pointer
    that refers to no live object is dereferenced. *)
Definition rllm_add_child (h : gmap ptr rllm_context_t) (parent child : ptr)
  : option (gmap ptr rllm_context_t) :=
  par ← h !! parent;
  let h := <[parent := set_rc_children (rc_children par ++ [child]) par]> h in
  ch ← h !! child;
  Some (<[child := set_rc_depth (to_uint32 (rc_depth par + 1))
                     (set_rc_parent (Some parent) ch)]> h).

Definition rllm_remove_child (h : gmap ptr rllm_context_t) (parent child : ptr)
  : option (gmap ptr rllm_context_t) :=
  par ← h !! parent;
  if bool_decide (child ∈ rc_children par) then
    let h := <[parent := set_rc_children (remove_first child (rc_children par)) par]> h in
    ch ← h !! child;
    Some (<[child := set_rc_parent None ch]> h)
  else Some h.

(** Children first, then the node itself; [fuel] bounds the depth of the
    recursion. *)
Fixpoint rllm_free_context_internal (fuel : nat) (h : gmap ptr rllm_context_t)
  (ctx : ptr) : option (gmap ptr rllm_context_t) :=
  match fuel with
  | O => None
  | S fuel' =>
      c ← h !! ctx;
      h ← foldl (fun acc child => h ← acc; rllm_free_context_internal fuel' h child)
                (Some h) (rc_children c);
      Some (delete ctx h)
  end.

(** ** Environment lifecycle *)

Definition rllm_init (config : rllm_env_config_t) : rllm_env_t :=
  mk_env ∅ [] 0 [] config 0 0 0 false false false [].

(** The client installs callbacks by assigning the three fields. *)
Definition install_callbacks (create destroy recursion : bool) (e : rllm_env_t)
  : rllm_env_t :=
  mk_env (env_heap e) (env_contexts e) (env_next_ctx_id e) (env_roots e)
         (env_config e) (env_total_contexts_created e) (env_total_recursions e)
         (env_peak_depth e) create destroy recursion (env_events e).

(** ** Context creation *)

Definition rllm_create_root (env : rllm_env_t) (config : rllm_ctx_config_t)
  : option (option ptr * rllm_env_t) :=
  match rllm_alloc_context env with
  | (None, env) => Some (None, env)
  | (Some ctx, env) =>
      c ← env_heap env !! ctx;
      let c := mk_rc (rc_id c) RLLM_REL_ROOT (rc_state c) (rc_parent c) (rc_children c)
                     0 (rc_token_editor c) config in
      (* create llama context *)
      let cparams := mk_cparams (n_ctx config) (n_batch config) (n_threads config)
                                (n_threads config) in
      match llama_new_context_with_model cparams with
      | None => Some (None, free_context (rllm_remove_from_pool env ctx) ctx)
      | Some lctx =>
          (* create token editor *)
          let c := set_rc_token_editor (Some (te_init lctx)) c in
          let env := set_env_heap (<[ctx := c]> (env_heap env)) env in
          (* add to roots *)
          let env := if (length (env_roots env) <? 8)%nat
                     then set_env_roots (env_roots env ++ [ctx]) env else env in
          let env := fire (env_on_context_create env) (Ev_context_create ctx) env in
          Some (Some ctx, env)
      end
  end.

Definition is_kv_copy (m : rllm_share_mode_t) : bool :=
  match m with RLLM_SHARE_KV_COPY | RLLM_SHARE_FULL => true | _ => false end.

Definition is_tokens_copy (m : rllm_share_mode_t) : bool :=
  match m with RLLM_SHARE_TOKENS_COPY | RLLM_SHARE_FULL => true | _ => false end.

(** The sharing block of [rllm_spawn_child]: the child's editor after
    it. *)
Definition share_from_parent (mode : rllm_share_mode_t) (parent : rllm_context_t)
  (child_te : te_context_t) : option te_context_t :=
  (* copy KV cache state from parent *)
  child_te ← (if is_kv_copy mode then
                parent_te ← rc_token_editor parent;
                let state := llama_copy_state_data (llama_ctx parent_te) in
                Some (set_llama_ctx (llama_set_state_data (llama_ctx child_te) state)
                                    child_te)
              else Some child_te);
  (* copy tokens from parent *)
  if is_tokens_copy mode then
    match rc_token_editor parent with
    | Some parent_te =>
        if (0 <? n_tokens parent_te)%nat then
          let range := mk_range 0 (to_int32 (Z.of_nat (n_tokens parent_te))) (-1) in
          let '(_, out, n) := te_get_tokens parent_te range (n_tokens parent_te) in
          (* the first n cells of the scratch array have to be written *)
          if (length out =? n)%nat then
            '(_, child_te) ← te_insert_tokens child_te 0 0 out;
            Some child_te
          else None
        else Some child_te
    | None => Some child_te
    end
  else Some child_te.

Definition rllm_spawn_child (env : rllm_env_t) (parent : option ptr)
  (config : rllm_ctx_config_t) : option (option ptr * rllm_env_t) :=
  match parent with
  | None => Some (None, env)
  | Some parent =>
      par ← env_heap env !! parent;
      (* check depth limit *)
      if max_depth (env_config env) <=? to_uint32 (rc_depth par + 1) then Some (None, env)
      else
        match rllm_alloc_context env with
        | (None, env) => Some (None, env)
        | (Some ctx, env) =>
            c ← env_heap env !! ctx;
            let c := mk_rc (rc_id c) RLLM_REL_CHILD (rc_state c) (rc_parent c)
                           (rc_children c) (rc_depth c) (rc_token_editor c) config in
            (* create llama context *)
            let pick (v pv : Z) := if 0 <? v then v else pv in
            let nt := pick (n_threads config) (n_threads (rc_config par)) in
            let cparams := mk_cparams (pick (n_ctx config) (n_ctx (rc_config par)))
                                      (pick (n_batch config) (n_batch (rc_config par)))
                                      nt nt in
            match llama_new_context_with_model cparams with
            | None => Some (None, free_context (rllm_remove_from_pool env ctx) ctx)
            | Some lctx =>
                (* create token editor, handle sharing mode *)
                child_te ← share_from_parent (share_mode config) par (te_init lctx);
                let c := set_rc_token_editor (Some child_te) c in
                h ← rllm_add_child (<[ctx := c]> (env_heap env)) parent ctx;
                let env := set_env_heap h env in
                (* update peak depth *)
                c ← h !! ctx;
                let env := if env_peak_depth env <? rc_depth c
                           then set_env_peak_depth (rc_depth c) env else env in
                let env := set_env_total_recursions (env_total_recursions env + 1) env in
                let env := fire (env_on_context_create env) (Ev_context_create ctx) env in
                let env := fire (env_on_recursion env) (Ev_recursion parent ctx) env in
                Some (Some ctx, env)
            end
        end
  end.

Definition rllm_destroy (env : rllm_env_t) (ctx : ptr)
  : option (rllm_error_t * rllm_env_t) :=
  let env := fire (env_on_context_destroy env) (Ev_context_destroy ctx) env in
  c ← env_heap env !! ctx;
  (* remove from parent *)
  h ← match rc_parent c with
       | Some parent => rllm_remove_child (env_heap env) parent ctx
       | None => Some (env_heap env)
       end;
  (* remove from roots if it's a root *)
  let env := set_env_roots (remove_first ctx (env_roots env)) env in
  (* free context and all children *)
  let env := rllm_remove_from_pool env ctx in
  h ← rllm_free_context_internal (S (size h)) h ctx;
  Some (RLLM_OK, set_env_heap h env).

(** ** Context lookup and tree operations *)

Fixpoint rllm_get_context_loop (h : gmap ptr rllm_context_t) (pool : list ptr) (id : Z)
  : option (option ptr) :=
  match pool with
  | [] => Some None
  | p :: pool' =>
      c ← h !! p;
      if rc_id c =? id then Some (Some p) else rllm_get_context_loop h pool' id
  end.

Definition rllm_get_context (env : rllm_env_t) (id : Z) : option (option ptr) :=
  rllm_get_context_loop (env_heap env) (env_contexts env) id.

Fixpoint rllm_count_descendants (fuel : nat) (h : gmap ptr rllm_context_t) (ctx : ptr)
  : option nat :=
  match fuel with
  | O => None
  | S fuel' =>
      c ← h !! ctx;
      foldl (fun acc child =>
               count ← acc;
               n ← rllm_count_descendants fuel' h child;
               Some (count + 1 + n)%nat)
            (Some 0%nat) (rc_children c)
  end.

(** ** Calls of the environment API and the states they reach *)

Inductive rllm_call :=
| Call_create_root (config : rllm_ctx_config_t)
| Call_spawn_child (parent : option ptr) (config : rllm_ctx_config_t)
| Call_destroy (ctx : ptr)
| Call_install_callbacks (create destroy recursion : bool).

Definition rllm_apply (c : rllm_call) (env : rllm_env_t) : option rllm_env_t :=
  match c with
  | Call_create_root config => snd <$> rllm_create_root env config
  | Call_spawn_child parent config => snd <$> rllm_spawn_child env parent config
  | Call_destroy ctx => snd <$> rllm_destroy env ctx
  | Call_install_callbacks create destroy recursion =>
      Some (install_callbacks create destroy recursion env)
  end.

(** The environments a client can hold: [rllm_init] followed by calls
    that returned. *)
Inductive rllm_reachable (config : rllm_env_config_t) : rllm_env_t -> Prop :=
| rllm_reachable_init : rllm_reachable config (rllm_init config)
| rllm_reachable_step (env env' : rllm_env_t) (c : rllm_call) :
    rllm_reachable config env -> rllm_apply c env = Some env' ->
    rllm_reachable config env'.

End RecursiveLlm.

(** ** Inter-context communication *)

Inductive rllm_msg_type_t :=
| RLLM_MSG_TOKENS
| RLLM_MSG_TEXT
| RLLM_MSG_COMPLETION
| RLLM_MSG_EMBEDDING
| RLLM_MSG_CONTROL
| RLLM_MSG_QUERY
| RLLM_MSG_RESPONSE.

(** [rllm_message_t]. [msg_data] is the byte buffer [data] points to
    (null: [None]). *)
Record rllm_message_t := mk_message {
  msg_type : rllm_msg_type_t;
  msg_sender : Z;
  msg_receiver : Z;
  msg_seq_num : Z;
  msg_data_size : nat;
  msg_data : option (list Z)
}.

(** A message cell after [calloc], and [rllm_message_t msg = {}]. *)
Definition zero_message : rllm_message_t :=
  mk_message RLLM_MSG_TOKENS 0 0 0 0%nat None.

(** The mailbox of a [struct rllm_context]: [message_queue] with its
    [queue_capacity] cells, [queue_head] and [queue_tail]. The functions
    below take it beside the ids of the two contexts, whose other fields
    they do not touch; the [on_message] callback is null. *)
Record rllm_mailbox_t := mk_mailbox {
  message_queue : list rllm_message_t;
  queue_head : nat;
  queue_tail : nat
}.

Definition queue_capacity (mb : rllm_mailbox_t) : nat := length (message_queue mb).

(** The mailbox [rllm_alloc_context] gives a context. *)
Definition rllm_alloc_mailbox : rllm_mailbox_t :=
  mk_mailbox (replicate 32%nat zero_message) 0%nat 0%nat.

(** [from] and [to] are the ids of the two contexts, [mb] the mailbox of
    the receiver. The cell gets a copy of the first [data_size] bytes of
    the data when there are any, the pointer itself otherwise. *)
Definition rllm_send_message (from to : Z) (mb : rllm_mailbox_t) (msg : rllm_message_t)
  : option (rllm_error_t * rllm_mailbox_t) :=
  if (queue_capacity mb =? 0)%nat then None
  else
    let next_tail := ((queue_tail mb + 1) mod queue_capacity mb)%nat in
    if (next_tail =? queue_head mb)%nat then Some (RLLM_ERROR_MEMORY, mb) (* queue full *)
    else
      (* msg->sender = from->id; msg->receiver = to->id *)
      let msg := mk_message (msg_type msg) from to (msg_seq_num msg)
                            (msg_data_size msg) (msg_data msg) in
      _ ← message_queue mb !! queue_tail mb;
      (* copy data if present *)
      data ← match msg_data msg with
              | Some d =>
                  if (0 <? msg_data_size msg)%nat
                  then copy ← read d 0 (msg_data_size msg); Some (Some copy)
                  else Some (Some d)
              | None => Some None
              end;
      let cell := mk_message (msg_type msg) (msg_sender msg) (msg_receiver msg)
                             (msg_seq_num msg) (msg_data_size msg) data in
      Some (RLLM_OK,
            mk_mailbox (<[queue_tail mb := cell]> (message_queue mb))
                       (queue_head mb) next_tail).

Definition rllm_send_tokens (from to : Z) (mb : rllm_mailbox_t) (toks : list te_token_t)
  : option (rllm_error_t * rllm_mailbox_t) :=
  rllm_send_message from to mb
    (mk_message RLLM_MSG_TOKENS 0 0 0 (length toks * 4)%nat
                (Some (flat_map bytes_of_int32 toks))).

Definition rllm_send_text (from to : Z) (mb : rllm_mailbox_t) (text : list Z) (len : nat)
  : option (rllm_error_t * rllm_mailbox_t) :=
  rllm_send_message from to mb (mk_message RLLM_MSG_TEXT 0 0 0 len (Some text)).

Definition rllm_has_messages (mb : rllm_mailbox_t) : bool :=
  negb (queue_head mb =? queue_tail mb)%nat.

(** The wait loop runs in one thread: nobody fills the queue meanwhile.
    With a positive timeout the monotonic clock ends it; without one it
    does not end. Returns the error code, [*msg] and the mailbox. *)
Definition rllm_recv_message (mb : rllm_mailbox_t) (timeout_ms : Z)
  : option (rllm_error_t * option rllm_message_t * rllm_mailbox_t) :=
  if (queue_head mb =? queue_tail mb)%nat then
    if 0 <? timeout_ms then Some (RLLM_ERROR_TIMEOUT, None, mb) else None
  else
    msg ← message_queue mb !! queue_head mb;
    Some (RLLM_OK, Some msg,
          mk_mailbox (message_queue mb)
                     ((queue_head mb + 1) mod queue_capacity mb)%nat (queue_tail mb)).

Section RecursiveLlmMore.
Context `{llama_api}.

(** ** Forks and peers *)

Definition set_rc_relation (v : rllm_relation_t) (c : rllm_context_t) : rllm_context_t :=
  mk_rc (rc_id c) v (rc_state c) (rc_parent c) (rc_children c)
        (rc_depth c) (rc_token_editor c) (rc_config c).

Definition rllm_fork (env : rllm_env_t) (source : option ptr)
  : option (option ptr * rllm_env_t) :=
  match source with
  | None => Some (None, env)
  | Some source =>
      src ← env_heap env !! source;
      (* config = source->config; config.share_mode = RLLM_SHARE_FULL *)
      let config := mk_ctx_config (n_ctx (rc_config src)) (n_batch (rc_config src))
                                  (n_threads (rc_config src)) RLLM_SHARE_FULL
                                  (inherit_prompt (rc_config src))
                                  (inherit_sampling (rc_config src)) in
      '(ctx, env) ← rllm_spawn_child env (rc_parent src) config;
      match ctx with
      | None => Some (None, env)
      | Some ctx =>
          c ← env_heap env !! ctx;
          Some (Some ctx,
                set_env_heap (<[ctx := set_rc_relation RLLM_REL_FORK c]> (env_heap env)) env)
      end
  end.

Definition rllm_create_peer (env : rllm_env_t) (peer : option ptr)
  (config : rllm_ctx_config_t) : option (option ptr * rllm_env_t) :=
  match peer with
  | None => Some (None, env)
  | Some peer =>
      match rllm_alloc_context env with
      | (None, env) => Some (None, env)
      | (Some ctx, env') =>
          (* the peer is an object that was live before the allocation *)
          p ← env_heap env !! peer;
          let env := env' in
          c ← env_heap env !! ctx;
          let c := mk_rc (rc_id c) RLLM_REL_PEER (rc_state c) (rc_parent p)
                         (rc_children c) (rc_depth p) (rc_token_editor c) config in
          (* create independent llama context *)
          let pick (v pv : Z) := if 0 <? v then v else pv in
          let nt := pick (n_threads config) (n_threads (rc_config p)) in
          let cparams := mk_cparams (pick (n_ctx config) (n_ctx (rc_config p)))
                                    (pick (n_batch config) (n_batch (rc_config p)))
                                    nt nt in
          match llama_new_context_with_model cparams with
          | None => Some (None, free_context (rllm_remove_from_pool env ctx) ctx)
          | Some lctx =>
              let c := set_rc_token_editor (Some (te_init lctx)) c in
              let h := <[ctx := c]> (env_heap env) in
              (* add as sibling to peer's parent *)
              h ← match rc_parent p with
                   | Some parent => rllm_add_child h parent ctx
                   | None => Some h
                   end;
              let env := set_env_heap h env in
              let env := fire (env_on_context_create env) (Ev_context_create ctx) env in
              Some (Some ctx, env)
          end
      end
  end.

(** ** Context lookup *)

Definition rllm_get_parent (h : gmap ptr rllm_context_t) (ctx : option ptr)
  : option (option ptr) :=
  match ctx with
  | None => Some None
  | Some ctx => c ← h !! ctx; Some (rc_parent c)
  end.

(** [while (ctx->parent) ctx = ctx->parent;] [fuel] bounds the walk. *)
Fixpoint rllm_get_root_loop (fuel : nat) (h : gmap ptr rllm_context_t) (ctx : ptr)
  : option ptr :=
  match fuel with
  | O => None
  | S fuel' =>
      c ← h !! ctx;
      match rc_parent c with
      | Some parent => rllm_get_root_loop fuel' h parent
      | None => Some ctx
      end
  end.

Definition rllm_get_root (fuel : nat) (h : gmap ptr rllm_context_t) (ctx : option ptr)
  : option (option ptr) :=
  match ctx with
  | None => Some None
  | Some ctx => Some <$> rllm_get_root_loop fuel h ctx
  end.

Definition rllm_get_depth (h : gmap ptr rllm_context_t) (ctx : option ptr) : option Z :=
  match ctx with
  | None => Some 0
  | Some ctx => c ← h !! ctx; Some (rc_depth c)
  end.

(** The environments a client can hold when it also forks contexts and
    creates peers. *)
Inductive rllm_session (config : rllm_env_config_t) : rllm_env_t -> Prop :=
| rllm_session_init : rllm_session config (rllm_init config)
| rllm_session_call (env env' : rllm_env_t) (c : rllm_call) :
    rllm_session config env -> rllm_apply c env = Some env' ->
    rllm_session config env'
| rllm_session_fork (env env' : rllm_env_t) (source ctx : option ptr) :
    rllm_session config env -> rllm_fork env source = Some (ctx, env') ->
    rllm_session config env'
| rllm_session_create_peer (env env' : rllm_env_t) (peer ctx : option ptr)
    (cfg : rllm_ctx_config_t) :
    rllm_session config env -> rllm_create_peer env peer cfg = Some (ctx, env') ->
    rllm_session config env'.

End RecursiveLlmMore.

(** * Notions used in the statements *)

Local Close Scope Z_scope.

Section StoreRelations.
Context {A B : Type} (R : A -> B -> Prop).


End StoreRelations.

Section EditorNotions.
Context `{llama_api}.
Implicit Types (ctx : te_context_t) (h : list te_edit_op_t) (c : te_call).

(** The history after one more node: what [te_record_edit] leaves. *)
Definition enforce_limit (limit : nat) h : list te_edit_op_t :=
  if limit =? 0 then h else drop (length h - limit) h.



(** The part of the editor the edit log lives in. *)
Definition log ctx : list te_edit_op_t * list te_edit_op_t * nat * bool :=
  (history ctx, redo_stack ctx, history_limit ctx, suppress_history ctx).

(** A mutator call that asks for a change: the calls on which the C code
    reaches [te_record_edit]. *)
Definition effective c ctx : bool :=
  match c with
  | Call_set_token _ _ _ => true
  | Call_insert_tokens _ _ toks => negb (length toks =? 0)
  | Call_delete_tokens range | Call_replace_tokens range _ =>
      (clamp_start (r_start range) <? clamp_end (n_tokens ctx) (r_end range))%Z
  | Call_clear _ => 0 <? n_tokens ctx
  | _ => false
  end.

(** The node a mutator call hands to [te_record_edit]. *)
Definition edit_op_of c ctx : te_edit_op_t :=
  match c with
  | Call_set_token pos seq_id _ =>
      let r := mk_range pos (pos + 1)%Z seq_id in
      mk_op TE_OP_REPLACE r r [default 0%Z (tokens ctx !! Z.to_nat pos)]
  | Call_insert_tokens pos seq_id toks =>
      let r := mk_range pos (to_int32 (pos + Z.of_nat (length toks))) seq_id in
      mk_op TE_OP_INSERT r r toks
  | Call_delete_tokens range =>
      let s := clamp_start (r_start range) in
      let e := clamp_end (n_tokens ctx) (r_end range) in
      let r := mk_range s e (r_seq_id range) in
      mk_op TE_OP_DELETE r r (take (Z.to_nat (e - s)) (drop (Z.to_nat s) (tokens ctx)))
  | Call_replace_tokens range _ =>
      let s := clamp_start (r_start range) in
      let e := clamp_end (n_tokens ctx) (r_end range) in
      let r := mk_range s e (r_seq_id range) in
      mk_op TE_OP_REPLACE r r (take (Z.to_nat (e - s)) (drop (Z.to_nat s) (tokens ctx)))
  | Call_clear seq_id =>
      let r := mk_range 0%Z (to_int32 (Z.of_nat (n_tokens ctx))) seq_id in
      mk_op TE_OP_DELETE r r (tokens ctx)
  | _ => mk_op TE_OP_SWAP (mk_range 0%Z 0%Z 0%Z) (mk_range 0%Z 0%Z 0%Z) []
  end.

Definition record_op ctx (op : te_edit_op_t) : te_context_t :=
  te_record_edit ctx (op_type op) (op_source op) (op_dest op) (op_tokens op).

Definition is_ok (e : te_error_t) : bool :=
  match e with TE_OK => true | _ => false end.

(** An editor as [te_init] and the operations keep it: the backing store
    exists and the two arrays have [n_tokens] cells each. *)
Definition wf ctx : Prop :=
  0 < capacity ctx /\ length (token_info ctx) = length (tokens ctx).



(** A run of mutator calls each of which returned TE_OK and recorded a
    node; the list holds the recorded nodes, oldest first. *)
Inductive recorded_run : te_context_t -> list te_edit_op_t -> te_context_t -> Prop :=
| recorded_run_nil ctx : recorded_run ctx [] ctx
| recorded_run_cons ctx c ctx1 ops ctx' :
    is_mutator c = true -> effective c ctx = true ->
    te_apply c ctx = Some (TE_OK, ctx1) ->
    recorded_run ctx1 ops ctx' ->
    recorded_run ctx (edit_op_of c ctx :: ops) ctx'.

End EditorNotions.

(** The value of a byte string read as a little-endian number. *)
Definition le_value (bs : list Z) : Z := foldr (fun b acc => (b + 256 * acc)%Z) 0%Z bs.

Definition is_byte (b : Z) : Prop := (0 <= b < 256)%Z.

(** A value of type [int32_t]. *)
Definition is_int32 (t : Z) : Prop := (-2147483648 <= t <= INT32_MAX)%Z.

Section EnvironmentNotions.
Context `{llama_api}.
Implicit Types (env : rllm_env_t).

(** The depth of a context object is 0 or below [max_depth]. *)
Definition depth_ok (md : Z) (c : rllm_context_t) : Prop :=
  (rc_depth c = 0 \/ 0 <= rc_depth c < md)%Z.

Definition depths_ok env : Prop :=
  map_Forall (fun _ c => depth_ok (max_depth (env_config env)) c) (env_heap env).

End EnvironmentNotions.

Section OutcomeNotions.
Context `{llama_api}.


End OutcomeNotions.

Section SessionNotions.
Context `{llama_api}.
Implicit Types (ctx : te_context_t).

(** The buffer fits its allocation, the allocation is never smaller than
    the initial one, and both arrays have [n_tokens] cells. *)
Definition buf_ok ctx : Prop :=
  TE_DEFAULT_CAPACITY <= capacity ctx /\ n_tokens ctx <= capacity ctx
  /\ length (token_info ctx) = n_tokens ctx.




End SessionNotions.

(** The calls of [te_call] other than [te_import_binary]. *)
Definition is_edit_call (c : te_call) : bool :=
  match c with
  | Call_import_binary _ _ _ => false
  | _ => true
  end.

(** The ids of a registry are distinct, non-negative [int32_t] values and
    fit the array. *)
Definition sequences_ok (seqs : list te_seq_id_t) : Prop :=
  NoDup seqs /\ Forall (fun a => (0 <= a <= INT32_MAX)%Z) seqs
  /\ length seqs <= TE_MAX_SEQUENCES.

(** The number of messages waiting in a mailbox. *)
Definition queue_count (mb : rllm_mailbox_t) : nat :=
  if queue_head mb <=? queue_tail mb then queue_tail mb - queue_head mb
  else queue_tail mb + queue_capacity mb - queue_head mb.

(** The messages waiting in a mailbox, the oldest first. *)
Definition pending (mb : rllm_mailbox_t) : list rllm_message_t :=
  (fun k => default zero_message
              (message_queue mb !! ((queue_head mb + k) mod queue_capacity mb)))
    <$> seq 0 (queue_count mb).

(** Head and tail index cells of the queue. *)
Definition mailbox_ok (mb : rllm_mailbox_t) : Prop :=
  queue_head mb < queue_capacity mb /\ queue_tail mb < queue_capacity mb.

(** [data_size] is the size of the data buffer. *)
Definition message_ok (msg : rllm_message_t) : Prop :=
  match msg_data msg with
  | Some d => msg_data_size msg = length d
  | None => True
  end.

Section PoolNotions.
Context `{llama_api}.

(** One call leaves the configuration alone and adds at most one context
    to the pool, and that only while the pool has room. *)
Definition pool_step (env env' : rllm_env_t) : Prop :=
  env_config env' = env_config env
  /\ (n_contexts env' <= n_contexts env
      \/ (n_contexts env' = n_contexts env + 1
          /\ (Z.of_nat (n_contexts env) < max_contexts (env_config env))%Z)).

End PoolNotions.

(** * Concrete editors and environments *)

Local Open Scope Z_scope.

(** A stub adapter: a context is the list of the tokens in its cache;
    decoding appends the batch and succeeds; token 1 is BOS, token 2 ends
    generation; no token is special. *)
Definition stub_api : llama_api := {|
  llama_context := list Z;
  llama_token_is_eog := fun t => t =? 2;
  llama_token_bos := 1;
  llama_token_get_attr := fun _ => 0;
  LLAMA_TOKEN_ATTR_CONTROL := 8;
  LLAMA_TOKEN_ATTR_SPECIAL := 16;
  llama_kv_cache_clear := fun _ => [];
  llama_decode := fun lctx batch => (0, lctx ++ (b_token <$> batch));
  llama_copy_state_data := fun lctx => lctx;
  llama_set_state_data := fun _ state => state;
  llama_new_context_with_model := fun _ => Some []
|}.

(** A fresh editor. *)
Definition stub_editor : @te_context_t stub_api := @te_init stub_api [].

(** The editor a call leaves. *)
Definition te_after (r : @te_result stub_api) : @te_context_t stub_api :=
  match r with
  | Some (_, ctx) => ctx
  | None => stub_editor
  end.

(** [insert(0, [0, 1, 2])] on a fresh editor. *)
Definition editor_abc : @te_context_t stub_api :=
  te_after (te_insert_tokens stub_editor 0 0 [0; 1; 2]).

(** [set_token(1, 9)] after that. *)
Definition editor_set : @te_context_t stub_api :=
  te_after (te_set_token editor_abc 1 0 9).

(** [replace([0, 1), [7, 8])] instead. *)
Definition editor_replaced : @te_context_t stub_api :=
  te_after (te_replace_tokens editor_abc (mk_range 0 1 0) [7; 8]).

(** [insert(0, [9])] instead. *)
Definition editor_shifted : @te_context_t stub_api :=
  te_after (te_insert_tokens editor_abc 0 0 [9]).



(** [insert(0, [5])] on a fresh editor (scenario 7 of the specification). *)
Definition editor_five : @te_context_t stub_api :=
  te_after (te_insert_tokens stub_editor 0 0 [5]).

(** A history limit of two and three inserts. *)
Definition editor_limit2 : @te_context_t stub_api := te_set_history_limit stub_editor 2.

Definition editor_limit2_a : @te_context_t stub_api :=
  te_after (te_insert_tokens editor_limit2 0 0 [1]).

Definition editor_limit2_b : @te_context_t stub_api :=
  te_after (te_insert_tokens editor_limit2_a 1 0 [2]).

Definition editor_limit2_c : @te_context_t stub_api :=
  te_after (te_insert_tokens editor_limit2_b 2 0 [3]).

Definition env_after (r : option (option ptr * @rllm_env_t stub_api))
  : @rllm_env_t stub_api :=
  match r with
  | Some (_, env) => env
  | None => @rllm_init stub_api (mk_env_config 0 0 0 0 0 0 false false)
  end.

Definition stub_config (mode : rllm_share_mode_t) : rllm_ctx_config_t :=
  mk_ctx_config 2048 512 4 mode false false.

(** An environment with [max_depth = 3] and the three callbacks
    installed; contexts get the addresses 0, 1, 2 in order. *)
Definition env_empty : @rllm_env_t stub_api :=
  install_callbacks true true true
    (rllm_init (mk_env_config 3 RLLM_MAX_CONTEXTS 2048 512 4 0 false true)).

(** root (0) *)
Definition env_root : @rllm_env_t stub_api :=
  env_after (rllm_create_root env_empty (stub_config RLLM_SHARE_NONE)).

(** root (0) -> child (1) *)
Definition env_child : @rllm_env_t stub_api :=
  env_after (rllm_spawn_child env_root (Some 0%nat) (stub_config RLLM_SHARE_NONE)).

(** root (0) -> child (1) -> grandchild (2) *)
Definition env_grandchild : @rllm_env_t stub_api :=
  env_after (rllm_spawn_child env_child (Some 1%nat) (stub_config RLLM_SHARE_NONE)).

(** The client edits the editor of a context through the pointer
    [rllm_get_token_editor] returns. *)
Definition with_token_editor (f : @te_context_t stub_api -> @te_result stub_api)
  (ctx : ptr) (env : @rllm_env_t stub_api) : @rllm_env_t stub_api :=
  match env_heap env !! ctx with
  | Some c =>
      match rc_token_editor c with
      | Some te => set_env_heap (<[ctx := set_rc_token_editor (Some (te_after (f te))) c]>
                                   (env_heap env)) env
      | None => env
      end
  | None => env
  end.

(** A root whose editor holds [1, 2], decoded into its cache. *)
Definition env_prompted : @rllm_env_t stub_api :=
  with_token_editor te_sync_kv_cache 0%nat
    (with_token_editor (fun te => te_insert_tokens te 0 0 [1; 2]) 0%nat env_root).

(** The editor of a context. *)
Definition editor_of (env : @rllm_env_t stub_api) (ctx : ptr)
  : option (@te_context_t stub_api) :=
  c ← env_heap env !! ctx; rc_token_editor c.

(** The buffer and the adapter cache of a context. *)
Definition tokens_of (env : @rllm_env_t stub_api) (ctx : ptr) : option (list Z) :=
  te ← editor_of env ctx; Some (@tokens stub_api te).


(** The sequence calls of the stub adapter leave its token list as it
    is. *)
Definition stub_seq_api : @llama_seq_api stub_api := {|
  llama_kv_cache_seq_rm := fun lctx _ _ _ => lctx;
  llama_kv_cache_seq_cp := fun lctx _ _ _ _ => lctx
|}.



(** The client sets the [readonly] field of the editor [9, 0, 1, 2]. *)
Definition editor_readonly : @te_context_t stub_api := set_readonly true editor_shifted.

(** [1, 2, 1] in a fresh editor. *)
Definition editor_aba : @te_context_t stub_api :=
  te_after (te_insert_tokens stub_editor 0 0 [1; 2; 1]).

(** The registry after one [te_create_sequence]. *)
Definition sequences_two : te_sequences_t :=
  match te_create_sequence te_init_sequences with
  | Some (_, seqs) => seqs
  | None => te_init_sequences
  end.

(** The mailbox of a new context after one message was sent to it. *)
Definition mailbox_one : rllm_mailbox_t :=
  match rllm_send_text 1 2 rllm_alloc_mailbox [104; 105] 2 with
  | Some (_, mb) => mb
  | None => rllm_alloc_mailbox
  end.

(** root (0) -> child (1), fork (2) of the child *)
Definition env_forked : @rllm_env_t stub_api := env_after (rllm_fork env_child (Some 1%nat)).

(** root (0), peer (1) of the root *)
Definition env_peer : @rllm_env_t stub_api :=
  env_after (rllm_create_peer env_root (Some 0%nat) (stub_config RLLM_SHARE_NONE)).

(** A prompted root (0) and a child (1) spawned from it. *)
Definition env_prompted_child : @rllm_env_t stub_api :=
  env_after (rllm_spawn_child env_prompted (Some 0%nat) (stub_config RLLM_SHARE_NONE)).

Local Close Scope Z_scope.

(** * Properties of the token editor *)

(** One step of a computation in the option monad that has a result. *)
Ltac bind_case H :=
  match type of H with
  | mbind _ ?m = Some _ =>
      let E := fresh "E" in destruct m eqn:E; simpl in H; [|discriminate H]
  end.

Section ArrayLemmas.
Context {A : Type}.
Implicit Types (l new : list A) (a : list (option A)).

Lemma mapM_id_Some l : mapM id (Some <$> l) = Some l.
Proof. by apply mapM_fmap_Some. Qed.

Lemma length_store l C : length (store l C) = max (length l) C.
Proof. unfold store. rewrite length_app, length_fmap, length_replicate. lia. Qed.

Lemma take_store l C n :
  n <= length l -> take n (store l C) = Some <$> take n l.
Proof.
  intros Hn. unfold store. rewrite take_app_le by (rewrite length_fmap; lia).
  by rewrite fmap_take.
Qed.

Lemma drop_store l C n :
  n <= length l -> drop n (store l C) = (Some <$> drop n l) ++ replicate (C - length l) None.
Proof.
  intros Hn. unfold store. rewrite drop_app_le by (rewrite length_fmap; lia).
  by rewrite fmap_drop.
Qed.

Lemma buffer_of_app l a : buffer_of (length l) ((Some <$> l) ++ a) = Some l.
Proof.
  unfold buffer_of. rewrite length_app, length_fmap.
  destruct (Nat.leb_spec (length l) (length l + length a)); [|lia].
  rewrite take_app_length' by (by rewrite length_fmap). apply mapM_id_Some.
Qed.

Lemma buffer_of_app' l a n : n = length l -> buffer_of n ((Some <$> l) ++ a) = Some l.
Proof. intros ->. apply buffer_of_app. Qed.

(** Shifting the tail and copying the new cells, as [te_insert_tokens]
    and [te_replace_tokens] do it, replaces [l[s..e)] by [new]. *)
Lemma splice_store l new C s e (shift : bool) :
  s <= e <= length l ->
  length l - (e - s) + length new <= C ->
  (shift = false -> length new = e - s \/ e = length l) ->
  (a ← (if shift then memmove (store l C) (s + length new) e (length l - e)
        else Some (store l C));
   a ← memcpy a s (Some <$> new);
   buffer_of (length l - (e - s) + length new) a)
  = Some (take s l ++ new ++ drop e l).
Proof.
  intros Hse HC Hshift.
  assert (Hlen := length_store l C).
  destruct shift; simpl.
  - unfold memmove. rewrite Hlen.
    destruct (Nat.leb_spec (s + length new + (length l - e)) (max (length l) C)); [|lia].
    destruct (Nat.leb_spec (e + (length l - e)) (max (length l) C)); [|lia].
    simpl. unfold memcpy.
    rewrite !length_app, !length_take, !length_drop, length_fmap, Hlen.
    destruct (Nat.leb_spec (s + length new)
      (min (s + length new) (max (length l) C)
       + (min (length l - e) (max (length l) C - e)
          + (max (length l) C - (s + length new + (length l - e)))))); [|lia].
    simpl.
    rewrite (take_app_le (take _ _)) by (rewrite length_take, Hlen; lia).
    rewrite take_take, (Nat.min_l s) by lia.
    rewrite (drop_app_length' (take _ _)) by (rewrite length_take, Hlen; lia).
    rewrite take_store by lia.
    rewrite drop_store by lia.
    rewrite take_app_length' by (rewrite length_fmap, length_drop; lia).
    rewrite !app_assoc. rewrite <- !fmap_app.
    apply buffer_of_app'.
    rewrite !length_app, length_take, length_drop. lia.
  - unfold memcpy. rewrite Hlen, length_fmap.
    destruct (Nat.leb_spec (s + length new) (max (length l) C)); [|lia].
    simpl. rewrite take_store by lia.
    destruct (Hshift eq_refl) as [Hk | He].
    + rewrite Hk. replace (s + (e - s)) with e by lia.
      rewrite drop_store by lia.
      rewrite !app_assoc. rewrite <- !fmap_app.
      apply buffer_of_app'.
      rewrite !length_app, length_take, length_drop. lia.
    + subst e. rewrite drop_all, app_nil_r.
      rewrite app_assoc, <- fmap_app.
      apply buffer_of_app'.
      rewrite !length_app, length_take. lia.
Qed.

End ArrayLemmas.

Section ParallelArrays.
Context {A B : Type} (R : A -> B -> Prop).






End ParallelArrays.

Section EditorBasics.
Context `{llama_api}.
Implicit Types (ctx : te_context_t) (h : list te_edit_op_t).

(** *** Capacity *)

Lemma grow_capacity_Some fuel c required :
  0 < c -> required <= c + fuel -> is_Some (grow_capacity fuel c required).
Proof.
  revert c. induction fuel as [|fuel IH]; intros c Hc Hr; simpl.
  - destruct (Nat.ltb_spec c required); [lia|eauto].
  - destruct (Nat.ltb_spec c required); [|eauto]. apply IH; lia.
Qed.

Lemma grow_capacity_inv fuel c required c' :
  grow_capacity fuel c required = Some c' -> required <= c' /\ c <= c'.
Proof.
  revert c. induction fuel as [|fuel IH]; intros c; simpl.
  - destruct (Nat.ltb_spec c required); [done|]. intros [= <-]. lia.
  - destruct (Nat.ltb_spec c required).
    + intros Hg. apply IH in Hg. lia.
    + intros [= <-]. lia.
Qed.

Lemma te_ensure_capacity_inv ctx required e ctx' :
  te_ensure_capacity ctx required = Some (e, ctx') ->
  e = TE_OK /\ exists c', ctx' = set_capacity c' ctx /\ required <= c' /\ capacity ctx <= c'.
Proof.
  unfold te_ensure_capacity.
  destruct (Nat.leb_spec required (capacity ctx)).
  - intros [= <- <-]. split; [done|]. exists (capacity ctx). by destruct ctx.
  - destruct (grow_capacity _ _ _) as [c'|] eqn:Hg; simpl; [|done].
    intros [= <- <-]. apply grow_capacity_inv in Hg.
    split; [done|]. exists c'. split; [done|]. lia.
Qed.

Lemma te_ensure_capacity_Some ctx required :
  0 < capacity ctx -> is_Some (te_ensure_capacity ctx required).
Proof.
  intros Hc. unfold te_ensure_capacity.
  destruct (_ <=? _); [eauto|].
  destruct (grow_capacity_Some required (capacity ctx * 2) required) as [c' ->]; [lia..|].
  simpl. eauto.
Qed.

(** *** The edit log *)

Lemma trim_history_drop h limit :
  trim_history (length h) limit h = drop (length h - limit) h.
Proof.
  induction h as [|op h IH]; [done|]. simpl length. cbn [trim_history].
  destruct (Nat.ltb_spec limit (S (length h))).
  - replace (S (length h) - 1) with (length h) by lia. rewrite IH.
    replace (S (length h) - limit) with (S (length h - limit)) by lia. done.
  - replace (S (length h) - limit) with 0 by lia. done.
Qed.

Lemma te_record_edit_history ctx type source dest toks :
  suppress_history ctx = false ->
  history (te_record_edit ctx type source dest toks)
  = enforce_limit (history_limit ctx) (history ctx ++ [mk_op type source dest toks])
  /\ redo_stack (te_record_edit ctx type source dest toks) = [].
Proof.
  intros Hs. unfold te_record_edit, enforce_limit. rewrite Hs. simpl.
  destruct (history_limit ctx) as [|limit]; simpl; [done|].
  by rewrite trim_history_drop.
Qed.

Lemma te_record_edit_suppressed ctx type source dest toks :
  suppress_history ctx = true -> te_record_edit ctx type source dest toks = ctx.
Proof. intros Hs. unfold te_record_edit. by rewrite Hs. Qed.

Lemma te_record_edit_frame ctx type source dest toks :
  let ctx' := te_record_edit ctx type source dest toks in
  tokens ctx' = tokens ctx /\ token_info ctx' = token_info ctx
  /\ capacity ctx' = capacity ctx /\ history_limit ctx' = history_limit ctx
  /\ readonly ctx' = readonly ctx /\ suppress_history ctx' = suppress_history ctx
  /\ kv_cache_dirty ctx' = kv_cache_dirty ctx /\ logits_valid ctx' = logits_valid ctx
  /\ llama_ctx ctx' = llama_ctx ctx.
Proof.
  unfold te_record_edit.
  destruct (suppress_history ctx) eqn:Hs; [done|].
  simpl. destruct (0 <? _); simpl; rewrite ?Hs; done.
Qed.

Lemma history_pop_snoc h op : history_pop (h ++ [op]) = Some (h, op).
Proof.
  induction h as [|x h IH]; [done|]. simpl. by rewrite IH.
Qed.

Lemma history_pop_nil_inv h : history_pop h = None -> h = [].
Proof. destruct h as [|x h]; [done|]. simpl. by destruct (history_pop h) as [[]|]. Qed.

Lemma history_pop_Some h prev op : history_pop h = Some (prev, op) -> h = prev ++ [op].
Proof.
  revert prev. induction h as [|x h IH]; intros prev; [done|]. simpl.
  destruct (history_pop h) as [[p l]|] eqn:Hp.
  - intros [= <- <-]. by rewrite (IH p eq_refl).
  - intros [= <- <-]. by rewrite (history_pop_nil_inv _ Hp).
Qed.

End EditorBasics.

Section EditorInvariant.
Context `{llama_api}.
Implicit Types (ctx : te_context_t) (h : list te_edit_op_t).















End EditorInvariant.

Section EditLog.
Context `{llama_api}.
Implicit Types (ctx : te_context_t) (h : list te_edit_op_t) (c : te_call).

Lemma log_record_edit ctx1 ctx2 type source dest toks :
  log ctx1 = log ctx2 ->
  log (te_record_edit ctx1 type source dest toks)
  = log (te_record_edit ctx2 type source dest toks).
Proof.
  unfold log, te_record_edit. intros [= H1 H2 H3 H4]. rewrite H4.
  destruct (suppress_history ctx2) eqn:Hs2; [congruence|].
  simpl. rewrite H1, H3. destruct (0 <? _); simpl; congruence.
Qed.

Lemma te_set_token_log ctx pos seq_id token e ctx' :
  let c := Call_set_token pos seq_id token in
  te_apply c ctx = Some (e, ctx') ->
  log ctx' = log (if is_ok e && effective c ctx then record_op ctx (edit_op_of c ctx) else ctx).
Proof.
  simpl. unfold te_set_token.
  destruct (readonly ctx); [by intros [= <- <-]|].
  destruct (_ || _); [by intros [= <- <-]|].
  intros Hr. bind_case Hr. bind_case Hr. injection Hr as <- <-.
  simpl. unfold te_token_t in *. rewrite E. done.
Qed.

Lemma te_insert_tokens_log ctx pos seq_id toks e ctx' :
  let c := Call_insert_tokens pos seq_id toks in
  te_apply c ctx = Some (e, ctx') ->
  log ctx' = log (if is_ok e && effective c ctx then record_op ctx (edit_op_of c ctx) else ctx).
Proof.
  simpl. unfold te_insert_tokens.
  destruct (readonly ctx); [by intros [= <- <-]|].
  destruct (_ || _); [by intros [= <- <-]|].
  destruct (_ =? _); [by intros [= <- <-]|].
  intros Hr. bind_case Hr. destruct p as [err c1].
  apply te_ensure_capacity_inv in E as (-> & c' & -> & _).
  simpl in Hr.
  bind_case Hr. bind_case Hr. bind_case Hr. bind_case Hr. bind_case Hr. bind_case Hr.
  injection Hr as <- <-. simpl.
  by apply log_record_edit.
Qed.

Lemma te_delete_tokens_log ctx range e ctx' :
  let c := Call_delete_tokens range in
  te_apply c ctx = Some (e, ctx') ->
  log ctx' = log (if is_ok e && effective c ctx then record_op ctx (edit_op_of c ctx) else ctx).
Proof.
  simpl. unfold te_delete_tokens.
  destruct (readonly ctx); [by intros [= <- <-]|].
  destruct (Z.leb_spec (clamp_end (n_tokens ctx) (r_end range)) (clamp_start (r_start range))).
  - intros [= <- <-]. simpl. destruct (Z.ltb_spec (clamp_start (r_start range))
      (clamp_end (n_tokens ctx) (r_end range))); [lia|done].
  - intros Hr. bind_case Hr. bind_case Hr. injection Hr as <- <-. simpl.
    destruct (Z.ltb_spec (clamp_start (r_start range))
      (clamp_end (n_tokens ctx) (r_end range))); [done|lia].
Qed.

Lemma te_replace_tokens_log ctx range toks e ctx' :
  let c := Call_replace_tokens range toks in
  te_apply c ctx = Some (e, ctx') ->
  log ctx' = log (if is_ok e && effective c ctx then record_op ctx (edit_op_of c ctx) else ctx).
Proof.
  simpl. unfold te_replace_tokens.
  destruct (readonly ctx); [by intros [= <- <-]|].
  intros Hr. bind_case Hr. destruct p as [err c1].
  apply te_ensure_capacity_inv in E as (-> & c' & -> & _).
  simpl in Hr.
  bind_case Hr. bind_case Hr. bind_case Hr. bind_case Hr. bind_case Hr. bind_case Hr.
  injection Hr as <- <-. simpl.
  destruct (Z.ltb_spec (clamp_start (r_start range))
      (clamp_end (n_tokens ctx) (r_end range))) as [Hlt|Hge]; simpl; [|done].
  destruct (Nat.ltb_spec 0 (Z.to_nat (clamp_end (n_tokens ctx) (r_end range)
                                      - clamp_start (r_start range)))); [|lia].
  by apply log_record_edit.
Qed.

Lemma te_clear_log ctx seq_id e ctx' :
  let c := Call_clear seq_id in
  te_apply c ctx = Some (e, ctx') ->
  log ctx' = log (if is_ok e && effective c ctx then record_op ctx (edit_op_of c ctx) else ctx).
Proof.
  simpl. unfold te_clear.
  destruct (readonly ctx); [by intros [= <- <-]|].
  intros [= <- <-]. simpl. by destruct (0 <? n_tokens ctx).
Qed.

(** Every mutator leaves the log as it was, or as [te_record_edit] makes
    it for the node of the call. *)
Lemma te_apply_log c ctx e ctx' :
  is_mutator c = true -> te_apply c ctx = Some (e, ctx') ->
  log ctx' = log (if is_ok e && effective c ctx then record_op ctx (edit_op_of c ctx) else ctx).
Proof.
  destruct c; try done; intros _.
  - apply te_set_token_log.
  - apply te_insert_tokens_log.
  - apply te_delete_tokens_log.
  - apply te_replace_tokens_log.
  - apply te_clear_log.
Qed.

Lemma log_record_op ctx op :
  suppress_history ctx = false ->
  log (record_op ctx op)
  = (enforce_limit (history_limit ctx) (history ctx ++ [op]), [], history_limit ctx, false).
Proof.
  intros Hs. unfold log, record_op.
  destruct (te_record_edit_history ctx (op_type op) (op_source op) (op_dest op)
              (op_tokens op) Hs) as [-> ->].
  destruct (te_record_edit_frame ctx (op_type op) (op_source op) (op_dest op)
              (op_tokens op)) as (_ & _ & _ & -> & _ & -> & _).
  rewrite Hs. by destruct op.
Qed.

Lemma log_record_op_suppressed ctx op :
  suppress_history ctx = true -> record_op ctx op = ctx.
Proof. apply te_record_edit_suppressed. Qed.

(** While recording is suppressed a mutator leaves the log alone. *)
Lemma te_apply_log_suppressed c ctx e ctx' :
  is_mutator c = true -> suppress_history ctx = true ->
  te_apply c ctx = Some (e, ctx') -> log ctx' = log ctx.
Proof.
  intros Hm Hs Hr. rewrite (te_apply_log _ _ _ _ Hm Hr).
  destruct (_ && _); [|done]. by rewrite log_record_op_suppressed.
Qed.



End EditLog.

Section StoreCorollaries.
Context {A : Type}.
Implicit Types (l new : list A).

Lemma memcpy_nil (a : list A) s : s <= length a -> memcpy a s [] = Some a.
Proof.
  intros Hs. unfold memcpy. simpl.
  destruct (Nat.leb_spec (s + 0) (length a)); [|lia].
  by rewrite Nat.add_0_r, take_drop.
Qed.

(** The three steps of [splice_store], one by one. *)
Lemma splice_store_steps l new C s e (shift : bool) :
  s <= e <= length l ->
  length l - (e - s) + length new <= C ->
  (shift = false -> length new = e - s \/ e = length l) ->
  exists a1 a2,
    (if shift then memmove (store l C) (s + length new) e (length l - e)
     else Some (store l C)) = Some a1
    /\ (if 0 <? length new then memcpy a1 s (Some <$> new) else Some a1) = Some a2
    /\ buffer_of (length l - (e - s) + length new) a2 = Some (take s l ++ new ++ drop e l).
Proof.
  intros Hse HC Hshift.
  assert (Hsp := splice_store l new C s e shift Hse HC Hshift).
  destruct (if shift then _ else _) as [a1|] eqn:E1; [|done]. simpl in Hsp.
  destruct (memcpy a1 s (Some <$> new)) as [a2|] eqn:E2; [|done]. simpl in Hsp.
  exists a1, a2. split; [done|]. split; [|done].
  destruct (Nat.ltb_spec 0 (length new)) as [|Hz]; [done|].
  destruct new; [|simpl in Hz; lia].
  unfold memcpy in E2. destruct (_ <=? _) eqn:Hle; [|done].
  apply Nat.leb_le in Hle. simpl in Hle.
  rewrite <- E2. simpl. f_equal. by rewrite Nat.add_0_r, take_drop.
Qed.

(** Moving the tail left and dropping the last cells, as
    [te_delete_tokens] does it, removes [l[s..e)]. *)
Lemma delete_array l s e (shift : bool) :
  s <= e <= length l -> (shift = false -> e = length l) ->
  exists a, (if shift then memmove l s e (length l - e) else Some l) = Some a
            /\ take (length l - (e - s)) a = take s l ++ drop e l.
Proof.
  intros Hse Hshift. destruct shift.
  - unfold memmove.
    destruct (Nat.leb_spec (s + (length l - e)) (length l)); [|lia].
    destruct (Nat.leb_spec (e + (length l - e)) (length l)); [|lia].
    simpl. eexists. split; [done|].
    rewrite (take_ge (drop e l)) by (rewrite length_drop; lia).
    rewrite app_assoc, take_app_length'; [done|].
    rewrite length_app, length_take, length_drop. lia.
  - rewrite (Hshift eq_refl). eexists. split; [done|].
    rewrite drop_all, app_nil_r. f_equal. lia.
Qed.

End StoreCorollaries.

Section EditorSpecs.
Context `{llama_api}.
Implicit Types (ctx : te_context_t) (h : list te_edit_op_t).

Lemma clamp_start_nonneg x : (0 <= clamp_start x)%Z.
Proof. unfold clamp_start. destruct (Z.ltb_spec x 0); lia. Qed.

Lemma to_int32_le x : (0 <= x)%Z -> (to_int32 x <= x)%Z.
Proof.
  intros Hx. unfold to_int32, UINT32_MOD.
  assert (0 <= (x + 2147483648) mod 4294967296 <= x + 2147483648)%Z; [|lia].
  split; [apply Z.mod_pos_bound; lia|apply Z.mod_le; lia].
Qed.

Lemma to_int32_small x : (- 2147483648 <= x <= INT32_MAX)%Z -> to_int32 x = x.
Proof.
  unfold INT32_MAX. intros Hx. unfold to_int32, UINT32_MOD.
  rewrite Z.mod_small; lia.
Qed.

Lemma clamp_end_le n x : (clamp_end n x <= Z.of_nat n)%Z.
Proof.
  unfold clamp_end, size_t_gt.
  destruct (Z.ltb_spec x 0); simpl; [apply to_int32_le; lia|].
  destruct (Z.ltb_spec (Z.of_nat n) x); [apply to_int32_le; lia|lia].
Qed.

Lemma clamp_end_small n x :
  (0 <= x <= Z.of_nat n)%Z -> clamp_end n x = x.
Proof.
  intros Hx. unfold clamp_end, size_t_gt.
  destruct (Z.ltb_spec x 0); [lia|]. destruct (Z.ltb_spec (Z.of_nat n) x); [lia|done].
Qed.

Lemma clamp_end_big n x :
  (Z.of_nat n <= INT32_MAX)%Z -> (Z.of_nat n <= x)%Z -> clamp_end n x = Z.of_nat n.
Proof.
  intros Hn Hx. unfold clamp_end, size_t_gt.
  destruct (Z.ltb_spec x 0); [lia|]. simpl.
  destruct (Z.ltb_spec (Z.of_nat n) x); [apply to_int32_small; lia|lia].
Qed.

Lemma clamp_start_small x : (0 <= x)%Z -> clamp_start x = x.
Proof. intros Hx. unfold clamp_start. destruct (Z.ltb_spec x 0); lia. Qed.

Lemma length_new_info start seq_id toks : length (new_info start seq_id toks) = length toks.
Proof. unfold new_info. apply length_imap. Qed.

(** [te_insert_tokens] at a valid position with a non-empty payload. *)
Lemma te_insert_tokens_spec ctx pos seq_id toks :
  wf ctx -> readonly ctx = false -> (0 <= pos <= Z.of_nat (n_tokens ctx))%Z ->
  toks <> [] ->
  exists c',
    capacity ctx <= c' /\ n_tokens ctx + length toks <= c' /\
    te_insert_tokens ctx pos seq_id toks
    = Some (TE_OK,
            te_record_edit
              (mark_dirty
                 (set_buffer
                    (take (Z.to_nat pos) (tokens ctx) ++ toks
                       ++ drop (Z.to_nat pos) (tokens ctx))
                    (take (Z.to_nat pos) (token_info ctx) ++ new_info pos seq_id toks
                       ++ drop (Z.to_nat pos) (token_info ctx))
                    (set_capacity c' ctx)))
              TE_OP_INSERT
              (mk_range pos (to_int32 (pos + Z.of_nat (length toks))) seq_id)
              (mk_range pos (to_int32 (pos + Z.of_nat (length toks))) seq_id)
              toks).
Proof.
  intros [Hcap Hlen] Hro Hpos Hne. unfold te_insert_tokens. rewrite Hro.
  unfold size_t_gt.
  destruct (Z.ltb_spec pos 0); [lia|].
  destruct (Z.ltb_spec (Z.of_nat (n_tokens ctx)) pos); [lia|]. simpl.
  destruct (Nat.eqb_spec (length toks) 0) as [Hz|Hnz]; [by destruct toks|].
  destruct (te_ensure_capacity_Some ctx (n_tokens ctx + length toks) Hcap) as [[e c1] Hens].
  rewrite Hens. simpl.
  apply te_ensure_capacity_inv in Hens as (-> & c' & -> & Hreq & Hge).
  exists c'. split; [done|]. split; [done|]. simpl.
  unfold n_tokens in *.
  set (p := Z.to_nat pos) in *.
  assert (p <= length (tokens ctx)) as Hp by lia.
  destruct (splice_store_steps (tokens ctx) toks c' p p (p <? length (tokens ctx)))
    as (a1 & a2 & Ea1 & Ea2 & Ea3); [lia|lia|..].
  { intros Hf. apply Nat.ltb_ge in Hf. right. lia. }
  destruct (splice_store_steps (token_info ctx) (new_info pos seq_id toks) c' p p
              (p <? length (tokens ctx)))
    as (b1 & b2 & Eb1 & Eb2 & Eb3); [lia|rewrite length_new_info; lia|..].
  { intros Hf. apply Nat.ltb_ge in Hf. right. lia. }
  rewrite length_new_info in *. rewrite Hlen in *.
  destruct (Nat.ltb_spec 0 (length toks)) as [_|]; [|lia].
  replace (length (tokens ctx) - (p - p) + length toks)
    with (length (tokens ctx) + length toks) in * by lia.
  simpl. unfold te_token_t in *.
  rewrite Ea1, Eb1. simpl. rewrite Ea2, Eb2. simpl. rewrite Ea3, Eb3. done.
Qed.

(** [te_delete_tokens] on a range that is not empty after clamping. *)
Lemma te_delete_tokens_spec ctx range :
  let s := clamp_start (r_start range) in
  let e := clamp_end (n_tokens ctx) (r_end range) in
  let r := mk_range s e (r_seq_id range) in
  wf ctx -> readonly ctx = false -> (s < e)%Z ->
  te_delete_tokens ctx range
  = Some (TE_OK,
          mark_dirty
            (set_buffer
               (take (Z.to_nat s) (tokens ctx) ++ drop (Z.to_nat e) (tokens ctx))
               (take (Z.to_nat s) (token_info ctx) ++ drop (Z.to_nat e) (token_info ctx))
               (te_record_edit ctx TE_OP_DELETE r r
                  (take (Z.to_nat (e - s)) (drop (Z.to_nat s) (tokens ctx)))))).
Proof.
  intros s e r [Hcap Hlen] Hro Hse. unfold te_delete_tokens. rewrite Hro.
  fold s e. destruct (Z.leb_spec e s); [lia|].
  assert (Hs := clamp_start_nonneg (r_start range)). fold s in Hs.
  assert (He := clamp_end_le (n_tokens ctx) (r_end range)). fold e in He.
  fold r.
  match goal with |- context [te_record_edit ?c ?t ?x ?d ?k] =>
    destruct (te_record_edit_frame c t x d k) as (Ht & Hi & _);
    set (ctx1 := te_record_edit c t x d k) in * end.
  rewrite Ht, Hi. unfold n_tokens in *.
  destruct (delete_array (tokens ctx) (Z.to_nat s) (Z.to_nat e)
              (size_t_lt e (length (tokens ctx)))) as (a & Ea & Ha); [lia|..].
  { unfold size_t_lt. intros Hf. apply andb_false_iff in Hf as [Hf|Hf].
    - apply Z.leb_gt in Hf. lia.
    - apply Z.ltb_ge in Hf. lia. }
  destruct (delete_array (token_info ctx) (Z.to_nat s) (Z.to_nat e)
              (size_t_lt e (length (tokens ctx)))) as (b & Eb & Hb); [lia|..].
  { unfold size_t_lt. intros Hf. apply andb_false_iff in Hf as [Hf|Hf].
    - apply Z.leb_gt in Hf. lia.
    - apply Z.ltb_ge in Hf. lia. }
  rewrite Hlen in *.
  unfold te_token_t in *. rewrite Ea, Eb. simpl.
  replace (Z.to_nat (e - s)) with (Z.to_nat e - Z.to_nat s) by lia.
  rewrite Ha, Hb. done.
Qed.



End EditorSpecs.

Section UndoRedo.
Context `{llama_api}.
Implicit Types (ctx : te_context_t) (h : list te_edit_op_t).

(** The history [te_record_edit] leaves ends with the new node. *)
Lemma enforce_limit_snoc limit h op :
  exists prev, enforce_limit limit (h ++ [op]) = prev ++ [op].
Proof.
  unfold enforce_limit. destruct (Nat.eqb_spec limit 0); [by exists h|].
  exists (drop (length h + 1 - limit) h).
  rewrite length_app. simpl. rewrite drop_app_le by lia. done.
Qed.

(** What a caller sees of a successful [te_insert_tokens]. *)
Lemma te_insert_tokens_ok ctx pos seq_id toks :
  wf ctx -> readonly ctx = false -> (0 <= pos <= Z.of_nat (n_tokens ctx))%Z ->
  toks <> [] ->
  exists ctx',
    te_insert_tokens ctx pos seq_id toks = Some (TE_OK, ctx')
    /\ tokens ctx' = take (Z.to_nat pos) (tokens ctx) ++ toks
                       ++ drop (Z.to_nat pos) (tokens ctx)
    /\ token_info ctx' = take (Z.to_nat pos) (token_info ctx) ++ new_info pos seq_id toks
                           ++ drop (Z.to_nat pos) (token_info ctx)
    /\ wf ctx' /\ readonly ctx' = false.
Proof.
  intros Hwf Hro Hpos Hne.
  destruct (te_insert_tokens_spec ctx pos seq_id toks Hwf Hro Hpos Hne)
    as (c' & Hc & Hreq & ->).
  eexists. split; [done|].
  match goal with |- context [te_record_edit ?c ?t ?x ?d ?k] =>
    destruct (te_record_edit_frame c t x d k) as (Ht & Hi & Hcap & _ & Hr & _) end.
  unfold wf. rewrite Ht, Hi, Hcap, Hr. simpl.
  destruct Hwf as [Hcap0 Hlen].
  repeat split; [lia| |done].
  rewrite !length_app, !length_take, !length_drop, length_new_info. lia.
Qed.

Lemma te_delete_tokens_ok ctx range :
  let s := clamp_start (r_start range) in
  let e := clamp_end (n_tokens ctx) (r_end range) in
  wf ctx -> readonly ctx = false -> (s < e)%Z ->
  exists ctx',
    te_delete_tokens ctx range = Some (TE_OK, ctx')
    /\ tokens ctx' = take (Z.to_nat s) (tokens ctx) ++ drop (Z.to_nat e) (tokens ctx)
    /\ token_info ctx' = take (Z.to_nat s) (token_info ctx)
                           ++ drop (Z.to_nat e) (token_info ctx)
    /\ wf ctx' /\ readonly ctx' = false.
Proof.
  intros s e Hwf Hro Hse.
  rewrite (te_delete_tokens_spec ctx range Hwf Hro Hse). fold s e.
  eexists. split; [done|].
  match goal with |- context [te_record_edit ?c ?t ?x ?d ?k] =>
    destruct (te_record_edit_frame c t x d k) as (Ht & Hi & Hcap & _ & Hr & _) end.
  unfold wf. simpl. rewrite Hcap, Hr.
  destruct Hwf as [Hcap0 Hlen].
  repeat split; [done| |done].
  rewrite !length_app, !length_take, !length_drop. lia.
Qed.


(** [te_undo] on a non-empty history: the last node is replayed with
    recording suppressed and moved to the redo stack. *)
Lemma te_undo_unfold ctx prev op :
  history ctx = prev ++ [op] ->
  te_undo ctx
  = (let ctx0 := set_suppress_history true (set_history prev ctx) in
     '(_, c) ← match op_type op with
                | TE_OP_INSERT => te_delete_tokens ctx0 (op_source op)
                | TE_OP_DELETE =>
                    te_insert_tokens ctx0 (r_start (op_source op))
                                     (r_seq_id (op_source op)) (op_tokens op)
                | TE_OP_REPLACE => te_replace_tokens ctx0 (op_dest op) (op_tokens op)
                | _ => Some (TE_OK, ctx0)
                end;
     Some (TE_OK, mark_dirty (set_redo_stack (op :: redo_stack c)
                                (set_suppress_history (suppress_history ctx) c)))).
Proof. intros Hh. unfold te_undo. by rewrite Hh, history_pop_snoc. Qed.

Lemma te_redo_unfold ctx op rest :
  redo_stack ctx = op :: rest ->
  te_redo ctx
  = (let ctx0 := set_suppress_history true (set_redo_stack rest ctx) in
     '(_, c) ← match op_type op with
                | TE_OP_INSERT =>
                    te_insert_tokens ctx0 (r_start (op_source op))
                                     (r_seq_id (op_source op)) (op_tokens op)
                | TE_OP_DELETE => te_delete_tokens ctx0 (op_source op)
                | TE_OP_REPLACE => te_replace_tokens ctx0 (op_source op) (op_tokens op)
                | _ => Some (TE_OK, ctx0)
                end;
     Some (TE_OK, mark_dirty (set_history (history c ++ [op])
                                (set_suppress_history (suppress_history ctx) c)))).
Proof. intros Hh. unfold te_redo. by rewrite Hh. Qed.

(** The log after a recorded mutator call. *)
Lemma te_apply_recorded c ctx ctx' :
  is_mutator c = true -> effective c ctx = true -> suppress_history ctx = false ->
  te_apply c ctx = Some (TE_OK, ctx') ->
  history ctx' = enforce_limit (history_limit ctx) (history ctx ++ [edit_op_of c ctx])
  /\ redo_stack ctx' = [] /\ history_limit ctx' = history_limit ctx
  /\ suppress_history ctx' = false.
Proof.
  intros Hm He Hs Hr. apply te_apply_log in Hr; [|done].
  rewrite He in Hr. simpl in Hr. rewrite log_record_op in Hr by done.
  by injection Hr as -> -> -> ->.
Qed.

(** X1. After a successful te_insert_tokens of a non-empty payload (buffer
    within INT32_MAX tokens), te_undo restores the buffer from before the
    insert and a following te_redo yields the buffer from after it. *)
Lemma te_insert_undo_redo ctx pos seq_id toks :
  wf ctx -> readonly ctx = false -> suppress_history ctx = false ->
  (0 <= pos <= Z.of_nat (n_tokens ctx))%Z -> toks <> [] ->
  (Z.of_nat (n_tokens ctx + length toks) <= INT32_MAX)%Z ->
  exists ctx1 ctx2 ctx3,
    te_insert_tokens ctx pos seq_id toks = Some (TE_OK, ctx1)
    /\ te_undo ctx1 = Some (TE_OK, ctx2) /\ tokens ctx2 = tokens ctx
    /\ te_redo ctx2 = Some (TE_OK, ctx3) /\ tokens ctx3 = tokens ctx1.
Proof.
  intros Hwf Hro Hs Hpos Hne Hmax.
  destruct (te_insert_tokens_ok ctx pos seq_id toks Hwf Hro Hpos Hne)
    as (ctx1 & Hins & Ht1 & Hi1 & Hwf1 & Hro1).
  destruct (te_apply_recorded (Call_insert_tokens pos seq_id toks) ctx ctx1)
    as (Hh1 & Hr1 & Hl1 & Hs1); [done| |done|done|].
  { simpl. destruct toks; [done|done]. }
  destruct (enforce_limit_snoc (history_limit ctx) (history ctx)
              (edit_op_of (Call_insert_tokens pos seq_id toks) ctx)) as [prev Hprev].
  rewrite Hprev in Hh1. simpl in Hh1.
  set (op := mk_op TE_OP_INSERT _ _ toks) in Hh1.
  exists ctx1.
  (* undo: delete the inserted range *)
  set (ctx0 := set_suppress_history true (set_history prev ctx1)).
  assert (length (tokens ctx1) = n_tokens ctx + length toks) as Hn1.
  { rewrite Ht1, !length_app, length_take, length_drop. unfold n_tokens. lia. }
  assert (to_int32 (pos + Z.of_nat (length toks)) = (pos + Z.of_nat (length toks))%Z) as He.
  { apply to_int32_small. unfold INT32_MAX in *. lia. }
  assert (clamp_start pos = pos) as Hcs by (apply clamp_start_small; lia).
  assert (clamp_end (n_tokens ctx0) (pos + Z.of_nat (length toks))%Z
          = (pos + Z.of_nat (length toks))%Z) as Hce.
  { apply clamp_end_small. unfold ctx0, n_tokens. simpl. rewrite Hn1. lia. }
  destruct (te_delete_tokens_ok ctx0 (op_source op)) as (c & Hdel & Htc & Hic & Hwfc & Hroc).
  { done. } { done. }
  { simpl. rewrite He, Hcs, Hce. destruct toks; [done|simpl; lia]. }
  simpl in Htc, Hic. rewrite He, Hcs, Hce in Htc, Hic.
  assert (tokens c = tokens ctx) as Htc'.
  { rewrite Htc, Ht1. unfold n_tokens in *.
    rewrite take_app_le, take_take by (rewrite length_take; lia).
    rewrite Nat.min_id.
    replace (Z.to_nat (pos + Z.of_nat (length toks)))
      with (length (take (Z.to_nat pos) (tokens ctx)) + length toks)
      by (rewrite length_take; lia).
    rewrite drop_app_add, drop_app_length. apply take_drop. }
  assert (log c = log ctx0) as Hlogc
    by exact (te_apply_log_suppressed (Call_delete_tokens _) ctx0 _ c eq_refl eq_refl Hdel).
  injection Hlogc as Hhc Hrc Hlc Hsc. simpl in Hhc, Hrc, Hlc, Hsc.
  set (ctx2 := mark_dirty (set_redo_stack (op :: redo_stack c)
                             (set_suppress_history (suppress_history ctx1) c))).
  assert (te_undo ctx1 = Some (TE_OK, ctx2)) as Hundo.
  { rewrite (te_undo_unfold ctx1 prev op Hh1).
    change (op_type op) with TE_OP_INSERT. lazy beta iota zeta. fold ctx0.
    rewrite Hdel. done. }
  (* redo: insert again *)
  assert (redo_stack ctx2 = op :: []) as Hr2 by (unfold ctx2; simpl; by rewrite Hrc, Hr1).
  set (ctx0' := set_suppress_history true (set_redo_stack [] ctx2)).
  destruct (te_insert_tokens_ok ctx0' pos seq_id toks) as (c3 & Hins3 & Ht3 & _).
  { done. } { done. } { unfold ctx0', ctx2, n_tokens. simpl. rewrite Htc'. done. } { done. }
  exists ctx2. eexists.
  split; [done|]. split; [done|]. split; [done|]. split.
  { rewrite (te_redo_unfold ctx2 op [] Hr2).
    change (op_type op) with TE_OP_INSERT. lazy beta iota zeta.
    change (r_start (op_source op)) with pos.
    change (r_seq_id (op_source op)) with seq_id.
    change (op_tokens op) with toks. fold ctx0'.
    rewrite Hins3. done. }
  simpl. rewrite Ht3, Ht1. unfold ctx0', ctx2. simpl. by rewrite Htc'.
Qed.




End UndoRedo.

Section Claims.
Context `{llama_api}.
Implicit Types (ctx : te_context_t) (h : list te_edit_op_t).

(** *** The calls have a defined result *)







(** C10. te_undo on an empty history and te_redo on an empty redo stack
    return TE_OK and leave the editor as it is: token buffer, history and
    redo stack included. *)
Theorem te_undo_redo_nothing_to_do ctx :
  (history ctx = [] -> te_undo ctx = Some (TE_OK, ctx))
  /\ (redo_stack ctx = [] -> te_redo ctx = Some (TE_OK, ctx)).
Proof.
  split; intros Hh.
  - unfold te_undo. by rewrite Hh.
  - unfold te_redo. by rewrite Hh.
Qed.

(** *** The history limit *)

Lemma enforce_limit_twice limit h ops :
  0 < limit ->
  drop (length (enforce_limit limit h ++ ops) - limit) (enforce_limit limit h ++ ops)
  = drop (length (h ++ ops) - limit) (h ++ ops).
Proof.
  intros Hl. unfold enforce_limit.
  destruct (Nat.eqb_spec limit 0); [lia|].
  rewrite !length_app, length_drop.
  destruct (Nat.le_gt_cases (length h) limit) as [Hle|Hgt].
  - replace (length h - limit) with 0 by lia. by rewrite Nat.sub_0_r.
  - rewrite !drop_app, !length_drop, drop_drop.
    f_equal; [f_equal; lia|f_equal; lia].
Qed.

Lemma recorded_run_history ctx ops ctx' :
  recorded_run ctx ops ctx' -> suppress_history ctx = false -> 0 < history_limit ctx ->
  history_limit ctx' = history_limit ctx
  /\ drop (length (history ctx') - history_limit ctx) (history ctx')
     = drop (length (history ctx ++ ops) - history_limit ctx) (history ctx ++ ops)
  /\ (ops <> [] -> length (history ctx') <= history_limit ctx).
Proof.
  induction 1 as [ctx|ctx c ctx1 ops ctx' Hm He Hr Hrun IH]; intros Hs Hl.
  - rewrite app_nil_r. done.
  - destruct (te_apply_recorded c ctx ctx1 Hm He Hs Hr) as (Hh1 & _ & Hl1 & Hs1).
    rewrite Hl1 in IH. destruct (IH Hs1 Hl) as (IHl & IHh & IHlen).
    split; [done|]. split.
    + rewrite IHh, Hh1.
      rewrite enforce_limit_twice by done. by rewrite <- app_assoc.
    + intros _. destruct ops as [|op ops].
      * inversion Hrun; subst. rewrite Hh1. unfold enforce_limit.
        destruct (Nat.eqb_spec (history_limit ctx) 0); [lia|].
        rewrite length_drop, length_app. simpl. lia.
      * by apply IHlen.
Qed.

(** C9. With a positive history limit L, after more than L successfully
    recorded mutator calls the history holds exactly L nodes, and they are
    the nodes of the last L calls, oldest first. *)
Theorem history_limit_keeps_most_recent ctx ops ctx' :
  suppress_history ctx = false -> 0 < history_limit ctx ->
  recorded_run ctx ops ctx' -> history_limit ctx < length ops ->
  length (history ctx') = history_limit ctx
  /\ history ctx' = drop (length ops - history_limit ctx) ops.
Proof.
  intros Hs Hl Hrun HM.
  destruct (recorded_run_history ctx ops ctx' Hrun Hs Hl) as (_ & Hh & Hlen).
  assert (length (history ctx') <= history_limit ctx) as Hle.
  { apply Hlen. destruct ops; [simpl in HM; lia|done]. }
  replace (length (history ctx') - history_limit ctx) with 0 in Hh by lia.
  rewrite drop_0 in Hh. rewrite Hh.
  rewrite length_app. rewrite drop_app_ge by lia.
  rewrite length_drop.
  split; [lia|]. f_equal. lia.
Qed.

End Claims.

(** *** The binary token stream *)

Lemma bytes_of_uint32_le v :
  (0 <= v < UINT32_MOD)%Z -> le_value (bytes_of_uint32 v) = v.
Proof.
  unfold UINT32_MOD, bytes_of_uint32, le_value. simpl. intros Hv.
  Z.to_euclidean_division_equations. lia.
Qed.

Lemma bytes_of_uint32_bytes v : Forall is_byte (bytes_of_uint32 v).
Proof.
  unfold bytes_of_uint32, is_byte.
  repeat constructor; apply Z.mod_pos_bound; lia.
Qed.

Lemma length_bytes_of_int32s (toks : list Z) :
  length (flat_map bytes_of_int32 toks) = 4 * length toks.
Proof. induction toks as [|t toks IH]; [done|]. simpl. lia. Qed.

Lemma bytes_of_int32s_chunk (toks : list Z) j t :
  toks !! j = Some t ->
  take 4 (drop (4 * j) (flat_map bytes_of_int32 toks)) = bytes_of_int32 t.
Proof.
  revert j. induction toks as [|t0 toks IH]; intros j; [done|].
  destruct j as [|j]; simpl.
  - by intros [= ->].
  - intros Ht. replace (j + S (j + S (j + S (j + 0)))) with (3 + 4 * j) by lia.
    simpl. by apply IH.
Qed.

Lemma uint32_of_bytes_of_uint32 v :
  (0 <= v < UINT32_MOD)%Z -> uint32_of_bytes (bytes_of_uint32 v) = v.
Proof.
  unfold UINT32_MOD, bytes_of_uint32, uint32_of_bytes. intros Hv.
  Z.to_euclidean_division_equations. lia.
Qed.

Lemma to_int32_to_uint32 t : is_int32 t -> to_int32 (to_uint32 t) = t.
Proof.
  unfold is_int32, INT32_MAX, to_int32, to_uint32, UINT32_MOD. intros Ht.
  Z.to_euclidean_division_equations. lia.
Qed.

Lemma to_uint32_range v : (0 <= to_uint32 v < UINT32_MOD)%Z.
Proof. unfold to_uint32, UINT32_MOD. apply Z.mod_pos_bound. lia. Qed.

Lemma int32s_of_bytes_flat_map (toks : list Z) rest :
  Forall is_int32 toks ->
  int32s_of_bytes (length toks) (flat_map bytes_of_int32 toks ++ rest) = toks.
Proof.
  induction 1 as [|t toks Ht _ IH]; [done|].
  change (flat_map bytes_of_int32 (t :: toks))
    with (bytes_of_int32 t ++ flat_map bytes_of_int32 toks).
  rewrite <- app_assoc.
  change (length (t :: toks)) with (S (length toks)).
  change (int32s_of_bytes (S (length toks)) ?bs)
    with (to_int32 (uint32_of_bytes (take 4 bs)) :: int32s_of_bytes (length toks) (drop 4 bs)).
  rewrite take_app_length' by done. rewrite drop_app_length' by done.
  rewrite IH. f_equal. unfold bytes_of_int32.
  rewrite uint32_of_bytes_of_uint32 by apply to_uint32_range.
  by apply to_int32_to_uint32.
Qed.

(** Overwriting the first cells of a backing store. *)
Lemma memcpy_store_0 {A} (l new : list A) C :
  length new <= C ->
  exists a, memcpy (store l C) 0 (Some <$> new) = Some a
            /\ buffer_of (length new) a = Some new.
Proof.
  intros Hn. unfold memcpy. rewrite length_fmap, length_store.
  destruct (Nat.leb_spec (0 + length new) (length l `max` C)); [|lia].
  eexists. split; [done|]. rewrite take_0. simpl. apply buffer_of_app.
Qed.

Section EditorClaims.
Context `{llama_api}.
Implicit Types (ctx : te_context_t).

(** C8. For an editor holding N tokens (N a u32) and a buffer of at least
    4 + 4N bytes, te_export_binary returns TE_OK, sets *buf_size to
    4 + 4N and writes the count N as four little-endian bytes followed by
    each token id as four little-endian bytes (its 32-bit pattern),
    leaving the rest of the buffer alone; an empty editor yields the four
    bytes 00 00 00 00. With a smaller buffer it returns Buffer_Too_Small,
    writes nothing and sets *buf_size to 4 + 4N. *)
Theorem te_export_binary_format ctx seq_id buf buf_size :
  let N := n_tokens ctx in
  (4 + 4 * N <= buf_size -> buf_size <= length buf -> (Z.of_nat N < UINT32_MOD)%Z ->
   exists out,
     te_export_binary ctx seq_id buf buf_size = Some (TE_OK, out, 4 + 4 * N)
     /\ length out = length buf
     /\ Forall is_byte (take (4 + 4 * N) out)
     /\ le_value (take 4 out) = Z.of_nat N
     /\ (forall j t, tokens ctx !! j = Some t ->
                     le_value (take 4 (drop (4 + 4 * j) out)) = to_uint32 t)
     /\ drop (4 + 4 * N) out = drop (4 + 4 * N) buf
     /\ (N = 0 -> take 4 out = [0; 0; 0; 0]%Z))
  /\ (buf_size < 4 + 4 * N ->
      te_export_binary ctx seq_id buf buf_size
      = Some (TE_ERROR_BUFFER_TOO_SMALL, buf, 4 + 4 * N)).
Proof.
  intros N. unfold te_export_binary. fold N.
  replace (4 + N * 4) with (4 + 4 * N) by lia.
  split.
  - intros Hneed Hbuf HN.
    destruct (Nat.ltb_spec buf_size (4 + 4 * N)); [lia|].
    remember (bytes_of_uint32 (to_uint32 (Z.of_nat N))) as hdr eqn:Hhdr.
    remember (flat_map bytes_of_int32 (tokens ctx)) as payload eqn:Hpayload.
    assert (length hdr = 4) as Hhl by (by subst hdr).
    assert (length payload = 4 * N) as Hpl by (subst payload; apply length_bytes_of_int32s).
    assert (memcpy buf 0 hdr = Some (hdr ++ drop 4 buf)) as ->.
    { unfold memcpy. rewrite Hhl. change (0 + 4) with 4.
      destruct (Nat.leb_spec 4 (length buf)); [|lia]. by rewrite take_0. }
    cbn [mbind option_bind].
    assert (memcpy (hdr ++ drop 4 buf) 4 payload
            = Some (hdr ++ payload ++ drop (4 + 4 * N) buf)) as ->.
    { unfold memcpy. rewrite length_app, length_drop, Hpl, Hhl.
      destruct (Nat.leb_spec (4 + 4 * N) (4 + (length buf - 4))); [|lia].
      rewrite (take_app_length' hdr) by done.
      rewrite (drop_app_ge hdr) by lia.
      rewrite drop_drop, Hhl.
      replace (4 + (4 + 4 * N - 4)) with (4 + 4 * N) by lia. done. }
    cbn [mbind option_bind]. eexists. split; [done|].
    assert (to_uint32 (Z.of_nat N) = Z.of_nat N) as HNu
        by (unfold to_uint32, UINT32_MOD in *; apply Z.mod_small; lia).
    split; [|split; [|split; [|split; [|split]]]].
    + rewrite !length_app, length_drop, Hpl, Hhl. lia.
    + rewrite app_assoc, take_app_length' by (rewrite length_app, Hpl, Hhl; lia).
      apply Forall_app. split; [subst hdr; apply bytes_of_uint32_bytes|].
      subst payload. clear. induction (tokens ctx) as [|t l IH]; [constructor|].
      change (flat_map bytes_of_int32 (t :: l))
        with (bytes_of_int32 t ++ flat_map bytes_of_int32 l).
      apply Forall_app. split; [apply bytes_of_uint32_bytes|done].
    + rewrite (take_app_length' hdr) by done. subst hdr.
      rewrite bytes_of_uint32_le; [done|]. rewrite HNu. lia.
    + intros j t Ht.
      rewrite (drop_app_ge hdr) by lia.
      rewrite Hhl. replace (4 + 4 * j - 4) with (4 * j) by lia.
      assert (j < N) as Hj by (apply lookup_lt_Some in Ht; done).
      rewrite drop_app_le by lia.
      rewrite take_app_le by (rewrite length_drop; lia).
      subst payload. unfold te_token_t in *.
      rewrite (bytes_of_int32s_chunk _ _ _ Ht).
      unfold bytes_of_int32. apply bytes_of_uint32_le.
      unfold to_uint32, UINT32_MOD. apply Z.mod_pos_bound. lia.
    + rewrite app_assoc, drop_app_length' by (rewrite length_app, Hpl, Hhl; lia). done.
    + intros HN0. rewrite (take_app_length' hdr) by done.
      subst hdr. by rewrite HN0.
  - intros Hsmall. destruct (Nat.ltb_spec buf_size (4 + 4 * N)); [done|lia].
Qed.



End EditorClaims.

Section ImportExport.
Context `{llama_api}.
Implicit Types (ctx : te_context_t).

(** What [te_export_binary] writes into a buffer that is large enough. *)
Lemma te_export_binary_out ctx seq_id buf buf_size :
  let N := n_tokens ctx in
  4 + 4 * N <= buf_size -> buf_size <= length buf ->
  te_export_binary ctx seq_id buf buf_size
  = Some (TE_OK,
          bytes_of_uint32 (to_uint32 (Z.of_nat N))
            ++ flat_map bytes_of_int32 (tokens ctx) ++ drop (4 + 4 * N) buf,
          4 + 4 * N).
Proof.
  intros N Hneed Hbuf. unfold te_export_binary. fold N.
  replace (4 + N * 4) with (4 + 4 * N) by lia.
  destruct (Nat.ltb_spec buf_size (4 + 4 * N)); [lia|].
  remember (bytes_of_uint32 (to_uint32 (Z.of_nat N))) as hdr eqn:Hhdr.
  remember (flat_map bytes_of_int32 (tokens ctx)) as payload eqn:Hpayload.
  assert (length hdr = 4) as Hhl by (by subst hdr).
  assert (length payload = 4 * N) as Hpl by (subst payload; apply length_bytes_of_int32s).
  assert (memcpy buf 0 hdr = Some (hdr ++ drop 4 buf)) as ->.
  { unfold memcpy. rewrite Hhl. change (0 + 4) with 4.
    destruct (Nat.leb_spec 4 (length buf)); [|lia]. by rewrite take_0. }
  cbn [mbind option_bind].
  assert (memcpy (hdr ++ drop 4 buf) 4 payload
          = Some (hdr ++ payload ++ drop (4 + 4 * N) buf)) as ->.
  { unfold memcpy. rewrite length_app, length_drop, Hpl, Hhl.
    destruct (Nat.leb_spec (4 + 4 * N) (4 + (length buf - 4))); [|lia].
    rewrite (take_app_length' hdr) by done.
    rewrite (drop_app_ge hdr) by lia.
    rewrite drop_drop, Hhl.
    replace (4 + (4 + 4 * N - 4)) with (4 + 4 * N) by lia. done. }
  done.
Qed.

(** [te_import_binary] of a well-formed stream. *)
Lemma te_import_binary_stream ctx seq_id (toks : list Z) rest buf_size :
  0 < capacity ctx -> Forall is_int32 toks -> (Z.of_nat (length toks) < UINT32_MOD)%Z ->
  4 + 4 * length toks <= buf_size ->
  exists ctx',
    te_import_binary ctx seq_id
      (bytes_of_uint32 (Z.of_nat (length toks)) ++ flat_map bytes_of_int32 toks ++ rest)
      buf_size = Some (TE_OK, ctx')
    /\ tokens ctx' = toks /\ token_info ctx' = import_info seq_id toks
    /\ kv_cache_dirty ctx' = true /\ logits_valid ctx' = false.
Proof.
  intros Hcap Htoks HN Hsize.
  set (N := length toks) in *.
  set (hdr := bytes_of_uint32 (Z.of_nat N)).
  set (payload := flat_map bytes_of_int32 toks).
  assert (length hdr = 4) as Hhl by done.
  assert (length payload = 4 * N) as Hpl by apply length_bytes_of_int32s.
  unfold te_import_binary.
  destruct (Nat.ltb_spec buf_size 4); [lia|].
  assert (read (hdr ++ payload ++ rest) 0 4 = Some hdr) as ->.
  { unfold read. rewrite length_app, Hhl.
    destruct (Nat.leb_spec (0 + 4) (4 + length (payload ++ rest))); [|lia].
    rewrite drop_0. by rewrite take_app_length'. }
  cbn [mbind option_bind].
  assert (Z.to_nat (uint32_of_bytes hdr) = N) as ->.
  { unfold hdr. rewrite uint32_of_bytes_of_uint32 by lia. lia. }
  destruct (Nat.ltb_spec buf_size (4 + N * 4)); [lia|].
  assert (exists e1 c1, te_clear ctx seq_id = Some (e1, c1) /\ capacity c1 = capacity ctx)
    as (e1 & c1 & -> & Hcap1).
  { unfold te_clear. destruct (readonly ctx); [by eauto|].
    eexists _, _. split; [done|]. simpl.
    destruct (0 <? n_tokens ctx); [|done].
    match goal with |- context [te_record_edit ?c ?t ?x ?d ?k] =>
      destruct (te_record_edit_frame c t x d k) as (_ & _ & -> & _) end.
    done. }
  cbn [mbind option_bind].
  destruct (te_ensure_capacity_Some c1 N) as [[err c2] Hens]; [lia|].
  rewrite Hens. cbn [mbind option_bind].
  apply te_ensure_capacity_inv in Hens as (-> & c' & -> & Hreq & _).
  assert (read (hdr ++ payload ++ rest) 4 (N * 4) = Some payload) as ->.
  { unfold read. rewrite !length_app, Hhl, Hpl.
    destruct (Nat.leb_spec (4 + N * 4) (4 + (4 * N + length rest))); [|lia].
    rewrite drop_app_length' by done. rewrite take_app_length' by lia. done. }
  cbn [mbind option_bind].
  assert (int32s_of_bytes N payload = toks) as ->.
  { rewrite <- (app_nil_r payload). by apply int32s_of_bytes_flat_map. }
  unfold te_token_t in *.
  match goal with |- context [memcpy (store ?l ?C) 0 (Some <$> toks)] =>
    destruct (memcpy_store_0 (A:=Z) l toks C) as (a & -> & Ha); [done|] end.
  cbn [mbind option_bind].
  match goal with |- context [memcpy (store ?l ?C) 0 (Some <$> import_info seq_id toks)] =>
    destruct (memcpy_store_0 l (import_info seq_id toks) C) as (b & -> & Hb) end.
  { unfold import_info. by rewrite length_imap. }
  cbn [mbind option_bind].
  assert (length (import_info seq_id toks) = N) as Hil
    by (unfold import_info; by rewrite length_imap).
  rewrite Hil in Hb. fold N in Ha.
  unfold te_token_t in *. rewrite Ha. cbn [mbind option_bind].
  rewrite Hb. cbn [mbind option_bind].
  eexists. split; [done|]. done.
Qed.

(** X6. The stream [te_export_binary] writes for an editor whose token
    ids are int32_t values is read back by [te_import_binary], into any
    editor, as the same token sequence; the import leaves the cache dirty
    and the logits invalid. *)
Lemma te_export_import_binary ctx ctx2 seq_id seq_id2 buf buf_size :
  let N := n_tokens ctx in
  4 + 4 * N <= buf_size -> buf_size <= length buf -> (Z.of_nat N < UINT32_MOD)%Z ->
  Forall is_int32 (tokens ctx) -> 0 < capacity ctx2 ->
  exists out ctx',
    te_export_binary ctx seq_id buf buf_size = Some (TE_OK, out, 4 + 4 * N)
    /\ te_import_binary ctx2 seq_id2 out (4 + 4 * N) = Some (TE_OK, ctx')
    /\ tokens ctx' = tokens ctx
    /\ kv_cache_dirty ctx' = true /\ logits_valid ctx' = false.
Proof.
  intros N Hneed Hbuf HN Htoks Hcap.
  rewrite (te_export_binary_out ctx seq_id buf buf_size Hneed Hbuf). fold N.
  assert (to_uint32 (Z.of_nat N) = Z.of_nat N) as ->
    by (unfold to_uint32, UINT32_MOD in *; apply Z.mod_small; lia).
  destruct (te_import_binary_stream ctx2 seq_id2 (tokens ctx) (drop (4 + 4 * N) buf)
              (4 + 4 * N) Hcap Htoks HN) as (ctx' & Himp & Ht & _ & Hd & Hl); [done|].
  eexists _, ctx'. split; [done|]. done.
Qed.

End ImportExport.

Section Outcomes.
Context `{llama_api}.
Implicit Types (ctx : te_context_t).















End Outcomes.

Section StoreLengths.
Context {A : Type}.
Implicit Types (l : list A).



End StoreLengths.

Section Session.
Context `{llama_api}.
Implicit Types (ctx : te_context_t).










Lemma kept_log_fields ctx ctx0 :
  tokens ctx0 = tokens ctx -> token_info ctx0 = token_info ctx ->
  capacity ctx0 = capacity ctx -> readonly ctx0 = readonly ctx ->
  buf_ok ctx -> buf_ok ctx0.
Proof. unfold buf_ok, n_tokens. by intros -> -> ->. Qed.









End Session.

Section MoreEditorProperties.
Context `{llama_api}.
Implicit Types (ctx : te_context_t).


(** X10. In a read-only editor the five mutators return
    TE_ERROR_READONLY and change nothing; te_undo and te_redo return
    TE_OK and still move a node between history and redo stack, but the
    token buffer and its metadata stay as they are. *)
Theorem te_readonly_buffer_fixed c ctx :
  readonly ctx = true -> is_edit_call c = true ->
  exists e ctx',
    te_apply c ctx = Some (e, ctx')
    /\ tokens ctx' = tokens ctx /\ token_info ctx' = token_info ctx
    /\ readonly ctx' = true
    /\ (is_mutator c = true -> e = TE_ERROR_READONLY /\ ctx' = ctx).
Proof.
  intros Hro Hc.
  assert (forall c0, readonly c0 = true -> is_mutator c = true ->
                     te_apply c c0 = Some (TE_ERROR_READONLY, c0)) as Hmut.
  { intros c0 Hro0 Hm. destruct c; try done; simpl;
      [unfold te_set_token|unfold te_insert_tokens|unfold te_delete_tokens
      |unfold te_replace_tokens|unfold te_clear]; by rewrite Hro0. }
  destruct c as [pos s t|pos s toks|range|range toks|s| | |]; try done;
    try (eexists _, _; split; [by apply Hmut|done]).
  - (* te_undo *)
    simpl. unfold te_undo.
    destruct (history_pop (history ctx)) as [[prev op]|];
      [|eexists _, _; split; [done|]; done].
    destruct (op_type op);
      unfold te_delete_tokens, te_insert_tokens, te_replace_tokens;
      cbn [readonly set_suppress_history set_history]; rewrite ?Hro;
      cbn [mbind option_bind]; eexists _, _; (split; [done|]); done.
  - (* te_redo *)
    simpl. unfold te_redo.
    destruct (redo_stack ctx) as [|op rest];
      [eexists _, _; split; [done|]; done|].
    destruct (op_type op);
      unfold te_delete_tokens, te_insert_tokens, te_replace_tokens;
      cbn [readonly set_suppress_history set_redo_stack]; rewrite ?Hro;
      cbn [mbind option_bind]; eexists _, _; (split; [done|]); done.
Qed.

(** X11. After a successful te_set_token at position pos, te_get_token
    returns the new token at pos and what it returned before at every
    other position, and the token count is unchanged. *)
Theorem te_set_token_get_token ctx pos seq_id token ctx' :
  te_set_token ctx pos seq_id token = Some (TE_OK, ctx') ->
  n_tokens ctx' = n_tokens ctx
  /\ forall q s, te_get_token ctx' q s
                 = if (q =? pos)%Z then token else te_get_token ctx q s.
Proof.
  unfold te_set_token. destruct (readonly ctx); [done|].
  destruct (_ || _) eqn:Hpos; [done|].
  intros Hr. bind_case Hr. bind_case Hr. injection Hr as <-.
  apply orb_false_iff in Hpos as [Hp1 Hp2]. unfold size_t_ge in Hp2.
  apply orb_false_iff in Hp2 as [_ Hp2]. apply Z.ltb_ge in Hp1. apply Z.leb_gt in Hp2.
  unfold te_get_token, n_tokens in *. simpl. rewrite length_insert.
  match goal with |- context [te_record_edit ?c ?a ?x ?d ?k] =>
    destruct (te_record_edit_frame c a x d k) as (-> & _) end.
  split; [done|]. intros q s.
  unfold size_t_ge, te_token_t in *.
  destruct (Z.eqb_spec q pos) as [->|Hne].
  - destruct (Z.ltb_spec pos 0); [lia|].
    destruct (Z.leb_spec (Z.of_nat (length (A:=Z) (tokens ctx))) pos); [lia|]. simpl.
    rewrite list_lookup_insert_eq; [done|]. lia.
  - destruct ((q <? 0)%Z || ((q <? 0)%Z || (Z.of_nat (length (A:=Z) (tokens ctx)) <=? q)%Z))
      eqn:Hq; [done|].
    apply orb_false_iff in Hq as [Hq1 _]. apply Z.ltb_ge in Hq1.
    rewrite list_lookup_insert_ne by lia. done.
Qed.

(** X12. After a successful te_insert_tokens of k > 0 tokens at position
    pos, the token count has grown by k and te_get_tokens over
    [pos, pos + k) returns exactly the inserted tokens. *)
Theorem te_insert_tokens_get_tokens ctx pos seq_id toks ctx' s :
  wf ctx -> toks <> [] ->
  te_insert_tokens ctx pos seq_id toks = Some (TE_OK, ctx') ->
  te_get_token_count ctx' s = n_tokens ctx + length toks
  /\ te_get_tokens ctx' (mk_range pos (pos + Z.of_nat (length toks))%Z s) (length toks)
     = (TE_OK, toks, length toks).
Proof.
  intros Hwf Hne Hins.
  assert (readonly ctx = false) as Hro.
  { destruct (readonly ctx) eqn:Hro; [|done].
    unfold te_insert_tokens in Hins. by rewrite Hro in Hins. }
  assert (0 <= pos <= Z.of_nat (n_tokens ctx))%Z as Hpos.
  { unfold te_insert_tokens in Hins. rewrite Hro in Hins.
    destruct (_ || _) eqn:Hp in Hins; [done|].
    apply orb_false_iff in Hp as [Hp1 Hp2]. unfold size_t_gt in Hp2.
    apply orb_false_iff in Hp2 as [_ Hp2]. apply Z.ltb_ge in Hp1, Hp2. lia. }
  destruct (te_insert_tokens_ok ctx pos seq_id toks Hwf Hro Hpos Hne)
    as (c & Hc & Ht & _).
  rewrite Hc in Hins. injection Hins as ->.
  assert (0 < length toks) as Hk by (destruct toks; [done|simpl; lia]).
  unfold te_get_token_count, te_get_tokens, n_tokens in *. simpl.
  rewrite Ht, !length_app, length_take, length_drop.
  split; [lia|].
  rewrite clamp_start_small by lia.
  rewrite clamp_end_small by lia.
  destruct (Z.leb_spec (pos + Z.of_nat (length toks)) pos); [lia|].
  replace (Z.to_nat (pos + Z.of_nat (length toks) - pos)) with (length toks) by lia.
  rewrite Nat.ltb_irrefl.
  rewrite drop_app_length' by (rewrite length_take; lia).
  by rewrite take_app_length.
Qed.

(** X13. A snapshot of an editor restores, into any editor with a
    backing store, the token buffer and metadata it was taken of and
    loads the saved adapter state; the restore returns TE_OK, leaves the
    cache marked clean with valid logits, and does not touch the history
    or the redo stack. *)
Theorem te_snapshot_restore ctx0 ctx :
  length (token_info ctx0) = n_tokens ctx0 -> 0 < capacity ctx ->
  exists snapshot ctx',
    te_create_snapshot ctx0 = Some snapshot
    /\ te_restore_snapshot ctx snapshot = Some (TE_OK, ctx')
    /\ tokens ctx' = tokens ctx0 /\ token_info ctx' = token_info ctx0
    /\ llama_ctx ctx'
       = llama_set_state_data (llama_ctx ctx) (llama_copy_state_data (llama_ctx ctx0))
    /\ kv_cache_dirty ctx' = false /\ logits_valid ctx' = true
    /\ history ctx' = history ctx /\ redo_stack ctx' = redo_stack ctx.
Proof.
  intros Hlen Hcap.
  assert (te_create_snapshot ctx0
          = Some (mk_snapshot (tokens ctx0) (token_info ctx0)
                    (Some (llama_copy_state_data (llama_ctx ctx0))))) as Hsnap.
  { unfold te_create_snapshot, read, n_tokens in *.
    destruct (0 <? length (tokens ctx0)) eqn:Hn.
    - rewrite Hlen, !Nat.leb_refl, !drop_0. simpl.
      rewrite <- Hlen at 2. by rewrite !firstn_all.
    - apply Nat.ltb_ge in Hn.
      destruct (tokens ctx0); [|simpl in Hn; lia].
      destruct (token_info ctx0); [done|done]. }
  destruct (te_ensure_capacity_Some ctx (length (tokens ctx0))) as [[err c1] Hens]; [lia|].
  assert (Hens' := Hens).
  apply te_ensure_capacity_inv in Hens' as (-> & c' & -> & Hreq & _).
  eexists _, _. split; [exact Hsnap|].
  unfold te_restore_snapshot. simpl.
  rewrite Hens. cbn [mbind option_bind].
  unfold read, n_tokens in *. rewrite Hlen, Nat.leb_refl, drop_0.
  rewrite <- Hlen at 1. rewrite firstn_all. cbn [mbind option_bind].
  unfold te_token_t in *.
  destruct (memcpy_store_0 (A:=Z) (tokens (set_capacity c' ctx)) (tokens ctx0)
              (capacity (set_capacity c' ctx))) as (a & Ha & Hba); [done|].
  destruct (memcpy_store_0 (token_info (set_capacity c' ctx)) (token_info ctx0)
              (capacity (set_capacity c' ctx))) as (b & Hb & Hbb); [by rewrite Hlen|].
  rewrite Hlen in Hbb.
  destruct (Nat.ltb_spec 0 (length (A:=Z) (tokens ctx0))) as [Hn|Hn].
  - rewrite Ha. cbn [mbind option_bind]. rewrite Hb. cbn [mbind option_bind].
    rewrite Hba. cbn [mbind option_bind]. rewrite Hbb. cbn [mbind option_bind].
    split; [done|]. done.
  - destruct (tokens ctx0) as [|? ?] eqn:Ht; [|simpl in Hn; lia].
    destruct (token_info ctx0) as [|? ?] eqn:Hi; [|done].
    cbn [mbind option_bind]. unfold buffer_of. simpl. split; [done|]. done.
Qed.

Lemma te_find_token_loop_spec token (toks : list Z) : forall i room,
  (Z.of_nat (i + length toks) <= INT32_MAX)%Z ->
  let ps := te_find_token_loop toks i token room in
  length ps <= room
  /\ Forall (fun p => exists j, p = Z.of_nat (i + j) /\ toks !! j = Some token) ps
  /\ StronglySorted Z.lt ps
  /\ forall j, toks !! j = Some token ->
       Z.of_nat (i + j) ∈ ps
       \/ (length ps = room /\ Forall (fun p => (p < Z.of_nat (i + j))%Z) ps).
Proof.
  induction toks as [|t rest IH]; intros i room Hmax; simpl.
  { split; [lia|]. split; [constructor|]. split; [constructor|]. done. }
  destruct room as [|room].
  { split; [done|]. split; [constructor|]. split; [constructor|].
    intros j _. right. split; [done|constructor]. }
  simpl in Hmax.
  destruct (IH (S i) room) as (IH1 & IH2 & IH3 & IH4); [lia|].
  destruct (IH (S i) (S room)) as (IH1' & IH2' & IH3' & IH4'); [lia|].
  destruct (Z.eqb_spec t token) as [->|Hne].
  - rewrite to_int32_small by (unfold INT32_MAX in *; lia).
    split; [simpl; lia|]. split; [|split].
    + constructor.
      * exists 0. split; [f_equal; lia|done].
      * eapply Forall_impl; [exact IH2|]. intros p (j & -> & Hj).
        exists (S j). split; [f_equal; lia|done].
    + constructor; [done|].
      eapply Forall_impl; [exact IH2|]. intros p (j & -> & _). lia.
    + intros [|j] Hj.
      * left. replace (i + 0) with i by lia. apply list_elem_of_here.
      * destruct (IH4 j Hj) as [Hin|[Hlen Hall]].
        -- left. replace (i + S j) with (S i + j) by lia. by apply list_elem_of_further.
        -- right. split; [simpl; lia|].
           constructor; [lia|].
           eapply Forall_impl; [exact Hall|]. intros p Hp. simpl in Hp. lia.
  - split; [done|]. split; [|split; [done|]].
    + eapply Forall_impl; [exact IH2'|]. intros p (j & -> & Hj).
      exists (S j). split; [f_equal; lia|done].
    + intros [|j] Hj.
      * simpl in Hj. congruence.
      * destruct (IH4' j Hj) as [Hin|[Hlen Hall]].
        -- left. by replace (i + S j) with (S i + j) by lia.
        -- right. split; [done|].
           eapply Forall_impl; [exact Hall|]. intros p Hp. simpl in Hp. lia.
Qed.

(** X14. te_find_token returns TE_OK and, in ascending order, the first
    max positions that hold the token: every returned position holds it,
    and a position holding it is returned unless max positions before it
    were. *)
Theorem te_find_token_first_occurrences ctx token seq_id max :
  (Z.of_nat (n_tokens ctx) <= INT32_MAX)%Z ->
  exists positions,
    te_find_token ctx token seq_id max = (TE_OK, positions, length positions)
    /\ length positions <= max
    /\ StronglySorted Z.lt positions
    /\ (forall p, p ∈ positions ->
          (0 <= p < Z.of_nat (n_tokens ctx))%Z /\ te_get_token ctx p seq_id = token)
    /\ (forall i : nat, tokens ctx !! i = Some token ->
          Z.of_nat i ∈ positions
          \/ (length positions = max
              /\ Forall (fun p => (p < Z.of_nat i)%Z) positions)).
Proof.
  intros Hmax. eexists. split; [done|].
  destruct (te_find_token_loop_spec token (tokens ctx) 0 max Hmax)
    as (H1 & H2 & H3 & H4).
  split; [done|]. split; [done|]. split.
  - intros p Hp. rewrite Forall_forall in H2. destruct (H2 p Hp) as (j & -> & Hj).
    simpl. apply lookup_lt_Some in Hj as Hlt.
    unfold te_get_token, size_t_ge, n_tokens.
    split; [lia|].
    destruct (Z.ltb_spec (Z.of_nat j) 0); [lia|].
    destruct (Z.leb_spec (Z.of_nat (length (tokens ctx))) (Z.of_nat j)); [lia|].
    simpl. rewrite Nat2Z.id. unfold te_token_t in *. by rewrite Hj.
  - intros i Hi. exact (H4 i Hi).
Qed.

End MoreEditorProperties.

Section Sequences.
Context `{llama_seq_api}.
Implicit Types (seqs : te_sequences_t) (ctx : te_context_t).

Lemma te_next_sequence_id_from (seqs : te_sequences_t) : forall start,
  (0 <= start)%Z -> Forall (fun a => (a < INT32_MAX)%Z) seqs ->
  exists id,
    foldl (fun acc a =>
             new_id ← acc;
             if (new_id <=? a)%Z then
               if (a <? INT32_MAX)%Z then Some (a + 1)%Z else None
             else Some new_id)
          (Some start) seqs = Some id
    /\ (start <= id)%Z /\ Forall (fun a => (a < id)%Z) seqs.
Proof.
  induction seqs as [|a rest IH]; intros start Hstart Hall; simpl.
  { exists start. split; [done|]. split; [lia|constructor]. }
  apply Forall_cons in Hall as [Ha Hall].
  destruct (Z.leb_spec start a).
  - destruct (Z.ltb_spec a INT32_MAX); [|lia].
    destruct (IH (a + 1)%Z) as (id & -> & Hid & Hlt); [lia|done|].
    exists id. split; [done|]. split; [lia|]. constructor; [lia|done].
  - destruct (IH start) as (id & -> & Hid & Hlt); [lia|done|].
    exists id. split; [done|]. split; [lia|]. constructor; [lia|done].
Qed.

Lemma te_next_sequence_id_None (seqs : te_sequences_t) :
  foldl (fun acc a =>
           new_id ← acc;
           if (new_id <=? a)%Z then
             if (a <? INT32_MAX)%Z then Some (a + 1)%Z else None
           else Some new_id)
        None seqs = None.
Proof. by induction seqs. Qed.

Lemma te_next_sequence_id_inv (seqs : te_sequences_t) : forall start id,
  (0 <= start <= INT32_MAX)%Z -> Forall (fun a => (0 <= a <= INT32_MAX)%Z) seqs ->
  foldl (fun acc a =>
           new_id ← acc;
           if (new_id <=? a)%Z then
             if (a <? INT32_MAX)%Z then Some (a + 1)%Z else None
           else Some new_id)
        (Some start) seqs = Some id ->
  (start <= id <= INT32_MAX)%Z /\ Forall (fun a => (a < id)%Z) seqs.
Proof.
  induction seqs as [|a rest IH]; intros start id Hstart Hall; simpl.
  { intros [= <-]. split; [lia|constructor]. }
  apply Forall_cons in Hall as [Ha Hall].
  destruct (Z.leb_spec start a).
  - destruct (Z.ltb_spec a INT32_MAX).
    + intros Hf. destruct (IH (a + 1)%Z id) as [Hid Hlt]; [lia|done|done|].
      split; [lia|]. constructor; [lia|done].
    + by rewrite te_next_sequence_id_None.
  - intros Hf. destruct (IH start id) as [Hid Hlt]; [lia|done|done|].
    split; [lia|]. constructor; [lia|done].
Qed.

(** X15. te_create_sequence on a registry of fewer than 16 ids, all below
    INT32_MAX, returns a non-negative id that is greater than every
    registered id and appends it; on a registry of 16 ids it returns -1
    and leaves the registry as it is. *)
Theorem te_create_sequence_fresh seqs :
  Forall (fun a => (a < INT32_MAX)%Z) seqs ->
  exists id,
    (0 <= id)%Z /\ Forall (fun a => (a < id)%Z) seqs
    /\ te_create_sequence seqs
       = Some (if 16 <=? length seqs then ((-1)%Z, seqs) else (id, seqs ++ [id])).
Proof.
  intros Hall.
  destruct (te_next_sequence_id_from seqs 0%Z) as (id & Hid & Hge & Hlt); [done|done|].
  exists id. split; [done|]. split; [done|].
  unfold te_create_sequence, te_next_sequence_id. rewrite Hid.
  cbn [mbind option_bind]. unfold TE_MAX_SEQUENCES. by destruct (16 <=? length seqs).
Qed.

Lemma te_remove_sequence_Some seq_id seqs seqs' :
  te_remove_sequence seq_id seqs = Some seqs' ->
  exists l1 l2, seqs = l1 ++ seq_id :: l2 /\ seqs' = l1 ++ l2 /\ seq_id ∉ l1.
Proof.
  revert seqs'. induction seqs as [|a rest IH]; intros seqs'; simpl; [done|].
  destruct (Z.eqb_spec a seq_id) as [->|Hne].
  - intros [= <-]. exists [], rest. split; [done|]. split; [done|]. apply not_elem_of_nil.
  - destruct (te_remove_sequence seq_id rest) as [rest'|]; [|done]. simpl.
    intros [= <-]. destruct (IH rest' eq_refl) as (l1 & l2 & -> & -> & Hnot).
    exists (a :: l1), l2. split; [done|]. split; [done|].
    apply not_elem_of_cons. split; [congruence|done].
Qed.

Lemma te_remove_sequence_None seq_id seqs :
  te_remove_sequence seq_id seqs = None <-> seq_id ∉ seqs.
Proof.
  induction seqs as [|a rest IH]; simpl.
  { split; [intros _; apply not_elem_of_nil|done]. }
  rewrite not_elem_of_cons.
  destruct (Z.eqb_spec a seq_id) as [->|Hne].
  - split; [done|]. by intros [? _].
  - destruct (te_remove_sequence seq_id rest) as [rest'|]; simpl.
    + split; [done|]. intros [_ Hn]. by apply IH in Hn.
    + split; [|done]. intros _. split; [congruence|]. by apply IH.
Qed.

(** X16. te_delete_sequence of a registered id returns TE_OK, takes that
    id (its first cell) out of the registry, keeps the other ids in
    their order, asks the adapter to drop the sequence and leaves the
    token buffer alone; for an id that is not registered it returns
    TE_ERROR_SEQUENCE_NOT_FOUND and changes nothing. In a registry of
    distinct ids the deleted id is no longer registered. *)
Theorem te_delete_sequence_removes ctx seqs seq_id :
  (seq_id ∈ seqs ->
   exists l1 l2,
     seqs = l1 ++ seq_id :: l2 /\ (seq_id ∉ l1)
     /\ te_delete_sequence ctx seqs seq_id
        = (TE_OK,
           set_llama_ctx (llama_kv_cache_seq_rm (llama_ctx ctx) seq_id (-1)%Z (-1)%Z) ctx,
           l1 ++ l2)
     /\ (NoDup seqs -> seq_id ∉ (l1 ++ l2)))
  /\ (seq_id ∉ seqs ->
      te_delete_sequence ctx seqs seq_id = (TE_ERROR_SEQUENCE_NOT_FOUND, ctx, seqs)).
Proof.
  unfold te_delete_sequence. split.
  - intros Hin. destruct (te_remove_sequence seq_id seqs) as [seqs'|] eqn:Hrem.
    + apply te_remove_sequence_Some in Hrem as (l1 & l2 & -> & -> & Hnot).
      exists l1, l2. split; [done|]. split; [done|]. split; [done|].
      intros Hnd. apply NoDup_app in Hnd as (_ & _ & Hnd).
      apply NoDup_cons in Hnd as [Hnd _].
      rewrite elem_of_app. tauto.
    + apply te_remove_sequence_None in Hrem. done.
  - intros Hnot. apply te_remove_sequence_None in Hnot. by rewrite Hnot.
Qed.

Lemma te_create_sequence_ok seqs id seqs' :
  sequences_ok seqs -> te_create_sequence seqs = Some (id, seqs') -> sequences_ok seqs'.
Proof.
  intros (Hnd & Hall & Hlen). unfold te_create_sequence.
  destruct (te_next_sequence_id seqs) as [new_id|] eqn:Hnext; [|done].
  cbn [mbind option_bind]. unfold TE_MAX_SEQUENCES in *.
  destruct (Nat.leb_spec 16 (length seqs)); intros [= <- <-]; [done|].
  destruct (te_next_sequence_id_inv seqs 0%Z new_id) as [Hrange Hlt];
    [unfold INT32_MAX; lia|done|done|].
  split; [|split].
  - apply NoDup_app. split; [done|]. split; [|apply NoDup_singleton].
    intros a Ha Ha'. apply list_elem_of_singleton in Ha' as ->.
    rewrite Forall_forall in Hlt. specialize (Hlt _ Ha). lia.
  - apply Forall_app. split; [done|]. by constructor.
  - rewrite length_app. unfold TE_MAX_SEQUENCES. simpl. lia.
Qed.

Lemma te_delete_sequence_ok ctx seqs seq_id err ctx' seqs' :
  sequences_ok seqs -> te_delete_sequence ctx seqs seq_id = (err, ctx', seqs') ->
  sequences_ok seqs'.
Proof.
  intros (Hnd & Hall & Hlen). unfold te_delete_sequence.
  destruct (te_remove_sequence seq_id seqs) as [seqs0|] eqn:Hrem; intros [= <- <- <-];
    [|done].
  apply te_remove_sequence_Some in Hrem as (l1 & l2 & -> & -> & Hnot).
  split; [|split].
  - apply NoDup_app in Hnd as (Hn1 & Hn2 & Hn3). apply NoDup_cons in Hn3 as [_ Hn3].
    apply NoDup_app. split; [done|]. split; [|done].
    intros a Ha Ha'. apply (Hn2 a Ha). by apply list_elem_of_further.
  - apply Forall_app in Hall as [Ha1 Ha2]. apply Forall_cons in Ha2 as [_ Ha2].
    by apply Forall_app.
  - rewrite length_app in *. simpl in Hlen. unfold TE_MAX_SEQUENCES in *. lia.
Qed.

Lemma te_fork_sequence_ok ctx seqs src id ctx' seqs' :
  sequences_ok seqs -> te_fork_sequence ctx seqs src = Some (id, ctx', seqs') ->
  sequences_ok seqs'.
Proof.
  intros Hok. unfold te_fork_sequence.
  destruct (te_create_sequence seqs) as [[dst seqs1]|] eqn:Hc; [|done]. simpl.
  apply te_create_sequence_ok in Hc; [|done].
  destruct (dst <? 0)%Z; by intros [= <- <- <-].
Qed.

(** X17. In every registry reached from te_init's by te_create_sequence,
    te_delete_sequence and te_fork_sequence the ids are pairwise
    distinct non-negative int32_t values and there are at most 16 of
    them. *)
Theorem te_sequences_distinct seqs :
  te_sequences_reachable seqs ->
  NoDup seqs /\ Forall (fun a => (0 <= a <= INT32_MAX)%Z) seqs /\ length seqs <= 16.
Proof.
  induction 1 as [|seqs id seqs' _ IH Hc|ctx seqs seq_id err ctx' seqs' _ IH Hd
                 |ctx seqs src id ctx' seqs' _ IH Hf].
  - split; [apply NoDup_singleton|]. split; [|simpl; lia].
    constructor; [unfold INT32_MAX; lia|constructor].
  - by eapply te_create_sequence_ok.
  - by eapply te_delete_sequence_ok.
  - by eapply te_fork_sequence_ok.
Qed.

End Sequences.

(** * Properties of the environment *)

Local Close Scope Z_scope.

Section EnvironmentClaims.
Context `{llama_api}.
Implicit Types (env : rllm_env_t) (h : gmap ptr rllm_context_t).

Lemma rllm_alloc_context_inv env p env1 :
  rllm_alloc_context env = (Some p, env1) ->
  env_heap env !! p = None
  /\ (exists c, env_heap env1 = <[p := c]> (env_heap env)
                /\ rc_depth c = 0%Z /\ rc_parent c = None /\ rc_children c = []
                /\ rc_token_editor c = None)
  /\ env_contexts env1 = env_contexts env ++ [p]
  /\ env_config env1 = env_config env.
Proof.
  unfold rllm_alloc_context. destruct (_ <=? _)%Z; [done|].
  intros [= <- <-]. simpl. split.
  - apply not_elem_of_dom, is_fresh.
  - split; [|done]. eexists. split; [done|]. done.
Qed.

Lemma rllm_alloc_context_null env env1 :
  rllm_alloc_context env = (None, env1) -> env1 = env.
Proof. unfold rllm_alloc_context. destruct (_ <=? _)%Z; [|done]. by intros [= <-]. Qed.

Lemma fire_heap installed ev env : env_heap (fire installed ev env) = env_heap env.
Proof. unfold fire. by destruct installed. Qed.

Lemma fire_config installed ev env : env_config (fire installed ev env) = env_config env.
Proof. unfold fire. by destruct installed. Qed.

Lemma fire_contexts installed ev env :
  env_contexts (fire installed ev env) = env_contexts env.
Proof. unfold fire. by destruct installed. Qed.

(** What a successful [rllm_spawn_child] leaves: the child object. *)
Lemma rllm_spawn_child_inv env parent par config child env' :
  env_heap env !! parent = Some par ->
  rllm_spawn_child env (Some parent) config = Some (Some child, env') ->
  env_heap env !! child = None
  /\ (max_depth (env_config env) <=? to_uint32 (rc_depth par + 1))%Z = false
  /\ env_config env' = env_config env
  /\ exists lctx child_te c,
       llama_new_context_with_model
         (let pick (v pv : Z) := if (0 <? v)%Z then v else pv in
          let nt := pick (n_threads config) (n_threads (rc_config par)) in
          mk_cparams (pick (n_ctx config) (n_ctx (rc_config par)))
                     (pick (n_batch config) (n_batch (rc_config par))) nt nt)
       = Some lctx
       /\ share_from_parent (share_mode config) par (te_init lctx) = Some child_te
       /\ env_heap env' !! child = Some c
       /\ rc_token_editor c = Some child_te
       /\ rc_depth c = to_uint32 (rc_depth par + 1)
       /\ rc_parent c = Some parent
       /\ rc_relation c = RLLM_REL_CHILD
       /\ rc_config c = config.
Proof.
  intros Hpar. unfold rllm_spawn_child. rewrite Hpar. simpl.
  destruct (_ <=? _)%Z eqn:Hdepth; [done|].
  destruct (rllm_alloc_context env) as [[p|] env1] eqn:Halloc; [|done].
  apply rllm_alloc_context_inv in Halloc as (Hfresh & (c0 & Hheap & Hd0 & Hp0 & Hc0 & He0) & Hpool & Hcfg).
  rewrite Hheap, lookup_insert_eq. simpl.
  destruct (llama_new_context_with_model _) as [lctx|] eqn:Hnew; [|done].
  destruct (share_from_parent _ _ _) as [child_te|] eqn:Hshare; simpl; [|done].
  assert (parent <> p) as Hne by (intros ->; congruence).
  unfold rllm_add_child.
  rewrite insert_insert_eq, lookup_insert_ne by done. rewrite Hpar. simpl.
  rewrite lookup_insert_ne by done. rewrite lookup_insert_eq. simpl.
  rewrite lookup_insert_eq. simpl.
  intros [= <- <-].
  split; [done|]. split; [done|]. split.
  { rewrite !fire_config. simpl.
    match goal with |- context [if ?b then set_env_peak_depth _ _ else _] =>
      destruct b end; simpl; congruence. }
  exists lctx, child_te. eexists. split; [done|]. split; [done|].
  split.
  { rewrite !fire_heap. simpl.
    match goal with |- context [if ?b then set_env_peak_depth _ _ else _] =>
      destruct b end; simpl; apply lookup_insert_eq. }
  done.
Qed.

(** C7. rllm_spawn_child returns null, with the environment (context
    pool and callback log included) unchanged, whenever
    parent.depth + 1 (a uint32_t sum) is at least max_depth; a successful
    spawn produces a node of depth parent.depth + 1, which is below
    max_depth. *)
Theorem rllm_spawn_child_depth_limit env parent par config :
  env_heap env !! parent = Some par ->
  ((max_depth (env_config env) <= to_uint32 (rc_depth par + 1))%Z ->
   rllm_spawn_child env (Some parent) config = Some (None, env))
  /\ (forall child env',
        rllm_spawn_child env (Some parent) config = Some (Some child, env') ->
        exists c, env_heap env' !! child = Some c
                  /\ rc_depth c = to_uint32 (rc_depth par + 1)
                  /\ (rc_depth c < max_depth (env_config env'))%Z).
Proof.
  intros Hpar. split.
  - intros Hdepth. unfold rllm_spawn_child. rewrite Hpar. simpl.
    destruct (Z.leb_spec (max_depth (env_config env)) (to_uint32 (rc_depth par + 1)));
      [done|lia].
  - intros child env' Hspawn.
    destruct (rllm_spawn_child_inv env parent par config child env' Hpar Hspawn)
      as (_ & Hdepth & Hcfg & lctx & child_te & c & _ & _ & Hc & _ & Hd & _).
    exists c. split; [done|]. split; [done|].
    rewrite Hcfg, Hd. by apply Z.leb_gt.
Qed.

Lemma wf_te_init lctx : wf (te_init lctx).
Proof. split; [apply Nat.lt_0_succ|done]. Qed.

(** Copying the tokens of the parent into a fresh editor. *)
Lemma share_tokens_copy (parent_te child_te : te_context_t) :
  wf child_te -> readonly child_te = false -> tokens child_te = [] ->
  (Z.of_nat (n_tokens parent_te) <= INT32_MAX)%Z ->
  exists child_te',
    (if 0 <? n_tokens parent_te then
       let range := mk_range 0%Z (to_int32 (Z.of_nat (n_tokens parent_te))) (-1)%Z in
       let '(_, out, n) := te_get_tokens parent_te range (n_tokens parent_te) in
       if length out =? n then
         '(_, child_te) ← te_insert_tokens child_te 0%Z 0%Z out;
         Some child_te
       else None
     else Some child_te) = Some child_te'
    /\ tokens child_te' = tokens parent_te
    /\ llama_ctx child_te' = llama_ctx child_te.
Proof.
  intros Hwf Hro Hempty Hmax. unfold n_tokens in *.
  destruct (tokens parent_te) as [|t l] eqn:Ht.
  { exists child_te. simpl. by rewrite Hempty. }
  set (n := length (t :: l)) in *.
  assert (0 < n) as Hn by (unfold n; simpl; lia).
  destruct (Nat.ltb_spec 0 n); [|lia].
  cbv zeta. unfold te_get_tokens. simpl r_start. simpl r_end.
  unfold n_tokens. rewrite Ht. fold n.
  rewrite (clamp_start_small 0%Z) by lia.
  rewrite to_int32_small by (unfold INT32_MAX in *; lia).
  rewrite clamp_end_small by lia.
  destruct (Z.leb_spec (Z.of_nat n) 0%Z); [lia|].
  replace (Z.to_nat (Z.of_nat n - 0)) with n by lia.
  rewrite Nat.ltb_irrefl. simpl drop.
  rewrite take_ge by done.
  rewrite Nat.eqb_refl.
  destruct (te_insert_tokens_ok child_te 0%Z 0%Z (t :: l))
    as (c & Hins & Htc & _); [done|done|unfold n_tokens; lia|done|].
  unfold te_token_t in *. rewrite Hins. simpl. exists c. split; [done|].
  split.
  - rewrite Htc, Hempty. simpl. by rewrite app_nil_r.
  - destruct (te_insert_tokens_spec child_te 0%Z 0%Z (t :: l)) as (c' & _ & _ & Hspec);
      [done|done|unfold n_tokens; lia|done|].
    unfold te_token_t in *. rewrite Hspec in Hins. injection Hins as <-.
    match goal with |- context [te_record_edit ?c ?ty ?x ?d ?k] =>
      destruct (te_record_edit_frame c ty x d k) as (_ & _ & _ & _ & _ & _ & _ & _ & ->)
    end. done.
Qed.


Lemma rllm_remove_child_depths md h parent child h' :
  map_Forall (fun _ c => depth_ok md c) h ->
  rllm_remove_child h parent child = Some h' ->
  map_Forall (fun _ c => depth_ok md c) h'.
Proof.
  intros Hh. unfold rllm_remove_child.
  destruct (h !! parent) as [par|] eqn:Hpar; [|done]. simpl.
  destruct (bool_decide _); [|by intros [= <-]].
  assert (map_Forall (fun _ c => depth_ok md c)
            (<[parent := set_rc_children (remove_first child (rc_children par)) par]> h))
    as Hh1.
  { apply map_Forall_insert_2; [|done]. exact (Hh _ _ Hpar). }
  destruct (_ !! child) as [ch|] eqn:Hch; [|done]. simpl. intros [= <-].
  apply map_Forall_insert_2; [|done]. exact (Hh1 _ _ Hch).
Qed.

Lemma rllm_free_context_internal_depths md fuel : forall h ctx h',
  map_Forall (fun _ c => depth_ok md c) h ->
  rllm_free_context_internal fuel h ctx = Some h' ->
  map_Forall (fun _ c => depth_ok md c) h'.
Proof.
  induction fuel as [|fuel IH]; intros h ctx h' Hh; [done|]. simpl.
  destruct (h !! ctx) as [c|]; [|done]. simpl.
  assert (forall children acc h1,
            (forall h0, acc = Some h0 -> map_Forall (fun _ c => depth_ok md c) h0) ->
            foldl (fun acc child => h ← acc; rllm_free_context_internal fuel h child)
                  acc children = Some h1 ->
            map_Forall (fun _ c => depth_ok md c) h1) as Hfold.
  { induction children as [|child children IHc]; intros acc h1 Hacc; simpl.
    - intros ->. by apply Hacc.
    - apply IHc. intros h0. destruct acc as [h2|]; [|done]. simpl.
      apply IH. by apply Hacc. }
  destruct (foldl _ _ _) as [h1|] eqn:Hf; [|done]. simpl. intros [= <-].
  apply map_Forall_delete. eapply Hfold; [|exact Hf]. by intros h0 [= <-].
Qed.

Local Arguments rllm_free_context_internal : simpl never.

Lemma rllm_apply_depths c env env' :
  depths_ok env -> rllm_apply c env = Some env' ->
  depths_ok env' /\ env_config env' = env_config env.
Proof.
  unfold depths_ok. intros Hok. destruct c as [config|parent config|ctx|a b d]; simpl.
  - (* rllm_create_root *)
    unfold rllm_create_root.
    destruct (rllm_alloc_context env) as [[p|] env1] eqn:Halloc.
    + apply rllm_alloc_context_inv in Halloc
        as (Hfresh & (c0 & Hheap & Hd0 & _) & _ & Hcfg).
      rewrite Hheap, lookup_insert_eq. simpl.
      destruct (llama_new_context_with_model _) as [lctx|]; simpl; intros [= <-].
      * rewrite fire_heap, fire_config.
        match goal with |- context [if ?b then set_env_roots _ _ else _] =>
          destruct b end; simpl; rewrite Hcfg, ?Hheap;
          (split; [|done]); apply map_Forall_insert_2; try (by left);
          apply map_Forall_insert_2; try done; by left.
      * simpl. rewrite Hcfg, ?Hheap. split; [|done].
        apply map_Forall_delete, map_Forall_insert_2; [by left|done].
    + apply rllm_alloc_context_null in Halloc as ->. simpl. by intros [= <-].
  - (* rllm_spawn_child *)
    destruct parent as [parent|]; [|simpl; by intros [= <-]].
    unfold rllm_spawn_child.
    destruct (env_heap env !! parent) as [par|] eqn:Hpar; [|done]. simpl.
    destruct (Z.leb_spec (max_depth (env_config env)) (to_uint32 (rc_depth par + 1)))
      as [|Hlt]; [simpl; by intros [= <-]|].
    destruct (rllm_alloc_context env) as [[p|] env1] eqn:Halloc.
    + apply rllm_alloc_context_inv in Halloc
        as (Hfresh & (c0 & Hheap & Hd0 & _) & _ & Hcfg).
      rewrite Hheap, lookup_insert_eq. simpl.
      assert (map_Forall (fun _ c => depth_ok (max_depth (env_config env)) c)
                (env_heap env1)) as Hok1.
      { rewrite Hheap. apply map_Forall_insert_2; [by left|done]. }
      destruct (llama_new_context_with_model _) as [lctx|].
      * destruct (share_from_parent _ _ _) as [child_te|]; simpl; [|done].
        assert (parent <> p) as Hne by (intros ->; congruence).
        unfold rllm_add_child.
        rewrite insert_insert_eq, lookup_insert_ne by done. rewrite Hpar. simpl.
        rewrite lookup_insert_ne by done. rewrite lookup_insert_eq. simpl.
        rewrite lookup_insert_eq. simpl. intros [= <-].
        rewrite !fire_heap, !fire_config.
        match goal with |- context [if ?b then set_env_peak_depth _ _ else _] =>
          destruct b end; simpl; rewrite Hcfg; (split; [|done]);
          (apply map_Forall_insert_2;
           [right; simpl; split; [apply Z.mod_pos_bound; done|done]|]);
          (apply map_Forall_insert_2; [exact (Hok _ _ Hpar)|]);
          (apply map_Forall_insert_2; [by left|done]).
      * simpl. intros [= <-]. simpl. rewrite Hcfg. split; [|done].
        by apply map_Forall_delete.
    + apply rllm_alloc_context_null in Halloc as ->. simpl. by intros [= <-].
  - (* rllm_destroy *)
    unfold rllm_destroy. rewrite fire_heap.
    destruct (env_heap env !! ctx) as [c|]; [|done]. simpl.
    match goal with |- context [mbind _ ?m] => destruct m as [h1|] eqn:Hrem end; [|done].
    simpl.
    assert (map_Forall (fun _ c => depth_ok (max_depth (env_config env)) c) h1) as Hok1.
    { destruct (rc_parent c) as [parent|].
      - by eapply rllm_remove_child_depths.
      - by injection Hrem as <-. }
    destruct (rllm_free_context_internal (S (size h1)) h1 ctx) as [h2|] eqn:Hfree;
      simpl; [|done].
    intros [= <-]. simpl. rewrite fire_config. split; [|done].
    by eapply rllm_free_context_internal_depths.
  - intros [= <-]. done.
Qed.

Lemma rllm_reachable_depths config env :
  rllm_reachable config env -> depths_ok env /\ env_config env = config.
Proof.
  induction 1 as [|env env' c _ [IH IHc] Happ].
  - split; [|done]. unfold depths_ok. simpl. apply map_Forall_empty.
  - destruct (rllm_apply_depths c env env' IH Happ) as [Hok Hcfg].
    split; [done|congruence].
Qed.

(** X5. In an environment reached through the API (rllm_init, then
    rllm_create_root, rllm_spawn_child, rllm_destroy and callback
    installation) whose max_depth is a uint32_t value, every live context
    has a depth for which the sum parent->depth + 1 of the depth check
    does not wrap around. *)
Lemma rllm_spawn_child_depth_sum config env parent par :
  rllm_reachable config env -> (0 <= max_depth config < UINT32_MOD)%Z ->
  env_heap env !! parent = Some par ->
  (0 <= rc_depth par)%Z /\ to_uint32 (rc_depth par + 1) = (rc_depth par + 1)%Z.
Proof.
  intros Hreach Hmd Hpar.
  destruct (rllm_reachable_depths config env Hreach) as [Hok Hcfg].
  specialize (Hok _ _ Hpar). simpl in Hok. rewrite Hcfg in Hok.
  unfold to_uint32, UINT32_MOD in *.
  destruct Hok as [->|Hd]; [done|].
  split; [lia|]. apply Z.mod_small. lia.
Qed.

End EnvironmentClaims.

Section Mailbox.
Implicit Types (mb : rllm_mailbox_t) (msg : rllm_message_t).

Lemma mod_wrap cap x :
  0 < cap -> x < 2 * cap -> x mod cap = if x <? cap then x else x - cap.
Proof.
  intros Hcap Hx. destruct (Nat.ltb_spec x cap).
  - by apply Nat.mod_small.
  - symmetry. apply (Nat.mod_unique x cap 1); lia.
Qed.

Lemma rllm_alloc_mailbox_ok : mailbox_ok rllm_alloc_mailbox /\ pending rllm_alloc_mailbox = [].
Proof. split; [|done]. unfold mailbox_ok, queue_capacity. simpl. lia. Qed.

Lemma pending_length mb : length (pending mb) = queue_count mb.
Proof. unfold pending. by rewrite length_fmap, length_seq. Qed.

Lemma queue_count_bound mb : mailbox_ok mb -> queue_count mb < queue_capacity mb.
Proof.
  intros [Hh Ht]. unfold queue_count.
  destruct (Nat.leb_spec (queue_head mb) (queue_tail mb)); lia.
Qed.

(** Sending into a mailbox with room, and into a full one. *)
Lemma rllm_send_message_spec from to mb msg :
  mailbox_ok mb -> message_ok msg ->
  let sent := mk_message (msg_type msg) from to (msg_seq_num msg)
                         (msg_data_size msg) (msg_data msg) in
  (queue_count mb + 1 < queue_capacity mb ->
   exists mb', rllm_send_message from to mb msg = Some (RLLM_OK, mb')
               /\ mailbox_ok mb' /\ queue_capacity mb' = queue_capacity mb
               /\ pending mb' = pending mb ++ [sent])
  /\ (queue_count mb + 1 = queue_capacity mb ->
      rllm_send_message from to mb msg = Some (RLLM_ERROR_MEMORY, mb)).
Proof.
  intros [Hh Ht] Hmsg sent. unfold rllm_send_message.
  set (cap := queue_capacity mb) in *.
  assert (0 < cap) as Hcap by lia.
  destruct (Nat.eqb_spec cap 0); [lia|].
  assert ((queue_tail mb + 1) mod cap
          = if queue_tail mb + 1 <? cap then queue_tail mb + 1 else 0) as Hnext.
  { rewrite mod_wrap by lia. destruct (Nat.ltb_spec (queue_tail mb + 1) cap); lia. }
  split.
  - intros Hroom.
    assert ((queue_tail mb + 1) mod cap <> queue_head mb) as Hne.
    { rewrite Hnext. unfold queue_count in Hroom. fold cap in Hroom.
      destruct (Nat.ltb_spec (queue_tail mb + 1) cap);
        destruct (Nat.leb_spec (queue_head mb) (queue_tail mb)); lia. }
    destruct (Nat.eqb_spec ((queue_tail mb + 1) mod cap) (queue_head mb)); [done|].
    destruct (lookup_lt_is_Some_2 (message_queue mb) (queue_tail mb)) as [old Hold];
      [done|].
    rewrite Hold. cbn [mbind option_bind].
    assert (match msg_data msg with
            | Some d =>
                if 0 <? msg_data_size msg
                then copy ← read d 0 (msg_data_size msg); Some (Some copy)
                else Some (Some d)
            | None => Some None
            end = Some (msg_data msg)) as Hdata.
    { unfold message_ok in Hmsg. destruct (msg_data msg) as [d|]; [|done].
      destruct (0 <? msg_data_size msg); [|done].
      unfold read. rewrite Hmsg, Nat.leb_refl, drop_0, firstn_all. done. }
    simpl. rewrite Hdata. cbn [mbind option_bind]. fold sent.
    set (mb' := mk_mailbox (<[queue_tail mb := sent]> (message_queue mb))
                           (queue_head mb) ((queue_tail mb + 1) mod cap)).
    assert (queue_capacity mb' = cap) as Hcap'
      by (unfold queue_capacity, mb'; simpl; by rewrite length_insert).
    exists mb'. split; [done|].
    split; [split; rewrite Hcap'; [done|apply Nat.mod_upper_bound; lia]|].
    split; [done|].
    assert (queue_count mb' = S (queue_count mb)) as Hcount.
    { unfold queue_count. rewrite Hcap'. fold cap. unfold mb'. simpl.
      rewrite Hnext. unfold queue_count in Hroom. fold cap in Hroom.
      destruct (Nat.ltb_spec (queue_tail mb + 1) cap);
        destruct (Nat.leb_spec (queue_head mb) (queue_tail mb));
        destruct (Nat.leb_spec (queue_head mb) (queue_tail mb + 1));
        destruct (Nat.leb_spec (queue_head mb) 0); lia. }
    unfold pending. rewrite Hcount, Hcap'. fold cap.
    unfold mb'. cbn [message_queue queue_head queue_tail].
    rewrite seq_S, fmap_app. simpl. f_equal.
    + apply list_fmap_ext. intros i k Hk. apply lookup_seq in Hk as [-> Hk].
      rewrite list_lookup_insert_ne; [done|].
      rewrite mod_wrap by lia. unfold queue_count in Hk. fold cap in Hk.
      destruct (Nat.ltb_spec (queue_head mb + (0 + i)) cap);
        destruct (Nat.leb_spec (queue_head mb) (queue_tail mb)); lia.
    + f_equal.
      assert ((queue_head mb + queue_count mb) mod cap = queue_tail mb) as ->.
      { rewrite mod_wrap by (unfold queue_count; fold cap;
                             destruct (Nat.leb_spec (queue_head mb) (queue_tail mb)); lia).
        unfold queue_count. fold cap.
        destruct (Nat.leb_spec (queue_head mb) (queue_tail mb));
          destruct (Nat.ltb_spec (queue_head mb + (queue_tail mb - queue_head mb)) cap);
          destruct (Nat.ltb_spec (queue_head mb + (queue_tail mb + cap - queue_head mb)) cap);
          lia. }
      by rewrite list_lookup_insert_eq.
  - intros Hfull.
    assert ((queue_tail mb + 1) mod cap = queue_head mb) as ->.
    { rewrite Hnext. unfold queue_count in Hfull. fold cap in Hfull.
      destruct (Nat.ltb_spec (queue_tail mb + 1) cap);
        destruct (Nat.leb_spec (queue_head mb) (queue_tail mb)); lia. }
    by rewrite Nat.eqb_refl.
Qed.

(** Receiving from a mailbox with waiting messages, and from an empty
    one. *)
Lemma rllm_recv_message_spec mb timeout_ms :
  mailbox_ok mb ->
  (forall msg rest, pending mb = msg :: rest ->
     rllm_has_messages mb = true
     /\ exists mb', rllm_recv_message mb timeout_ms = Some (RLLM_OK, Some msg, mb')
                    /\ mailbox_ok mb' /\ queue_capacity mb' = queue_capacity mb
                    /\ pending mb' = rest)
  /\ (pending mb = [] ->
      rllm_has_messages mb = false
      /\ ((0 < timeout_ms)%Z ->
          rllm_recv_message mb timeout_ms = Some (RLLM_ERROR_TIMEOUT, None, mb))).
Proof.
  intros [Hh Ht]. set (cap := queue_capacity mb) in *.
  assert (queue_count mb = 0 <-> queue_head mb = queue_tail mb) as Hzero.
  { unfold queue_count. fold cap.
    destruct (Nat.leb_spec (queue_head mb) (queue_tail mb)); lia. }
  split.
  - intros msg rest Hp.
    assert (queue_count mb = S (length rest)) as Hc
      by (rewrite <- pending_length, Hp; done).
    assert (queue_head mb <> queue_tail mb) as Hne by lia.
    unfold rllm_has_messages, rllm_recv_message.
    destruct (Nat.eqb_spec (queue_head mb) (queue_tail mb)); [done|].
    split; [done|].
    unfold pending in Hp. rewrite Hc in Hp. simpl in Hp.
    injection Hp as Hmsg Hrest.
    rewrite Nat.add_0_r, Nat.mod_small in Hmsg by done.
    destruct (lookup_lt_is_Some_2 (message_queue mb) (queue_head mb)) as [m Hm]; [done|].
    rewrite Hm in Hmsg |- *. simpl in Hmsg. subst m. cbn [mbind option_bind].
    set (mb' := mk_mailbox (message_queue mb) ((queue_head mb + 1) mod cap)
                           (queue_tail mb)).
    assert (queue_capacity mb' = cap) as Hcap' by done.
    exists mb'. split; [done|].
    split; [split; rewrite Hcap'; [apply Nat.mod_upper_bound; lia|done]|].
    split; [done|].
    assert (queue_count mb' = length rest) as Hcount.
    { unfold queue_count. rewrite Hcap'. unfold mb'. simpl.
      rewrite mod_wrap by lia. unfold queue_count in Hc. fold cap in Hc.
      destruct (Nat.ltb_spec (queue_head mb + 1) cap);
        destruct (Nat.leb_spec (queue_head mb) (queue_tail mb));
        destruct (Nat.leb_spec (queue_head mb + 1) (queue_tail mb));
        destruct (Nat.leb_spec (queue_head mb + 1 - cap) (queue_tail mb)); lia. }
    unfold pending. rewrite Hcount, Hcap'.
    unfold mb'. cbn [message_queue queue_head queue_tail].
    fold cap in Hrest.
    etransitivity; [|exact Hrest]. rewrite <- fmap_S_seq, <- list_fmap_compose.
    apply list_fmap_ext. intros i k _. simpl.
    rewrite Nat.Div0.add_mod_idemp_l.
    do 3 f_equal. lia.
  - intros Hp.
    assert (queue_head mb = queue_tail mb) as Heq.
    { apply Hzero. by rewrite <- pending_length, Hp. }
    unfold rllm_has_messages, rllm_recv_message. rewrite Heq, Nat.eqb_refl.
    split; [done|]. intros Hto. by destruct (Z.ltb_spec 0 timeout_ms); [|lia].
Qed.

(** X18. rllm_send_message into a mailbox that holds fewer than
    capacity - 1 messages returns RLLM_OK and appends the message,
    stamped with the ids of sender and receiver, behind the waiting ones;
    into a mailbox that holds capacity - 1 messages (31 for the mailbox of
    a new context) it returns RLLM_ERROR_MEMORY and changes nothing. *)
Theorem rllm_send_message_appends from to mb msg :
  mailbox_ok mb -> message_ok msg ->
  let sent := mk_message (msg_type msg) from to (msg_seq_num msg)
                         (msg_data_size msg) (msg_data msg) in
  (queue_count mb + 1 < queue_capacity mb ->
   exists mb', rllm_send_message from to mb msg = Some (RLLM_OK, mb')
               /\ mailbox_ok mb' /\ queue_capacity mb' = queue_capacity mb
               /\ pending mb' = pending mb ++ [sent])
  /\ (queue_count mb + 1 = queue_capacity mb ->
      rllm_send_message from to mb msg = Some (RLLM_ERROR_MEMORY, mb)).
Proof. intros Hmb Hmsg. exact (rllm_send_message_spec from to mb msg Hmb Hmsg). Qed.

(** X19. rllm_recv_message on a mailbox with waiting messages returns
    RLLM_OK with the oldest one and leaves the others waiting in their
    order; on an empty mailbox rllm_has_messages is false and a receive
    with a positive timeout returns RLLM_ERROR_TIMEOUT and changes
    nothing. *)
Theorem rllm_recv_message_oldest mb timeout_ms :
  mailbox_ok mb ->
  (forall msg rest, pending mb = msg :: rest ->
     rllm_has_messages mb = true
     /\ exists mb', rllm_recv_message mb timeout_ms = Some (RLLM_OK, Some msg, mb')
                    /\ mailbox_ok mb' /\ queue_capacity mb' = queue_capacity mb
                    /\ pending mb' = rest)
  /\ (pending mb = [] ->
      rllm_has_messages mb = false
      /\ ((0 < timeout_ms)%Z ->
          rllm_recv_message mb timeout_ms = Some (RLLM_ERROR_TIMEOUT, None, mb))).
Proof. intros Hmb. exact (rllm_recv_message_spec mb timeout_ms Hmb). Qed.

(** X20. Tokens sent with rllm_send_tokens into an empty mailbox are what
    the next rllm_recv_message delivers: a message of type Tokens,
    stamped with the two ids, whose 4 * n data bytes decode to the n
    tokens; the mailbox is empty again afterwards. *)
Theorem rllm_send_tokens_recv from to mb (toks : list Z) timeout_ms :
  mailbox_ok mb -> pending mb = [] -> 1 < queue_capacity mb -> Forall is_int32 toks ->
  exists mb1 msg data mb2,
    rllm_send_tokens from to mb toks = Some (RLLM_OK, mb1)
    /\ rllm_recv_message mb1 timeout_ms = Some (RLLM_OK, Some msg, mb2)
    /\ msg_type msg = RLLM_MSG_TOKENS
    /\ msg_sender msg = from /\ msg_receiver msg = to
    /\ msg_data_size msg = 4 * length toks
    /\ msg_data msg = Some data /\ int32s_of_bytes (length toks) data = toks
    /\ pending mb2 = [].
Proof.
  intros Hmb Hempty Hcap Htoks. unfold rllm_send_tokens.
  set (msg0 := mk_message RLLM_MSG_TOKENS 0 0 0 (length toks * 4)
                          (Some (flat_map bytes_of_int32 toks))).
  assert (message_ok msg0) as Hmsg.
  { unfold message_ok. simpl. rewrite length_bytes_of_int32s. lia. }
  assert (queue_count mb = 0) as Hcount by (by rewrite <- pending_length, Hempty).
  destruct (proj1 (rllm_send_message_spec from to mb msg0 Hmb Hmsg))
    as (mb1 & Hsend & Hmb1 & _ & Hp1); [lia|].
  rewrite Hempty in Hp1. simpl in Hp1.
  destruct (proj1 (rllm_recv_message_spec mb1 timeout_ms Hmb1) _ _ Hp1)
    as (_ & mb2 & Hrecv & _ & _ & Hp2).
  eexists mb1, _, _, mb2. split; [done|]. split; [done|]. simpl.
  split; [done|]. split; [done|]. split; [done|]. split; [lia|].
  split; [done|]. split; [|done].
  rewrite <- (app_nil_r (flat_map bytes_of_int32 toks)).
  by apply int32s_of_bytes_flat_map.
Qed.

End Mailbox.

Section Pool.
Context `{llama_api}.
Implicit Types (env : rllm_env_t) (h : gmap ptr rllm_context_t).

Local Arguments rllm_free_context_internal : simpl never.

Lemma pool_step_refl env : pool_step env env.
Proof. split; [done|]. left. lia. Qed.

Lemma length_remove_first p (l : list ptr) : length (remove_first p l) <= length l.
Proof.
  induction l as [|q l IH]; simpl; [done|]. destruct (q =? p); simpl; lia.
Qed.

Lemma length_remove_first_snoc p (l : list ptr) :
  length (remove_first p (l ++ [p])) = length l.
Proof.
  induction l as [|q l IH]; simpl.
  - by rewrite Nat.eqb_refl.
  - destruct (q =? p); simpl; [by rewrite length_app; simpl; lia|by rewrite IH].
Qed.

Lemma rllm_alloc_context_pool env p env1 :
  rllm_alloc_context env = (Some p, env1) ->
  (Z.of_nat (n_contexts env) < max_contexts (env_config env))%Z
  /\ env_contexts env1 = env_contexts env ++ [p]
  /\ env_config env1 = env_config env.
Proof.
  unfold rllm_alloc_context.
  destruct (Z.leb_spec (max_contexts (env_config env)) (Z.of_nat (n_contexts env)));
    [done|].
  by intros [= <- <-].
Qed.

Lemma pool_step_added env env1 env' p :
  rllm_alloc_context env = (Some p, env1) ->
  env_config env' = env_config env1 -> env_contexts env' = env_contexts env1 ->
  pool_step env env'.
Proof.
  intros Halloc Hcfg Hpool. apply rllm_alloc_context_pool in Halloc as (Hroom & Hc & Hcfg1).
  split; [congruence|]. right. unfold n_contexts. rewrite Hpool, Hc, length_app.
  simpl. split; [lia|done].
Qed.

Lemma pool_step_failed env env1 p :
  rllm_alloc_context env = (Some p, env1) ->
  pool_step env (free_context (rllm_remove_from_pool env1 p) p).
Proof.
  intros Halloc. apply rllm_alloc_context_pool in Halloc as (Hroom & Hc & Hcfg1).
  split; [done|]. left. unfold n_contexts. simpl. rewrite Hc, length_remove_first_snoc.
  done.
Qed.

Lemma rllm_create_root_pool env config r env' :
  rllm_create_root env config = Some (r, env') -> pool_step env env'.
Proof.
  unfold rllm_create_root.
  destruct (rllm_alloc_context env) as [[p|] env1] eqn:Halloc.
  - destruct (env_heap env1 !! p) as [c|]; [|done]. simpl.
    destruct (llama_new_context_with_model _) as [lctx|]; intros [= <- <-].
    + eapply pool_step_added; [done|..].
      * rewrite fire_config. by destruct (length (env_roots _) <? 8).
      * rewrite fire_contexts. by destruct (length (env_roots _) <? 8).
    + by apply pool_step_failed.
  - apply rllm_alloc_context_null in Halloc as ->. intros [= <- <-]. apply pool_step_refl.
Qed.

Lemma rllm_spawn_child_pool env parent config r env' :
  rllm_spawn_child env parent config = Some (r, env') -> pool_step env env'.
Proof.
  unfold rllm_spawn_child. destruct parent as [parent|]; [|intros [= <- <-]; apply pool_step_refl].
  destruct (env_heap env !! parent) as [par|]; [|done]. simpl.
  destruct (_ <=? _)%Z; [intros [= <- <-]; apply pool_step_refl|].
  destruct (rllm_alloc_context env) as [[p|] env1] eqn:Halloc.
  - destruct (env_heap env1 !! p) as [c|]; [|done]. simpl.
    destruct (llama_new_context_with_model _) as [lctx|].
    + destruct (share_from_parent _ _ _) as [child_te|]; [|done]. simpl.
      destruct (rllm_add_child _ _ _) as [h|]; [|done]. simpl.
      destruct (h !! p) as [c1|]; [|done]. simpl. intros [= <- <-].
      eapply pool_step_added; [done|..].
      * rewrite !fire_config. simpl. by destruct (_ <? _)%Z.
      * rewrite !fire_contexts. simpl. by destruct (_ <? _)%Z.
    + intros [= <- <-]. by apply pool_step_failed.
  - apply rllm_alloc_context_null in Halloc as ->. intros [= <- <-]. apply pool_step_refl.
Qed.

Lemma rllm_destroy_pool env ctx e env' :
  rllm_destroy env ctx = Some (e, env') -> pool_step env env'.
Proof.
  unfold rllm_destroy. rewrite fire_heap.
  destruct (env_heap env !! ctx) as [c|]; [|done]. simpl.
  match goal with |- context [mbind _ ?m] => destruct m as [h1|] end; [|done].
  cbn [mbind option_bind].
  destruct (rllm_free_context_internal (S (size h1)) h1 ctx) as [h2|]; [|done].
  cbn [mbind option_bind].
  intros [= <- <-]. split; [simpl; by rewrite fire_config|]. left.
  unfold n_contexts. simpl. rewrite fire_contexts. apply length_remove_first.
Qed.

Lemma rllm_fork_pool env source r env' :
  rllm_fork env source = Some (r, env') -> pool_step env env'.
Proof.
  unfold rllm_fork. destruct source as [source|]; [|intros [= <- <-]; apply pool_step_refl].
  destruct (env_heap env !! source) as [src|]; [|done]. simpl.
  destruct (rllm_spawn_child _ _ _) as [[ctx env1]|] eqn:Hspawn; [|done]. simpl.
  apply rllm_spawn_child_pool in Hspawn.
  destruct ctx as [ctx|]; [|by intros [= <- <-]].
  destruct (env_heap env1 !! ctx) as [c|]; [|done]. simpl. by intros [= <- <-].
Qed.

Lemma rllm_create_peer_pool env peer config r env' :
  rllm_create_peer env peer config = Some (r, env') -> pool_step env env'.
Proof.
  unfold rllm_create_peer. destruct peer as [peer|]; [|intros [= <- <-]; apply pool_step_refl].
  destruct (rllm_alloc_context env) as [[p|] env1] eqn:Halloc.
  - destruct (env_heap env !! peer) as [pe|]; [|done]. simpl.
    destruct (env_heap env1 !! p) as [c|]; [|done]. simpl.
    destruct (llama_new_context_with_model _) as [lctx|].
    + match goal with |- context [mbind _ ?m] => destruct m as [h|] end; [|done]. simpl.
      intros [= <- <-]. eapply pool_step_added; [done|..].
      * by rewrite fire_config.
      * by rewrite fire_contexts.
    + intros [= <- <-]. by apply pool_step_failed.
  - apply rllm_alloc_context_null in Halloc as ->. intros [= <- <-]. apply pool_step_refl.
Qed.

Lemma rllm_apply_pool c env env' : rllm_apply c env = Some env' -> pool_step env env'.
Proof.
  destruct c as [config|parent config|ctx|a b d]; simpl.
  - destruct (rllm_create_root env config) as [[r e]|] eqn:Hc; [|done].
    intros [= <-]. by eapply rllm_create_root_pool.
  - destruct (rllm_spawn_child env parent config) as [[r e]|] eqn:Hc; [|done].
    intros [= <-]. by eapply rllm_spawn_child_pool.
  - destruct (rllm_destroy env ctx) as [[r e]|] eqn:Hc; [|done].
    intros [= <-]. by eapply rllm_destroy_pool.
  - intros [= <-]. split; [done|]. left. done.
Qed.

(** X21. In every environment reached from rllm_init by
    rllm_create_root, rllm_spawn_child, rllm_fork, rllm_create_peer,
    rllm_destroy and callback installation the configuration is the one
    given to rllm_init and the context pool holds at most max_contexts
    pointers. *)
Theorem rllm_pool_bounded config env :
  rllm_session config env ->
  env_config env = config
  /\ (Z.of_nat (n_contexts env) <= Z.max 0 (max_contexts config))%Z.
Proof.
  assert (forall e e', pool_step e e' ->
            env_config e = config
            /\ (Z.of_nat (n_contexts e) <= Z.max 0 (max_contexts config))%Z ->
            env_config e' = config
            /\ (Z.of_nat (n_contexts e') <= Z.max 0 (max_contexts config))%Z) as Hstep.
  { intros e e' [Hcfg Hn] [He Hb]. split; [congruence|]. rewrite He in Hn.
    destruct (Z.max_spec 0 (max_contexts config)) as [[? Hm]|[? Hm]];
      rewrite Hm in *; destruct Hn as [Hn|[Hn Hroom]]; lia. }
  induction 1 as [|env env' c _ IH Hc|env env' source ctx _ IH Hc
                 |env env' peer ctx cfg _ IH Hc].
  - split; [done|]. simpl. apply Z.le_max_l.
  - eapply Hstep; [|exact IH]. by eapply rllm_apply_pool.
  - eapply Hstep; [|exact IH]. by eapply rllm_fork_pool.
  - eapply Hstep; [|exact IH]. by eapply rllm_create_peer_pool.
Qed.

End Pool.

Section Tree.
Context `{llama_api}.
Implicit Types (env : rllm_env_t) (h : gmap ptr rllm_context_t).

Local Arguments rllm_free_context_internal : simpl never.

(** X22. rllm_create_root with a full pool returns null and changes
    nothing. With room in the pool: when the adapter gives no context it
    returns null with heap, pool size, roots and callback log as before
    (the context id is used up); otherwise it returns a new object with
    the next id, relation Root, depth 0, no parent, no children, a fresh
    empty editor and the given configuration, appended to the pool and,
    while fewer than 8 roots are recorded, to the roots, and it fires the
    creation callback. *)
Theorem rllm_create_root_outcomes env config :
  let cparams := mk_cparams (n_ctx config) (n_batch config) (n_threads config)
                            (n_threads config) in
  ((max_contexts (env_config env) <= Z.of_nat (n_contexts env))%Z ->
   rllm_create_root env config = Some (None, env))
  /\ ((Z.of_nat (n_contexts env) < max_contexts (env_config env))%Z ->
      match llama_new_context_with_model cparams with
      | None =>
          exists env',
            rllm_create_root env config = Some (None, env')
            /\ env_heap env' = env_heap env /\ n_contexts env' = n_contexts env
            /\ env_roots env' = env_roots env /\ env_events env' = env_events env
            /\ env_next_ctx_id env' = to_uint32 (env_next_ctx_id env + 1)
      | Some lctx =>
          exists ctx env',
            rllm_create_root env config = Some (Some ctx, env')
            /\ env_heap env !! ctx = None
            /\ env_heap env'
               = <[ctx := mk_rc (env_next_ctx_id env) RLLM_REL_ROOT RLLM_STATE_IDLE
                                None [] 0%Z (Some (te_init lctx)) config]> (env_heap env)
            /\ env_contexts env' = env_contexts env ++ [ctx]
            /\ env_roots env' = (if length (env_roots env) <? 8
                                 then env_roots env ++ [ctx] else env_roots env)
            /\ env_events env'
               = env_events env
                 ++ (if env_on_context_create env then [Ev_context_create ctx] else [])
      end).
Proof.
  intros cparams. unfold rllm_create_root, rllm_alloc_context. split.
  - intros Hfull.
    by destruct (Z.leb_spec (max_contexts (env_config env)) (Z.of_nat (n_contexts env)));
      [|lia].
  - intros Hroom.
    destruct (Z.leb_spec (max_contexts (env_config env)) (Z.of_nat (n_contexts env)));
      [lia|].
    set (p := fresh (dom (env_heap env))).
    assert (env_heap env !! p = None) as Hfresh by apply not_elem_of_dom, is_fresh.
    cbn [env_heap]. rewrite lookup_insert_eq. cbn [mbind option_bind].
    fold cparams. destruct (llama_new_context_with_model cparams) as [lctx|].
    + exists p. eexists. split; [done|]. split; [done|].
      rewrite fire_heap. unfold fire. simpl.
      destruct (length (env_roots env) <? 8), (env_on_context_create env); simpl;
        rewrite insert_insert_eq; repeat split; try done; by rewrite app_nil_r.
    + eexists. split; [done|]. simpl. split; [by rewrite delete_insert_id|].
      unfold n_contexts. simpl. by rewrite length_remove_first_snoc.
Qed.

(** X23. rllm_destroy of a context without children, whose parent (if
    any) is a live object other than itself, returns RLLM_OK, frees the
    object, takes its first occurrence out of the pool, of the roots and
    of its parent's child list, fires the destroy callback and leaves
    every other object as it is. *)
Theorem rllm_destroy_leaf env ctx c :
  env_heap env !! ctx = Some c -> rc_children c = [] ->
  match rc_parent c with
  | Some parent => parent <> ctx /\ is_Some (env_heap env !! parent)
  | None => True
  end ->
  exists env',
    rllm_destroy env ctx = Some (RLLM_OK, env')
    /\ env_heap env' !! ctx = None
    /\ env_contexts env' = remove_first ctx (env_contexts env)
    /\ env_roots env' = remove_first ctx (env_roots env)
    /\ env_events env'
       = env_events env
         ++ (if env_on_context_destroy env then [Ev_context_destroy ctx] else [])
    /\ (forall q, q <> ctx -> rc_parent c <> Some q ->
          env_heap env' !! q = env_heap env !! q)
    /\ (forall parent par, rc_parent c = Some parent ->
          env_heap env !! parent = Some par ->
          env_heap env' !! parent
          = Some (set_rc_children (remove_first ctx (rc_children par)) par)).
Proof.
  intros Hc Hleaf Hpar. unfold rllm_destroy. rewrite fire_heap, Hc.
  cbn [mbind option_bind].
  assert (forall h c0, h !! ctx = Some c0 -> rc_children c0 = [] ->
            rllm_free_context_internal (S (size h)) h ctx = Some (delete ctx h)) as Hfree.
  { intros h c0 Hh Hl. unfold rllm_free_context_internal. rewrite Hh. simpl.
    by rewrite Hl. }
  assert (env_events (fire (env_on_context_destroy env) (Ev_context_destroy ctx) env)
          = env_events env
            ++ (if env_on_context_destroy env then [Ev_context_destroy ctx] else []))
    as Hev.
  { unfold fire. destruct (env_on_context_destroy env); simpl; [done|by rewrite app_nil_r]. }
  destruct (rc_parent c) as [parent|] eqn:Hp.
  - destruct Hpar as [Hne [par Hparent]].
    unfold rllm_remove_child. rewrite Hparent. cbn [mbind option_bind].
    destruct (bool_decide (ctx ∈ rc_children par)) eqn:Hin.
    + rewrite lookup_insert_ne by done. rewrite Hc. cbn [mbind option_bind].
      match goal with
      | |- context [rllm_free_context_internal (S (size ?h)) ?h ctx] =>
          rewrite (Hfree h (set_rc_parent None c)); [|by rewrite lookup_insert_eq|done]
      end.
      cbn [mbind option_bind]. eexists. split; [done|]. simpl.
      rewrite fire_contexts, Hev.
      split; [by rewrite lookup_delete_eq|]. split; [done|].
      split; [unfold fire; by destruct (env_on_context_destroy env)|]. split; [done|].
      split.
      * intros q Hq Hqp. rewrite lookup_delete_ne by done.
        rewrite lookup_insert_ne by done. rewrite lookup_insert_ne by congruence. done.
      * intros parent' par' [= <-] Hpar'. rewrite Hparent in Hpar'. injection Hpar' as <-.
        rewrite lookup_delete_ne by done. rewrite lookup_insert_ne by done.
        by rewrite lookup_insert_eq.
    + cbn [mbind option_bind]. rewrite (Hfree (env_heap env) c) by done.
      cbn [mbind option_bind]. eexists. split; [done|]. simpl.
      rewrite fire_contexts, Hev.
      split; [by rewrite lookup_delete_eq|]. split; [done|].
      split; [unfold fire; by destruct (env_on_context_destroy env)|]. split; [done|].
      split.
      * intros q Hq Hqp. by rewrite lookup_delete_ne.
      * intros parent' par' [= <-] Hpar'. rewrite Hparent in Hpar'. injection Hpar' as <-.
        rewrite lookup_delete_ne by done. rewrite Hparent. f_equal.
        apply bool_decide_eq_false in Hin.
        assert (forall l : list ptr, ctx ∉ l -> remove_first ctx l = l) as Hid.
        { induction l as [|q l IH]; [done|]. intros Hn. apply not_elem_of_cons in Hn as [? ?].
          simpl. destruct (Nat.eqb_spec q ctx); [done|]. by rewrite IH. }
        rewrite Hid by done.
        match goal with |- ?x = set_rc_children _ ?y => by destruct y end.
  - cbn [mbind option_bind]. rewrite (Hfree (env_heap env) c) by done.
    cbn [mbind option_bind]. eexists. split; [done|]. simpl.
    rewrite fire_contexts, Hev.
    split; [by rewrite lookup_delete_eq|]. split; [done|].
    split; [unfold fire; by destruct (env_on_context_destroy env)|]. split; [done|].
    split; [|done]. intros q Hq _. by rewrite lookup_delete_ne.
Qed.

Lemma rllm_spawn_child_heap env parent par config child env' :
  env_heap env !! parent = Some par ->
  rllm_spawn_child env (Some parent) config = Some (Some child, env') ->
  env_heap env !! child = None
  /\ exists c,
       env_heap env'
       = <[child := c]>
           (<[parent := set_rc_children (rc_children par ++ [child]) par]> (env_heap env))
       /\ rc_parent c = Some parent
       /\ rc_depth c = to_uint32 (rc_depth par + 1).
Proof.
  intros Hpar. unfold rllm_spawn_child. rewrite Hpar. simpl.
  destruct (_ <=? _)%Z eqn:Hdepth; [done|].
  destruct (rllm_alloc_context env) as [[p|] env1] eqn:Halloc; [|done].
  apply rllm_alloc_context_inv in Halloc
    as (Hfresh & (c0 & Hheap & Hd0 & Hp0 & Hc0 & He0) & Hpool & Hcfg).
  rewrite Hheap, lookup_insert_eq. simpl.
  destruct (llama_new_context_with_model _) as [lctx|] eqn:Hnew; [|done].
  destruct (share_from_parent _ _ _) as [child_te|] eqn:Hshare; simpl; [|done].
  assert (parent <> p) as Hne by (intros ->; congruence).
  unfold rllm_add_child.
  rewrite insert_insert_eq, lookup_insert_ne by done. rewrite Hpar. simpl.
  rewrite lookup_insert_ne by done. rewrite lookup_insert_eq. simpl.
  rewrite lookup_insert_eq. simpl.
  intros [= <- <-]. split; [done|]. eexists. split.
  { rewrite !fire_heap. simpl.
    match goal with |- context [if ?b then set_env_peak_depth _ _ else _] =>
      destruct b end; simpl.
    - rewrite (insert_insert_ne _ parent p) by done. by rewrite insert_insert_eq.
    - rewrite (insert_insert_ne _ parent p) by done. by rewrite insert_insert_eq. }
  done.
Qed.

Lemma rllm_get_root_loop_frame fuel h h' q root :
  (forall x cx, h !! x = Some cx ->
     exists cx', h' !! x = Some cx' /\ rc_parent cx' = rc_parent cx) ->
  rllm_get_root_loop fuel h q = Some root ->
  rllm_get_root_loop fuel h' q = Some root.
Proof.
  intros Hframe. revert q. induction fuel as [|fuel IH]; intros q; [done|].
  simpl. destruct (h !! q) as [cq|] eqn:Hq; [|done].
  destruct (Hframe q cq Hq) as (cq' & -> & Hp). simpl. rewrite Hp.
  destruct (rc_parent cq); [apply IH|done].
Qed.

(** X24. What the lookups say about a freshly spawned child: its parent
    is the context it was spawned from, its depth is the parent's depth
    plus one (a uint32_t sum), and its root is the parent's root; the
    walk to the root takes one step more than the walk from the
    parent. *)
Theorem rllm_spawn_child_lookups env parent par config child env' fuel root :
  env_heap env !! parent = Some par ->
  rllm_spawn_child env (Some parent) config = Some (Some child, env') ->
  rllm_get_root fuel (env_heap env) (Some parent) = Some (Some root) ->
  rllm_get_parent (env_heap env') (Some child) = Some (Some parent)
  /\ rllm_get_depth (env_heap env') (Some child)
     = (fun d => to_uint32 (d + 1)) <$> rllm_get_depth (env_heap env) (Some parent)
  /\ rllm_get_root (S fuel) (env_heap env') (Some child) = Some (Some root).
Proof.
  intros Hpar Hspawn Hroot.
  destruct (rllm_spawn_child_heap _ _ _ _ _ _ Hpar Hspawn)
    as (Hfresh & c & Hheap & Hcp & Hcd).
  unfold rllm_get_parent, rllm_get_depth, rllm_get_root in *.
  rewrite Hheap, lookup_insert_eq, Hpar. simpl. rewrite Hcp, Hcd.
  split; [done|]. split; [done|].
  rewrite lookup_insert_eq. cbn [mbind option_bind]. rewrite Hcp.
  destruct (rllm_get_root_loop fuel (env_heap env) parent) as [r|] eqn:Hr; [|done].
  injection Hroot as ->.
  match goal with |- Some <$> ?x = _ => enough (x = Some root) as -> by done end.
  eapply rllm_get_root_loop_frame; [|done].
  intros x cx Hx.
  assert (x <> child) as Hxc by (intros ->; congruence).
  rewrite lookup_insert_ne by done.
  destruct (decide (x = parent)) as [->|Hxp].
  - rewrite lookup_insert_eq. rewrite Hpar in Hx. injection Hx as <-. by eexists.
  - rewrite lookup_insert_ne by done. by eexists.
Qed.

(** X25. rllm_fork of a root returns null and changes nothing.
    A successful fork of a context below a root is a new object with
    relation Fork whose parent is the source's parent, one level below
    that parent, with the source's configuration in share mode Full; its
    editor starts with the tokens of the source's parent (at most
    INT32_MAX of them), not with those of the source. *)
Theorem rllm_fork_of_parent env source src :
  env_heap env !! source = Some src ->
  (rc_parent src = None -> rllm_fork env (Some source) = Some (None, env))
  /\ (forall parent par ctx env',
        rc_parent src = Some parent -> env_heap env !! parent = Some par ->
        rllm_fork env (Some source) = Some (Some ctx, env') ->
        env_heap env !! ctx = None
        /\ exists c child_te,
             env_heap env' !! ctx = Some c
             /\ rc_relation c = RLLM_REL_FORK
             /\ rc_parent c = Some parent
             /\ rc_depth c = to_uint32 (rc_depth par + 1)
             /\ rc_config c
                = mk_ctx_config (n_ctx (rc_config src)) (n_batch (rc_config src))
                                (n_threads (rc_config src)) RLLM_SHARE_FULL
                                (inherit_prompt (rc_config src))
                                (inherit_sampling (rc_config src))
             /\ rc_token_editor c = Some child_te
             /\ (forall parent_te,
                   rc_token_editor par = Some parent_te ->
                   (Z.of_nat (n_tokens parent_te) <= INT32_MAX)%Z ->
                   tokens child_te = tokens parent_te)).
Proof.
  intros Hsrc. unfold rllm_fork. rewrite Hsrc. cbn [mbind option_bind]. split.
  - intros ->. done.
  - intros parent par ctx env' Hp Hpar. rewrite Hp.
    destruct (rllm_spawn_child env (Some parent) _) as [[[child|] env1]|] eqn:Hspawn;
      cbn [mbind option_bind]; [|done|done].
    destruct (rllm_spawn_child_inv _ _ _ _ _ _ Hpar Hspawn)
      as (Hfresh & _ & _ & lctx & child_te & c & _ & Hshare & Hc & Hte & Hd & Hcp & _ & Hcfg).
    rewrite Hc. cbn [mbind option_bind]. intros [= <- <-].
    split; [done|]. eexists _, child_te. simpl. rewrite lookup_insert_eq.
    split; [done|]. simpl. repeat (split; [done|]).
    intros parent_te Hpte Hmax.
    unfold share_from_parent in Hshare. simpl in Hshare. rewrite Hpte in Hshare.
    simpl in Hshare.
    destruct (share_tokens_copy parent_te
                (set_llama_ctx (llama_set_state_data (llama_ctx (te_init lctx))
                                  (llama_copy_state_data (llama_ctx parent_te)))
                               (te_init lctx))) as (child' & Heq & Htok & _);
      [apply wf_te_init|done..|].
    simpl in Heq. unfold te_token_t in *. rewrite Heq in Hshare.
    by injection Hshare as <-.
Qed.

(** X26. A peer of a root: rllm_create_peer, when it succeeds on a peer
    without parent, returns a new object with the next id, relation
    Peer, no parent, no children, the peer's depth, a fresh empty editor
    and the given configuration; it is appended to the pool, and the
    recorded roots stay as they are. *)
Theorem rllm_create_peer_of_root env peer p config ctx env' :
  env_heap env !! peer = Some p -> rc_parent p = None ->
  rllm_create_peer env (Some peer) config = Some (Some ctx, env') ->
  env_heap env !! ctx = None
  /\ (exists lctx,
        env_heap env'
        = <[ctx := mk_rc (env_next_ctx_id env) RLLM_REL_PEER RLLM_STATE_IDLE None []
                         (rc_depth p) (Some (te_init lctx)) config]> (env_heap env))
  /\ env_contexts env' = env_contexts env ++ [ctx]
  /\ env_roots env' = env_roots env.
Proof.
  intros Hp Hroot. unfold rllm_create_peer, rllm_alloc_context.
  destruct (_ <=? _)%Z; [done|].
  set (q := fresh (dom (env_heap env))).
  assert (env_heap env !! q = None) as Hfresh by apply not_elem_of_dom, is_fresh.
  rewrite Hp. cbn [mbind option_bind env_heap]. rewrite lookup_insert_eq.
  cbn [mbind option_bind]. rewrite Hroot.
  destruct (llama_new_context_with_model _) as [lctx|]; [|done].
  cbn [mbind option_bind]. intros [= <- <-]. split; [done|].
  rewrite fire_heap. unfold fire. simpl.
  split; [exists lctx; by rewrite insert_insert_eq|].
  by destruct (env_on_context_create env).
Qed.

End Tree.

Section Lookup.
Context `{llama_api}.
Implicit Types (env : rllm_env_t) (h : gmap ptr rllm_context_t).

(** X27. While every pointer of the pool refers to a live context,
    rllm_get_context returns the first context of the pool that has the
    id asked for, and null exactly when no context of the pool has it. *)
Theorem rllm_get_context_first env id :
  Forall (fun p => is_Some (env_heap env !! p)) (env_contexts env) ->
  exists r,
    rllm_get_context env id = Some r
    /\ match r with
       | Some p =>
           exists before after c,
             env_contexts env = before ++ p :: after
             /\ env_heap env !! p = Some c /\ rc_id c = id
             /\ forall q cq, q ∈ before -> env_heap env !! q = Some cq -> rc_id cq <> id
       | None =>
           forall q cq, q ∈ env_contexts env -> env_heap env !! q = Some cq -> rc_id cq <> id
       end.
Proof.
  unfold rllm_get_context. generalize (env_contexts env) as pool.
  induction pool as [|p pool IH]; intros Hlive; simpl.
  { exists None. split; [done|]. intros q cq Hq. by apply elem_of_nil in Hq. }
  apply Forall_cons in Hlive as [[c Hc] Hlive]. rewrite Hc. simpl.
  destruct (Z.eqb_spec (rc_id c) id) as [Hid|Hid].
  - exists (Some p). split; [done|]. exists [], pool, c. repeat split; try done.
    intros q cq Hq. by apply elem_of_nil in Hq.
  - destruct (IH Hlive) as (r & -> & Hr). exists r. split; [done|].
    destruct r as [p'|].
    + destruct Hr as (before & after & c' & -> & Hc' & Hid' & Hbefore).
      exists (p :: before), after, c'. repeat split; try done.
      intros q cq Hq Hcq. apply elem_of_cons in Hq as [->|Hq]; [congruence|].
      by apply (Hbefore q cq).
    + intros q cq Hq Hcq. apply elem_of_cons in Hq as [->|Hq]; [congruence|].
      by apply (Hr q cq).
Qed.

End Lookup.

(** * Concrete runs *)

Local Open Scope Z_scope.

(** C1 (the code departs from the claim). After set_token(1, 9) on the
    buffer [0, 1, 2], te_undo restores [0, 1, 2] but te_redo replays the
    saved old token and leaves [0, 1, 2] instead of [0, 9, 2]; after
    replace([0, 1), [7, 8]) te_undo leaves [0, 8, 1, 2] instead of
    [0, 1, 2]. *)
Theorem te_undo_redo_of_replace_diverges :
  tokens editor_abc = [0; 1; 2]
  /\ te_set_token editor_abc 1 0 9 = Some (TE_OK, editor_set)
  /\ tokens editor_set = [0; 9; 2]
  /\ tokens (te_after (te_undo editor_set)) = [0; 1; 2]
  /\ (exists ctx, te_redo (te_after (te_undo editor_set)) = Some (TE_OK, ctx)
                  /\ tokens ctx = [0; 1; 2])
  /\ te_replace_tokens editor_abc (mk_range 0 1 0) [7; 8] = Some (TE_OK, editor_replaced)
  /\ tokens editor_replaced = [7; 8; 1; 2]
  /\ (exists ctx, te_undo editor_replaced = Some (TE_OK, ctx)
                  /\ tokens ctx = [0; 8; 1; 2]).
Proof.
  repeat split; try (vm_compute; reflexivity).
  - eexists. split; vm_compute; reflexivity.
  - eexists. split; vm_compute; reflexivity.
Qed.





Lemma te_undo_redo_nothing_to_do_witness :
  te_undo stub_editor = Some (TE_OK, stub_editor)
  /\ te_redo stub_editor = Some (TE_OK, stub_editor).
Proof.
  split.
  - apply (proj1 (te_undo_redo_nothing_to_do stub_editor)). reflexivity.
  - apply (proj2 (te_undo_redo_nothing_to_do stub_editor)). reflexivity.
Defined.



Lemma te_export_binary_format_witness :
  (exists out,
     te_export_binary editor_five 0 (replicate 10 170) 8 = Some (TE_OK, out, 8%nat)
     /\ length out = 10%nat
     /\ Forall is_byte (take 8 out)
     /\ le_value (take 4 out) = 1
     /\ (forall j t, tokens editor_five !! j = Some t ->
                     le_value (take 4 (drop (4 + 4 * j) out)) = to_uint32 t)
     /\ drop 8 out = drop 8 (replicate 10 170)
     /\ (n_tokens editor_five = 0%nat -> take 4 out = [0; 0; 0; 0]))
  /\ te_export_binary editor_five 0 (replicate 10 170) 7
     = Some (TE_ERROR_BUFFER_TOO_SMALL, replicate 10 170, 8%nat).
Proof.
  split.
  - apply (proj1 (te_export_binary_format editor_five 0 (replicate 10 170) 8)).
    + vm_compute. lia.
    + vm_compute. lia.
    + vm_compute. reflexivity.
  - apply (proj2 (te_export_binary_format editor_five 0 (replicate 10 170) 7)).
    vm_compute. lia.
Defined.

Lemma te_export_import_binary_witness :
  exists out ctx',
    te_export_binary editor_five 0 (replicate 8%nat 0) 8 = Some (TE_OK, out, 8%nat)
    /\ te_import_binary stub_editor 0 out 8 = Some (TE_OK, ctx')
    /\ tokens ctx' = tokens editor_five
    /\ kv_cache_dirty ctx' = true /\ logits_valid ctx' = false.
Proof.
  apply (te_export_import_binary editor_five stub_editor 0 0 (replicate 8%nat 0) 8).
  - vm_compute. lia.
  - vm_compute. lia.
  - vm_compute. reflexivity.
  - repeat constructor; vm_compute; discriminate.
  - vm_compute. lia.
Defined.

Lemma history_limit_keeps_most_recent_witness :
  length (history editor_limit2_c) = 2%nat
  /\ history editor_limit2_c
     = [edit_op_of (Call_insert_tokens 1 0 [2]) editor_limit2_a;
        edit_op_of (Call_insert_tokens 2 0 [3]) editor_limit2_b].
Proof.
  apply (history_limit_keeps_most_recent editor_limit2
           [edit_op_of (Call_insert_tokens 0 0 [1]) editor_limit2;
            edit_op_of (Call_insert_tokens 1 0 [2]) editor_limit2_a;
            edit_op_of (Call_insert_tokens 2 0 [3]) editor_limit2_b]
           editor_limit2_c).
  - reflexivity.
  - vm_compute. lia.
  - apply (recorded_run_cons editor_limit2 (Call_insert_tokens 0 0 [1]) editor_limit2_a);
      [reflexivity|reflexivity|vm_compute; reflexivity|].
    apply (recorded_run_cons editor_limit2_a (Call_insert_tokens 1 0 [2]) editor_limit2_b);
      [reflexivity|reflexivity|vm_compute; reflexivity|].
    apply (recorded_run_cons editor_limit2_b (Call_insert_tokens 2 0 [3]) editor_limit2_c);
      [reflexivity|reflexivity|vm_compute; reflexivity|].
    apply recorded_run_nil.
  - vm_compute. lia.
Defined.

Lemma te_insert_undo_redo_witness :
  exists ctx1 ctx2 ctx3,
    te_insert_tokens editor_abc 1 0 [7; 7] = Some (TE_OK, ctx1)
    /\ te_undo ctx1 = Some (TE_OK, ctx2) /\ tokens ctx2 = tokens editor_abc
    /\ te_redo ctx2 = Some (TE_OK, ctx3) /\ tokens ctx3 = tokens ctx1.
Proof.
  apply (te_insert_undo_redo editor_abc 1 0 [7; 7]).
  - split; [vm_compute; lia|reflexivity].
  - reflexivity.
  - reflexivity.
  - vm_compute. split; discriminate.
  - discriminate.
  - vm_compute. discriminate.
Defined.




(** ** The environment *)

(** C4 (the code departs from the claim). rllm_destroy of a root with one
    child returns RLLM_OK; the child object is freed but its pointer
    stays in the pool, n_contexts goes from 2 to 1 although 1 + the
    number of descendants is 2, and a later rllm_get_context walks into
    the freed object. *)
Theorem rllm_destroy_leaves_descendants_in_pool :
  env_contexts env_child = [0; 1]%nat
  /\ rllm_count_descendants 3 (env_heap env_child) 0%nat = Some 1%nat
  /\ exists env',
       rllm_destroy env_child 0%nat = Some (RLLM_OK, env')
       /\ env_contexts env' = [1]%nat
       /\ env_heap env' !! 0%nat = None /\ env_heap env' !! 1%nat = None
       /\ n_contexts env' = (n_contexts env_child - 1)%nat
       /\ rllm_get_context env' 1 = None.
Proof.
  split; [vm_compute; reflexivity|]. split; [vm_compute; reflexivity|].
  eexists. split; [vm_compute; reflexivity|].
  repeat split; vm_compute; reflexivity.
Qed.



Lemma rllm_spawn_child_depth_sum_witness :
  exists par, env_heap env_grandchild !! 2%nat = Some par
              /\ 0 <= rc_depth par /\ to_uint32 (rc_depth par + 1) = rc_depth par + 1.
Proof.
  destruct (env_heap env_grandchild !! 2%nat) as [par|] eqn:Hpar;
    [|vm_compute in Hpar; discriminate].
  exists par. split; [reflexivity|].
  apply (rllm_spawn_child_depth_sum (env_config env_empty) env_grandchild 2%nat par).
  - apply (rllm_reachable_step _ env_child _
             (Call_spawn_child (Some 1%nat) (stub_config RLLM_SHARE_NONE)));
      [|vm_compute; reflexivity].
    apply (rllm_reachable_step _ env_root _
             (Call_spawn_child (Some 0%nat) (stub_config RLLM_SHARE_NONE)));
      [|vm_compute; reflexivity].
    apply (rllm_reachable_step _ env_empty _
             (Call_create_root (stub_config RLLM_SHARE_NONE)));
      [|vm_compute; reflexivity].
    apply (rllm_reachable_step _ (rllm_init (env_config env_empty)) _
             (Call_install_callbacks true true true));
      [|vm_compute; reflexivity].
    apply rllm_reachable_init.
  - vm_compute. split; [discriminate|reflexivity].
  - exact Hpar.
Defined.

Lemma rllm_spawn_child_depth_limit_witness :
  rllm_spawn_child env_grandchild (Some 2%nat) (stub_config RLLM_SHARE_NONE)
  = Some (None, env_grandchild)
  /\ exists c, env_heap env_grandchild !! 2%nat = Some c
               /\ rc_depth c = 2 /\ rc_depth c < max_depth (env_config env_grandchild).
Proof.
  split.
  - destruct (env_heap env_grandchild !! 2%nat) as [par|] eqn:Hpar;
      [|vm_compute in Hpar; discriminate].
    apply (proj1 (rllm_spawn_child_depth_limit env_grandchild 2%nat par
                    (stub_config RLLM_SHARE_NONE) Hpar)).
    vm_compute in Hpar. injection Hpar as <-. vm_compute. discriminate.
  - destruct (env_heap env_child !! 1%nat) as [par|] eqn:Hpar;
      [|vm_compute in Hpar; discriminate].
    destruct (proj2 (rllm_spawn_child_depth_limit env_child 1%nat par
                       (stub_config RLLM_SHARE_NONE) Hpar) 2%nat env_grandchild)
      as (c & Hc & Hd & Hlt).
    + vm_compute. reflexivity.
    + exists c. split; [exact Hc|]. split; [|exact Hlt].
      rewrite Hd. vm_compute in Hpar. injection Hpar as <-. reflexivity.
Defined.

(** ** Sessions, sequences, mailboxes and the context tree *)




Lemma te_readonly_buffer_fixed_witness :
  exists e ctx',
    te_apply Call_undo editor_readonly = Some (e, ctx')
    /\ tokens ctx' = tokens editor_readonly
    /\ token_info ctx' = token_info editor_readonly
    /\ readonly ctx' = true
    /\ (is_mutator Call_undo = true -> e = TE_ERROR_READONLY /\ ctx' = editor_readonly).
Proof. apply (te_readonly_buffer_fixed Call_undo editor_readonly); reflexivity. Defined.

Lemma te_set_token_get_token_witness :
  n_tokens editor_set = n_tokens editor_abc
  /\ forall q s, te_get_token editor_set q s
                 = if q =? 1 then 9 else te_get_token editor_abc q s.
Proof.
  apply (te_set_token_get_token editor_abc 1 0 9 editor_set). vm_compute. reflexivity.
Defined.

Lemma te_insert_tokens_get_tokens_witness :
  te_get_token_count editor_shifted 0 = (n_tokens editor_abc + 1)%nat
  /\ te_get_tokens editor_shifted (mk_range 0 (0 + Z.of_nat (length (A:=Z) [9])) 0) (length (A:=Z) [9])
     = (TE_OK, [9], length (A:=Z) [9]).
Proof.
  apply (te_insert_tokens_get_tokens editor_abc 0 0 [9] editor_shifted 0).
  - split; [vm_compute; lia|vm_compute; reflexivity].
  - discriminate.
  - vm_compute. reflexivity.
Defined.

Lemma te_snapshot_restore_witness :
  exists snapshot ctx',
    te_create_snapshot editor_abc = Some snapshot
    /\ te_restore_snapshot editor_five snapshot = Some (TE_OK, ctx')
    /\ tokens ctx' = tokens editor_abc /\ token_info ctx' = token_info editor_abc
    /\ llama_ctx ctx'
       = llama_set_state_data (llama_ctx editor_five)
           (llama_copy_state_data (llama_ctx editor_abc))
    /\ kv_cache_dirty ctx' = false /\ logits_valid ctx' = true
    /\ history ctx' = history editor_five /\ redo_stack ctx' = redo_stack editor_five.
Proof.
  apply (te_snapshot_restore editor_abc editor_five).
  - vm_compute. reflexivity.
  - vm_compute. lia.
Defined.

Lemma te_find_token_first_occurrences_witness :
  exists positions,
    te_find_token editor_aba 1 0 1 = (TE_OK, positions, length positions)
    /\ (length positions <= 1)%nat
    /\ StronglySorted Z.lt positions
    /\ (forall p, p ∈ positions ->
          (0 <= p < Z.of_nat (n_tokens editor_aba)) /\ te_get_token editor_aba p 0 = 1)
    /\ (forall i : nat, tokens editor_aba !! i = Some 1 ->
          Z.of_nat i ∈ positions
          \/ (length positions = 1%nat
              /\ Forall (fun p => p < Z.of_nat i) positions)).
Proof.
  apply (te_find_token_first_occurrences editor_aba 1 0 1). vm_compute. discriminate.
Defined.

Lemma te_create_sequence_fresh_witness :
  exists id,
    0 <= id /\ Forall (fun a => a < id) [0; 3]
    /\ te_create_sequence [0; 3]
       = Some (if (16 <=? 2)%nat then (-1, [0; 3]) else (id, [0; 3] ++ [id])).
Proof.
  apply (te_create_sequence_fresh [0; 3]).
  repeat constructor.
Defined.

Lemma te_sequences_distinct_witness :
  NoDup sequences_two /\ Forall (fun a => 0 <= a <= INT32_MAX) sequences_two
  /\ (length sequences_two <= 16)%nat.
Proof.
  apply (@te_sequences_distinct stub_api stub_seq_api sequences_two).
  apply (@te_sequences_reachable_create stub_api stub_seq_api te_init_sequences 1
           sequences_two).
  - apply te_sequences_reachable_init.
  - vm_compute. reflexivity.
Defined.

Lemma rllm_send_message_appends_witness :
  ((queue_count mailbox_one + 1 < queue_capacity mailbox_one)%nat ->
   exists mb', rllm_send_message 3 2 mailbox_one zero_message = Some (RLLM_OK, mb')
               /\ mailbox_ok mb' /\ queue_capacity mb' = queue_capacity mailbox_one
               /\ pending mb'
                  = pending mailbox_one
                    ++ [mk_message (msg_type zero_message) 3 2 (msg_seq_num zero_message)
                                   (msg_data_size zero_message) (msg_data zero_message)])
  /\ ((queue_count mailbox_one + 1)%nat = queue_capacity mailbox_one ->
      rllm_send_message 3 2 mailbox_one zero_message = Some (RLLM_ERROR_MEMORY, mailbox_one)).
Proof.
  apply (rllm_send_message_appends 3 2 mailbox_one zero_message).
  - split; vm_compute; lia.
  - exact I.
Defined.

Lemma rllm_recv_message_oldest_witness :
  (forall msg rest, pending mailbox_one = msg :: rest ->
     rllm_has_messages mailbox_one = true
     /\ exists mb', rllm_recv_message mailbox_one 0 = Some (RLLM_OK, Some msg, mb')
                    /\ mailbox_ok mb' /\ queue_capacity mb' = queue_capacity mailbox_one
                    /\ pending mb' = rest)
  /\ (pending mailbox_one = [] ->
      rllm_has_messages mailbox_one = false
      /\ (0 < 0 ->
          rllm_recv_message mailbox_one 0 = Some (RLLM_ERROR_TIMEOUT, None, mailbox_one))).
Proof.
  apply (rllm_recv_message_oldest mailbox_one 0).
  split; vm_compute; lia.
Defined.

Lemma rllm_send_tokens_recv_witness :
  exists mb1 msg data mb2,
    rllm_send_tokens 1 2 rllm_alloc_mailbox [7; -1] = Some (RLLM_OK, mb1)
    /\ rllm_recv_message mb1 0 = Some (RLLM_OK, Some msg, mb2)
    /\ msg_type msg = RLLM_MSG_TOKENS
    /\ msg_sender msg = 1 /\ msg_receiver msg = 2
    /\ msg_data_size msg = (4 * 2)%nat
    /\ msg_data msg = Some data /\ int32s_of_bytes (length (A:=Z) [7; -1]) data = [7; -1]
    /\ pending mb2 = [].
Proof.
  apply (rllm_send_tokens_recv 1 2 rllm_alloc_mailbox [7; -1] 0).
  - split; vm_compute; lia.
  - reflexivity.
  - vm_compute. lia.
  - repeat constructor; vm_compute; discriminate.
Defined.

Lemma rllm_pool_bounded_witness :
  env_config env_forked = env_config env_empty
  /\ Z.of_nat (n_contexts env_forked) <= Z.max 0 (max_contexts (env_config env_empty)).
Proof.
  apply (rllm_pool_bounded (env_config env_empty) env_forked).
  apply (rllm_session_fork _ env_child env_forked (Some 1%nat) (Some 2%nat));
    [|vm_compute; reflexivity].
  apply (rllm_session_call _ env_root env_child
           (Call_spawn_child (Some 0%nat) (stub_config RLLM_SHARE_NONE)));
    [|vm_compute; reflexivity].
  apply (rllm_session_call _ env_empty env_root
           (Call_create_root (stub_config RLLM_SHARE_NONE)));
    [|vm_compute; reflexivity].
  apply (rllm_session_call _ (rllm_init (env_config env_empty)) env_empty
           (Call_install_callbacks true true true));
    [|vm_compute; reflexivity].
  apply rllm_session_init.
Defined.

Lemma rllm_destroy_leaf_witness :
  exists c,
    env_heap env_child !! 1%nat = Some c
    /\ exists env',
         rllm_destroy env_child 1%nat = Some (RLLM_OK, env')
         /\ env_heap env' !! 1%nat = None
         /\ env_contexts env' = remove_first 1%nat (env_contexts env_child)
         /\ env_roots env' = remove_first 1%nat (env_roots env_child)
         /\ env_events env'
            = env_events env_child
              ++ (if env_on_context_destroy env_child
                  then [Ev_context_destroy 1%nat] else [])
         /\ (forall q, q <> 1%nat -> rc_parent c <> Some q ->
               env_heap env' !! q = env_heap env_child !! q)
         /\ (forall parent par, rc_parent c = Some parent ->
               env_heap env_child !! parent = Some par ->
               env_heap env' !! parent
               = Some (set_rc_children (remove_first 1%nat (rc_children par)) par)).
Proof.
  destruct (env_heap env_child !! 1%nat) as [c|] eqn:Hc;
    [|vm_compute in Hc; discriminate].
  exists c. split; [reflexivity|].
  apply (rllm_destroy_leaf env_child 1%nat c Hc).
  - vm_compute in Hc. injection Hc as <-. reflexivity.
  - vm_compute in Hc. injection Hc as <-. simpl. split; [discriminate|].
    vm_compute. eexists. reflexivity.
Defined.

Lemma rllm_spawn_child_lookups_witness :
  rllm_get_parent (env_heap env_child) (Some 1%nat) = Some (Some 0%nat)
  /\ rllm_get_depth (env_heap env_child) (Some 1%nat)
     = (fun d => to_uint32 (d + 1)) <$> rllm_get_depth (env_heap env_root) (Some 0%nat)
  /\ rllm_get_root 2 (env_heap env_child) (Some 1%nat) = Some (Some 0%nat).
Proof.
  destruct (env_heap env_root !! 0%nat) as [par|] eqn:Hpar;
    [|vm_compute in Hpar; discriminate].
  apply (rllm_spawn_child_lookups env_root 0%nat par (stub_config RLLM_SHARE_NONE)
           1%nat env_child 1 0%nat Hpar); vm_compute; reflexivity.
Defined.

Lemma rllm_fork_of_parent_witness :
  tokens_of env_prompted_child 0%nat = Some [1; 2]
  /\ tokens_of env_prompted_child 1%nat = Some []
  /\ exists ctx env' c child_te,
       rllm_fork env_prompted_child (Some 1%nat) = Some (Some ctx, env')
       /\ env_heap env' !! ctx = Some c
       /\ rc_relation c = RLLM_REL_FORK
       /\ rc_parent c = Some 0%nat
       /\ rc_token_editor c = Some child_te
       /\ tokens child_te = [1; 2].
Proof.
  split; [vm_compute; reflexivity|]. split; [vm_compute; reflexivity|].
  destruct (env_heap env_prompted_child !! 1%nat) as [src|] eqn:Hsrc;
    [|vm_compute in Hsrc; discriminate].
  destruct (env_heap env_prompted_child !! 0%nat) as [par|] eqn:Hpar;
    [|vm_compute in Hpar; discriminate].
  destruct (rllm_fork_of_parent env_prompted_child 1%nat src Hsrc) as [_ Hfork].
  destruct (rllm_fork env_prompted_child (Some 1%nat)) as [[[ctx|] env']|] eqn:Hrun;
    [|vm_compute in Hrun; discriminate..].
  destruct (Hfork 0%nat par ctx env') as (_ & c & child_te & Hc & Hrel & Hp & _ & _ & Hte & Htok).
  - vm_compute in Hsrc. injection Hsrc as <-. reflexivity.
  - exact Hpar.
  - exact Hrun.
  - exists ctx, env', c, child_te. repeat (split; [assumption || reflexivity|]).
    vm_compute in Hpar. injection Hpar as <-.
    apply (Htok _ eq_refl). vm_compute. discriminate.
Defined.

Lemma rllm_create_peer_of_root_witness :
  exists p,
    env_heap env_root !! 0%nat = Some p
    /\ env_heap env_root !! 1%nat = None
    /\ (exists lctx,
          env_heap env_peer
          = <[1%nat := mk_rc (env_next_ctx_id env_root) RLLM_REL_PEER RLLM_STATE_IDLE None []
                             (rc_depth p) (Some (te_init lctx))
                             (stub_config RLLM_SHARE_NONE)]> (env_heap env_root))
    /\ env_contexts env_peer = env_contexts env_root ++ [1%nat]
    /\ env_roots env_peer = env_roots env_root.
Proof.
  destruct (env_heap env_root !! 0%nat) as [p|] eqn:Hp; [|vm_compute in Hp; discriminate].
  exists p. split; [reflexivity|].
  apply (rllm_create_peer_of_root env_root 0%nat p (stub_config RLLM_SHARE_NONE) 1%nat
           env_peer Hp).
  - vm_compute in Hp. injection Hp as <-. reflexivity.
  - vm_compute. reflexivity.
Defined.

Lemma rllm_get_context_first_witness :
  exists r,
    rllm_get_context env_child 1 = Some r
    /\ match r with
       | Some p =>
           exists before after c,
             env_contexts env_child = before ++ p :: after
             /\ env_heap env_child !! p = Some c /\ rc_id c = 1
             /\ forall q cq, q ∈ before -> env_heap env_child !! q = Some cq -> rc_id cq <> 1
       | None =>
           forall q cq, q ∈ env_contexts env_child -> env_heap env_child !! q = Some cq ->
                        rc_id cq <> 1
       end.
Proof.
  apply (rllm_get_context_first env_child 1).
  repeat constructor; vm_compute; eexists; reflexivity.
Defined.
